(** * Cardiomyocyte helper functions: a shallow embedding

  The development follows [cardiomyocytes_helper_functions.py].  Images are
  numpy arrays; they are embedded as row-major lists of rows together with
  an indexing function.  Unsigned 8-bit pixels are integers with the
  wrap-around written out.  Floating-point angles and signals are idealised
  as real numbers; NaN is an explicit [None].  Library routines of
  scikit-image, scipy and scikit-learn are parameters of the sections that
  use them. *)

From Stdlib Require Import String.
From Stdlib Require Import ZArith List Bool Lia Reals Lra FinFun Sorted Permutation.
Import ListNotations.

Set Implicit Arguments.

(** ** Outcomes of a Python call *)

Inductive exn : Type :=
| UnboundLocalError
| ValueError
| IndexError.

Inductive result (A : Type) : Type :=
| Ok (a : A)
| Raise (e : exn).

Arguments Ok {A} a.
Arguments Raise {A} e.

Definition bind {A B : Type} (m : result A) (k : A -> result B) : result B :=
  match m with
  | Ok a => k a
  | Raise e => Raise e
  end.

Notation "x <- m ;; k" := (bind m (fun x => k))
  (at level 61, m at next level, right associativity).

(** ** Two-dimensional arrays *)

Module Nd.

Definition shape : Type := (nat * nat)%type.
Definition ndarray (A : Type) : Type := list (list A).

Definition range (n : nat) : list Z := map Z.of_nat (seq 0 n).

(** [tabulate sh f] is the array of shape [sh] whose pixel [(r, c)] is
    [f r c]. *)
Definition tabulate {A : Type} (sh : shape) (f : Z -> Z -> A) : ndarray A :=
  map (fun r => map (fun c => f r c) (range (snd sh))) (range (fst sh)).

Definition in_bounds (sh : shape) (r c : Z) : bool :=
  ((0 <=? r) && (r <? Z.of_nat (fst sh)) &&
   (0 <=? c) && (c <? Z.of_nat (snd sh)))%Z.

(** [item d a r c] reads pixel [(r, c)]; [d] stands for a read outside the
    array, which the embedded code never performs. *)
Definition item {A : Type} (d : A) (a : ndarray A) (r c : Z) : A :=
  if ((r <? 0) || (c <? 0))%Z then d
  else nth (Z.to_nat c) (nth (Z.to_nat r) a []) d.

Definition shape_of {A : Type} (a : ndarray A) : shape :=
  (length a, length (hd [] a)).

(** Every pixel coordinate of a shape, in row-major order. *)
Definition pixels (sh : shape) : list (Z * Z) :=
  flat_map (fun r => map (fun c => (r, c)) (range (snd sh))) (range (fst sh)).

(** [np.zeros(im_shape).astype('uint8')] *)
Definition zeros (sh : shape) : ndarray Z := tabulate sh (fun _ _ => 0%Z).

(** [a[sel] = f(a[sel])]: the selected pixels are rewritten, the others
    are kept. *)
Definition update_where (sh : shape) (sel : ndarray bool) (f : Z -> Z)
    (a : ndarray Z) : ndarray Z :=
  tabulate sh (fun r c =>
    if item false sel r c then f (item 0%Z a r c) else item 0%Z a r c).

(** [a > k], [a == k] *)
Definition gt_scalar (sh : shape) (a : ndarray Z) (k : Z) : ndarray bool :=
  tabulate sh (fun r c => (k <? item 0%Z a r c)%Z).

Definition eq_scalar (sh : shape) (a : ndarray Z) (k : Z) : ndarray bool :=
  tabulate sh (fun r c => (item 0%Z a r c =? k)%Z).

(** [a.copy()] *)
Definition copy {A : Type} (a : ndarray A) : ndarray A := a.

End Nd.

Import Nd.

(** ** Mask Builder: [create_mask_from_shapes] *)

(** Arithmetic on [uint8] arrays wraps modulo 256.  The label [i+1] is added
    as a [uint8] value as long as it is at most 255, which is the case the
    properties below are about. *)
Definition uint8 (z : Z) : Z := (z mod 256)%Z.

Section MaskBuilder.

(** A polygon is a numpy array of vertices.  The function inspects the
    number of its dimensions, takes two columns of it in the 3D branch and
    hands it to the rasterizers. *)
Variable Polygon : Type.
(** [len(poly.shape)] *)
Variable ndim : Polygon -> nat.
(** [poly.shape[1]], the length of the second axis *)
Variable second_axis : Polygon -> nat.
(** [skimage.draw.polygon2mask(im_shape, poly)] *)
Variable polygon2mask : shape -> Polygon -> ndarray bool.
(** [skimage.draw.polygon(r, c, shape=im_shape)] for the coordinate arrays
    [r = poly[:,1]] and [c = poly[:,2]].  They have one dimension less than
    [poly]; the rasterizer may raise on them. *)
Variable polygon : Polygon -> shape -> result (list (Z * Z)).

(** The local variables that live across iterations of the loop.  A local
    that has not been assigned yet is [None]. *)
Record locals : Type := mk_locals {
  mask : ndarray Z;
  mask_coord : option (list (Z * Z));
  mask_single : option (ndarray bool)
}.

(** One iteration of [for i, poly in enumerate(vertices_polygons)]. *)
Definition loop_body (im_shape : shape) (i : Z) (poly : Polygon)
    (st : locals) : result locals :=
  st <-
    (if (2 <? ndim poly)%nat
     then
       (* vertices_polygons[i][:,1] and vertices_polygons[i][:,2]: the
          second axis needs the indices 1 and 2 *)
       if (second_axis poly <? 3)%nat then Raise IndexError
       else
         mask_coord <- polygon poly im_shape ;;
         Ok (mk_locals (mask st) (Some mask_coord) (mask_single st))
     else Ok (mk_locals (mask st) (mask_coord st) (Some (polygon2mask im_shape poly)))) ;;
  match mask_single st with
  | None => Raise UnboundLocalError
  | Some ms =>
      (* mask[mask_single] = mask[mask_single] + (i+1) *)
      let m := update_where im_shape ms (fun v => uint8 (v + (i + 1))) (mask st) in
      (* mask[mask > (i+1)] = 255 *)
      let m := update_where im_shape (gt_scalar im_shape m (i + 1)) (fun _ => 255%Z) m in
      Ok (mk_locals m (mask_coord st) (mask_single st))
  end.

Fixpoint loop (im_shape : shape) (i : Z) (polys : list Polygon)
    (st : locals) : result locals :=
  match polys with
  | [] => Ok st
  | poly :: rest =>
      st' <- loop_body im_shape i poly st ;;
      loop im_shape (i + 1) rest st'
  end.

Definition create_mask_from_shapes (vertices_polygons : list Polygon)
    (im_shape : shape) : result (ndarray Z * ndarray Z) :=
  st <- loop im_shape 0 vertices_polygons (mk_locals (zeros im_shape) None None) ;;
  let mask_shapes_overlap := mask st in
  let mask_shapes := copy mask_shapes_overlap in
  let mask_shapes :=
    update_where im_shape (eq_scalar im_shape mask_shapes 255) (fun _ => 0%Z) mask_shapes in
  Ok (mask_shapes_overlap, mask_shapes).

End MaskBuilder.

(** What one iteration does to a single pixel of [mask]: [covered] tells
    whether the pixel is selected by [mask_single]. *)
Definition pixel_step (i : Z) (covered : bool) (v : Z) : Z :=
  let v := if covered then uint8 (v + (i + 1)) else v in
  if (i + 1 <? v)%Z then 255%Z else v.

(** The pixel after the iterations [i], [i+1], ... whose selections of the
    pixel are [covers]. *)
Fixpoint pixel_fold (i : Z) (covers : list bool) (v : Z) : Z :=
  match covers with
  | [] => v
  | b :: covers' => pixel_fold (i + 1) covers' (pixel_step i b v)
  end.

(** ** Perpendicularity Scorer: [calculate_perpendicular_index]

    [math.pi] is the real number [PI]. *)

Definition calculate_perpendicular_index (alpha beta : R) : R :=
  let angle_between_lines := Rabs (alpha - beta) in
  (* Get values between 0 and pi *)
  let angle_between_lines :=
    if Rlt_dec PI angle_between_lines
    then (angle_between_lines - PI)%R
    else angle_between_lines in
  (* Get values between 0 and pi/2 *)
  let angle_between_lines :=
    if Rlt_dec (PI / 2) angle_between_lines
    then (PI / 2 - (angle_between_lines - PI / 2))%R
    else angle_between_lines in
  let M := (angle_between_lines / (PI / 2))%R in
  M.

(** ** Orientation Estimator, vertex mode *)

(** [np.arctan2(y, x)] on reals: the angle of the point [(x, y)] in
    (-pi, pi], and 0 at the origin. *)
Definition arctan2 (y x : R) : R :=
  if Rlt_dec 0 x then atan (y / x)
  else if Rlt_dec x 0 then
    (if Rle_dec 0 y then atan (y / x) + PI else atan (y / x) - PI)%R
  else if Rlt_dec 0 y then (PI / 2)%R
  else if Rlt_dec y 0 then (- (PI / 2))%R
  else 0%R.

Definition point : Type := (R * R)%type.

Definition calculate_orientation (point1 point2 : point) : R :=
  let dx := (fst point2 - fst point1)%R in
  let dy := (snd point2 - snd point1)%R in
  arctan2 dy dx.

(** One pass of the loop body of [orientations_from_vertices] for index [i];
    [vert] is the list of (row, col) vertices. *)
Definition edge_orientation (vert : list point) (i : nat) : R :=
  let p0 := nth i vert (0, 0)%R in
  let p1 :=
    if (i =? length vert - 1)%nat
    then nth 0 vert (0, 0)%R
    else nth (i + 1) vert (0, 0)%R in
  (* change of the coordinates to match orientation calculated for actin fibers *)
  let p0 := (snd p0, fst p0) in
  let p1 := (snd p1, fst p1) in
  calculate_orientation p1 p0.

Definition orientations_from_vertices (vert : list point) : list R :=
  fold_left (fun my_rad_list i => my_rad_list ++ [edge_orientation vert i])
    (seq 0 (length vert)) [].

(** The angle the specification describes for edge [i]: that of the
    displacement from vertex [i] to the next vertex (vertex 0 after the
    last), with x the column and y the row. *)
Definition forward_edge_angle (vert : list point) (i : nat) : R :=
  let p0 := nth i vert (0, 0)%R in
  let p1 := nth ((i + 1) mod length vert) vert (0, 0)%R in
  arctan2 (fst p1 - fst p0) (snd p1 - snd p0).

(** The angle of the opposite displacement, from the next vertex back to
    vertex [i]. *)
Definition backward_edge_angle (vert : list point) (i : nat) : R :=
  let p0 := nth i vert (0, 0)%R in
  let p1 := nth ((i + 1) mod length vert) vert (0, 0)%R in
  arctan2 (fst p0 - fst p1) (snd p0 - snd p1).

(** Axis-aligned rectangles with a corner at [(r, c)], sides [s] along the
    columns and [t] along the rows, traversed along the columns first or
    along the rows first; squares are the case [s = t] or [s = - t]. *)
Definition rectangle_cols_first (r c s t : R) : list point :=
  [(r, c); (r, c + s); (r + t, c + s); (r + t, c)]%R.

Definition rectangle_rows_first (r c s t : R) : list point :=
  [(r, c); (r + t, c); (r + t, c + s); (r, c + s)]%R.

Definition unit_square : list point := rectangle_cols_first 0 0 1 1.

(** ** Arrays as objects

    A Python name holds a reference to an array object.  A heap holds the
    objects of one kind: [next] is the first reference not in use, the
    objects are those below it.  The Signal Interpolator, which writes into
    the array it was given, is embedded over the heap of signals, so that
    what the caller sees after the call can be stated; the memory of all
    kinds of arrays, over which the other operations are embedded as well,
    follows further down. *)

Definition ref : Type := nat.

Record heap (A : Type) : Type := mk_heap {
  next : ref;
  store : ref -> A
}.

Definition heap_write {A : Type} (h : heap A) (l : ref) (a : A) : heap A :=
  mk_heap (next h) (fun l' => if (l' =? l)%nat then a else store h l').

Definition heap_alloc {A : Type} (h : heap A) (a : A) : ref * heap A :=
  (next h, mk_heap (S (next h)) (fun l' => if (l' =? next h)%nat then a else store h l')).

(** ** Signal Interpolator: [interpolate_and_fill] *)

(** A float64 sample: a real number, or NaN. *)
Definition sample : Type := option R.

Definition isnan (v : sample) : bool :=
  match v with
  | None => true
  | Some _ => false
  end.

(** What [.squeeze()] returns for an array with one remaining axis: an array
    of a single element collapses to a zero-dimensional array. *)
Inductive squeezed (A : Type) : Type :=
| Array0 (a : A)
| Array1 (l : list A).

Arguments Array0 {A} a.
Arguments Array1 {A} l.

Definition squeeze {A : Type} (l : list A) : squeezed A :=
  match l with
  | [a] => Array0 a
  | _ => Array1 l
  end.

(** [np.argwhere(m)] for a one-dimensional boolean [m]: the indices of the
    true entries, in increasing order (one row per index). *)
Fixpoint argwhere_from (i : Z) (m : list bool) : list Z :=
  match m with
  | [] => []
  | b :: m' => if b then i :: argwhere_from (i + 1) m' else argwhere_from (i + 1) m'
  end.

Definition argwhere (m : list bool) : list Z := argwhere_from 0 m.

(** [signal[~np.isnan(signal)]]: the defined samples, in order. *)
Fixpoint defined_values (signal : list sample) : list R :=
  match signal with
  | [] => []
  | Some v :: s' => v :: defined_values s'
  | None :: s' => defined_values s'
  end.

(** [np.interp] at one point [x], after the first sample point [(x0, f0)]:
    linear between consecutive sample points, the last value to the right
    of them. *)
Fixpoint interp_after (x : Z) (x0 : Z) (f0 : R) (xp : list Z) (fp : list R) : R :=
  match xp, fp with
  | x1 :: xp', f1 :: fp' =>
      if (x <? x1)%Z
      then ((f1 - f0) / (IZR x1 - IZR x0) * (IZR x - IZR x0) + f0)%R
      else interp_after x x1 f1 xp' fp'
  | _, _ => f0
  end.

Definition interp_at (xp : list Z) (fp : list R) (x : Z) : R :=
  match xp, fp with
  | x0 :: xp', f0 :: fp' => if (x <=? x0)%Z then f0 else interp_after x x0 f0 xp' fp'
  | _, _ => 0%R
  end.

(** [np.interp(x, xp, fp)]: the sample points and values must be
    one-dimensional, non-empty and of equal length; the result has the
    dimensions of [x]. *)
Definition np_interp (x : squeezed Z) (xp : squeezed Z) (fp : squeezed R)
  : result (squeezed R) :=
  match xp, fp with
  | Array1 xp, Array1 fp =>
      if (length xp =? 0)%nat then Raise ValueError
      else if negb (length fp =? length xp)%nat then Raise ValueError
      else
        match x with
        | Array0 x => Ok (Array0 (interp_at xp fp x))
        | Array1 x => Ok (Array1 (map (interp_at xp fp) x))
        end
  | _, _ => Raise ValueError
  end.

(** [signal[i] = v] *)
Fixpoint set_index (signal : list sample) (i : nat) (v : R) : list sample :=
  match signal, i with
  | [], _ => []
  | _ :: s', O => Some v :: s'
  | a :: s', S i' => a :: set_index s' i' v
  end.

(** [signal[x] = values] *)
Definition setitem (signal : list sample) (x : squeezed Z) (values : squeezed R)
  : result (list sample) :=
  match x, values with
  | Array0 i, Array0 v => Ok (set_index signal (Z.to_nat i) v)
  | Array1 x, Array1 values =>
      if (length x =? length values)%nat
      then Ok (fold_left (fun s iv => set_index s (Z.to_nat (fst iv)) (snd iv))
                 (combine x values) signal)
      else Raise ValueError
  | Array0 i, Array1 _ => Raise ValueError
  | Array1 x, Array0 v =>
      Ok (fold_left (fun s i => set_index s (Z.to_nat i) v) x signal)
  end.

(** The indices an index array stands for. *)
Definition indices {A : Type} (x : squeezed A) : list A :=
  match x with
  | Array0 a => [a]
  | Array1 l => l
  end.

(** The function receives a reference to the caller's array, writes into
    that array and returns the same reference. *)
Definition interpolate_and_fill (signal : ref) (h : heap (list sample))
  : result (ref * heap (list sample)) :=
  let arr := store h signal in
  (* where signal is missing *)
  let x := squeeze (argwhere (map isnan arr)) in
  (* existing signal *)
  let xp := squeeze (argwhere (map (fun v => negb (isnan v)) arr)) in
  let fp := squeeze (defined_values arr) in
  (* interpolate the values *)
  values_interp <- np_interp x xp fp ;;
  (* fill in the values *)
  arr' <- setitem arr x values_interp ;;
  Ok (signal, heap_write h signal arr').

(** A heap whose only object, at reference 0, is the array [arr]. *)
Definition heap_of {A : Type} (arr : A) : heap A := mk_heap 1 (fun _ => arr).

(** ** Gap/Overlap Resolver: [fill_gaps_between_cells] *)

(** The scikit-image routines the resolver calls.  A footprint is what
    [disk(radius)] returns. *)
Record morphology : Type := mk_morphology {
  footprint : Type;
  disk : Z -> footprint;
  binary_dilation : ndarray bool -> footprint -> ndarray bool;
  binary_erosion : ndarray bool -> footprint -> ndarray bool;
  opening : ndarray bool -> footprint -> ndarray bool;
  closing : ndarray bool -> footprint -> ndarray bool;
  expand_labels : ndarray Z -> Z -> ndarray Z
}.

Definition b2z (b : bool) : Z := if b then 1%Z else 0%Z.

(** [np.max(a)]; a zero-size array has no maximum. *)
Definition np_max (a : ndarray Z) : result Z :=
  match pixels (shape_of a) with
  | [] => Raise ValueError
  | _ => Ok (fold_left (fun m p => Z.max m (item 0%Z a (fst p) (snd p)))
               (pixels (shape_of a)) 0%Z)
  end.

(** [np.sum(np.array(l), axis=0)] *)
Definition sum_axis0 (sh : shape) (l : list (ndarray Z)) : ndarray Z :=
  tabulate sh (fun r c => fold_right Z.add 0%Z (map (fun a => item 0%Z a r c) l)).

Section GapResolver.

Variable M : morphology.

(** [d.astype(int) - m] for a dilated mask [d] and the mask [m] itself *)
Definition ring (sh : shape) (d m : ndarray bool) : ndarray Z :=
  tabulate sh (fun r c => (b2z (item false d r c) - b2z (item false m r c))%Z).

(** The loop over the objects: the lists [mask_list_small] and
    [mask_list_big] after [n] iterations. *)
Definition ring_lists (sh : shape) (mask_shapes : ndarray Z) (n : nat)
  : list (ndarray Z) * list (ndarray Z) :=
  fold_left
    (fun lists i =>
       let mask := eq_scalar sh mask_shapes (i + 1) in
       let mask_dilated_small := binary_dilation M mask (disk M 8) in
       let mask_dilated_big := binary_dilation M mask (disk M 10) in
       (fst lists ++ [ring sh mask_dilated_small mask],
        snd lists ++ [ring sh mask_dilated_big mask]))
    (range n) ([], []).

(** [(b | a) > 0] for a boolean array [b] and a uint8 array [a]: Python
    reads [b | a > 0] this way, and the bitwise or of a boolean with a
    uint8 value is a uint8 value. *)
Definition or_positive (sh : shape) (b : ndarray bool) (a : ndarray Z) : ndarray bool :=
  tabulate sh (fun r c => (0 <? Z.lor (b2z (item false b r c)) (item 0%Z a r c))%Z).

(** Everything after [mask_shapes] has been prepared. *)
Definition divide_contested (sh : shape) (mask_shapes_overlap mask_shapes : ndarray Z)
  : result (ndarray Z) :=
  n <- np_max mask_shapes ;;
  let lists := ring_lists sh mask_shapes (Z.to_nat n) in
  let mask_list_small := fst lists in
  let mask_list_big := snd lists in
  (* combine the masks (choose regions that may contain corrections) *)
  let possible := gt_scalar sh (sum_axis0 sh mask_list_big) 1 in
  (* select which regions from the small rings are in the possible territory *)
  let t :=
    map (fun small =>
           tabulate sh (fun r c =>
             b2z (negb (item 0%Z small r c =? 0)%Z && item false possible r c)))
        mask_list_small in
  let passages := sum_axis0 sh t in
  (* trim the passages *)
  let mask_to_trim :=
    tabulate sh (fun r c =>
      (0 <? item 0%Z mask_shapes_overlap r c)%Z || (1 <? item 0%Z passages r c)%Z) in
  let mask_trimmed := or_positive sh (opening M mask_to_trim (disk M 10)) mask_shapes_overlap in
  let mask_trimmed := or_positive sh (binary_erosion M mask_trimmed (disk M 5)) mask_shapes_overlap in
  let mask_trimmed := or_positive sh (closing M mask_trimmed (disk M 2)) mask_shapes_overlap in
  (* combine the pixels that need to be re-assigned *)
  let to_divide :=
    tabulate sh (fun r c =>
      (b2z (item false mask_trimmed r c)
       - b2z (0 <? item 0%Z mask_shapes_overlap r c)
       + b2z (item 0%Z mask_shapes_overlap r c =? 255))%Z) in
  (* re-assign pixels *)
  let im_divided :=
    tabulate sh (fun r c =>
      (item 0%Z (expand_labels M mask_shapes 250) r c * item 0%Z to_divide r c)%Z) in
  Ok im_divided.

(** The function on array values. *)
Definition fill_gaps_between_cells (mask_shapes_overlap : ndarray Z) : result (ndarray Z) :=
  let sh := shape_of mask_shapes_overlap in
  let mask_shapes := copy mask_shapes_overlap in
  let mask_shapes := update_where sh (eq_scalar sh mask_shapes 255) (fun _ => 0%Z) mask_shapes in
  divide_contested sh mask_shapes_overlap mask_shapes.

End GapResolver.

(** The hypotheses of the no-op property.  [no_sentinel]: no pixel is 255.
    [no_narrow_gaps]: no pixel lies in the 8 px ring of a region while it
    lies in the 10 px rings of two or more regions.  [foreground]: the
    pixels that carry a value above 0.  [anti_extensive]: the operator only
    removes pixels. *)
Definition no_sentinel (mask_shapes_overlap : ndarray Z) : Prop :=
  forall r c : Z,
    in_bounds (shape_of mask_shapes_overlap) r c = true ->
    item 0%Z mask_shapes_overlap r c <> 255%Z.

Definition no_narrow_gaps (M : morphology) (mask_shapes_overlap : ndarray Z) : Prop :=
  let sh := shape_of mask_shapes_overlap in
  let mask_shapes :=
    update_where sh (eq_scalar sh (copy mask_shapes_overlap) 255) (fun _ => 0%Z)
      (copy mask_shapes_overlap) in
  forall n : Z,
    np_max mask_shapes = Ok n ->
    forall (small : ndarray Z) (r c : Z),
      In small (fst (ring_lists M sh mask_shapes (Z.to_nat n))) ->
      in_bounds sh r c = true ->
      item 0%Z small r c <> 0%Z ->
      (item 0%Z (sum_axis0 sh (snd (ring_lists M sh mask_shapes (Z.to_nat n)))) r c <= 1)%Z.

(** The two hypotheses as computations over the pixels. *)
Definition no_sentinel_check (mask_shapes_overlap : ndarray Z) : bool :=
  forallb (fun p => negb (item 0%Z mask_shapes_overlap (fst p) (snd p) =? 255)%Z)
    (pixels (shape_of mask_shapes_overlap)).

Definition no_narrow_gaps_check (M : morphology) (mask_shapes_overlap : ndarray Z) : bool :=
  let sh := shape_of mask_shapes_overlap in
  let mask_shapes :=
    update_where sh (eq_scalar sh (copy mask_shapes_overlap) 255) (fun _ => 0%Z)
      (copy mask_shapes_overlap) in
  match np_max mask_shapes with
  | Ok n =>
      let lists := ring_lists M sh mask_shapes (Z.to_nat n) in
      let big := sum_axis0 sh (snd lists) in
      forallb
        (fun small =>
           forallb (fun p => (item 0%Z small (fst p) (snd p) =? 0)%Z
                             || (item 0%Z big (fst p) (snd p) <=? 1)%Z)
             (pixels sh))
        (fst lists)
  | Raise _ => true
  end.

Definition foreground (mask_shapes_overlap : ndarray Z) : ndarray bool :=
  tabulate (shape_of mask_shapes_overlap)
    (fun r c => (0 <? item 0%Z mask_shapes_overlap r c)%Z).

Definition anti_extensive (op : ndarray bool -> ndarray bool) : Prop :=
  forall (image : ndarray bool) (r c : Z),
    in_bounds (shape_of image) r c = true ->
    item false (op image) r c = true ->
    item false image r c = true.

(** ** A model of the scikit-image routines

    Set morphology on boolean images, after the library's documentation:
    [binary_dilation] treats pixels outside the image as unset and
    [binary_erosion] treats them as set; [opening] and [closing] are the
    grey-level operators, which read outside the image by reflection;
    [expand_labels] gives a background pixel the label of the nearest
    labelled pixel within the given Euclidean distance. *)

Module Skimage.

(** [disk(radius)]: a square array of side [2*radius+1], set within
    [radius] of its centre. *)
Definition disk (radius : Z) : ndarray bool :=
  let n := Z.to_nat (2 * radius + 1) in
  tabulate (n, n) (fun i j =>
    ((i - radius) * (i - radius) + (j - radius) * (j - radius) <=? radius * radius)%Z).

(** The set entries of a footprint, as offsets from its centre. *)
Definition offsets (fp : ndarray bool) : list (Z * Z) :=
  let sh := shape_of fp in
  let cr := Z.of_nat (fst sh / 2) in
  let cc := Z.of_nat (snd sh / 2) in
  flat_map (fun p => if item false fp (fst p) (snd p)
                     then [(fst p - cr, snd p - cc)%Z] else [])
    (pixels sh).

Definition binary_dilation (image : ndarray bool) (fp : ndarray bool) : ndarray bool :=
  let sh := shape_of image in
  let offs := offsets fp in
  tabulate sh (fun r c =>
    existsb (fun d => in_bounds sh (r - fst d) (c - snd d)
                      && item false image (r - fst d) (c - snd d)) offs).

Definition binary_erosion (image : ndarray bool) (fp : ndarray bool) : ndarray bool :=
  let sh := shape_of image in
  let offs := offsets fp in
  tabulate sh (fun r c =>
    forallb (fun d => negb (in_bounds sh (r + fst d) (c + snd d))
                      || item false image (r + fst d) (c + snd d)) offs).

(** Reflection of an index into [0, n): (d c b a | a b c d | d c b a). *)
Definition reflect (n : nat) (i : Z) : Z :=
  let m := (i mod (2 * Z.of_nat n))%Z in
  if (m <? Z.of_nat n)%Z then m else (2 * Z.of_nat n - 1 - m)%Z.

Definition item_reflect (image : ndarray bool) (r c : Z) : bool :=
  let sh := shape_of image in
  item false image (reflect (fst sh) r) (reflect (snd sh) c).

Definition erosion (image : ndarray bool) (fp : ndarray bool) : ndarray bool :=
  let offs := offsets fp in
  tabulate (shape_of image) (fun r c =>
    forallb (fun d => item_reflect image (r + fst d) (c + snd d)) offs).

Definition dilation (image : ndarray bool) (fp : ndarray bool) : ndarray bool :=
  let offs := offsets fp in
  tabulate (shape_of image) (fun r c =>
    existsb (fun d => item_reflect image (r - fst d) (c - snd d)) offs).

Definition opening (image : ndarray bool) (fp : ndarray bool) : ndarray bool :=
  dilation (erosion image fp) fp.

Definition closing (image : ndarray bool) (fp : ndarray bool) : ndarray bool :=
  erosion (dilation image fp) fp.

Definition sqdist (p q : Z * Z) : Z :=
  ((fst p - fst q) * (fst p - fst q) + (snd p - snd q) * (snd p - snd q))%Z.

(** The labelled pixel nearest to [p], the first one in row-major order
    among equally near ones. *)
Definition nearest_labelled (label_image : ndarray Z) (p : Z * Z) : option (Z * Z) :=
  fold_left
    (fun best q =>
       if (item 0%Z label_image (fst q) (snd q) =? 0)%Z then best
       else match best with
            | None => Some q
            | Some b => if (sqdist p q <? sqdist p b)%Z then Some q else best
            end)
    (pixels (shape_of label_image)) None.

Definition expand_labels (label_image : ndarray Z) (distance : Z) : ndarray Z :=
  tabulate (shape_of label_image) (fun r c =>
    match nearest_labelled label_image (r, c) with
    | Some q =>
        if (sqdist (r, c) q <=? distance * distance)%Z
        then item 0%Z label_image (fst q) (snd q)
        else 0%Z
    | None => 0%Z
    end).

(** [erosion] on an integer image: the minimum over the footprint, read by
    reflection outside the image. *)
Definition item_reflect_int (image : ndarray Z) (r c : Z) : Z :=
  let sh := shape_of image in
  item 0%Z image (reflect (fst sh) r) (reflect (snd sh) c).

Definition grey_erosion (image : ndarray Z) (fp : ndarray bool) : ndarray Z :=
  let offs := offsets fp in
  tabulate (shape_of image) (fun r c =>
    fold_left Z.min
      (map (fun d => item_reflect_int image (r + fst d) (c + snd d)) offs)
      (item_reflect_int image r c)).

Definition model : morphology :=
  mk_morphology disk binary_dilation binary_erosion opening closing expand_labels.

End Skimage.

(** A 5x5 mask: one region, labelled 1, around an unlabelled pixel. *)
Definition mask_with_hole : ndarray Z :=
  [ [1; 1; 1; 1; 1];
    [1; 1; 1; 1; 1];
    [1; 1; 0; 1; 1];
    [1; 1; 1; 1; 1];
    [1; 1; 1; 1; 1] ]%Z.

(** Two cells side by side, touching. *)
Definition two_cells : ndarray Z :=
  [ [1; 1; 2; 2];
    [1; 1; 2; 2];
    [1; 1; 2; 2] ]%Z.

Definition mask_filled : ndarray Z :=
  [ [1; 1; 1];
    [1; 1; 1];
    [1; 1; 1] ]%Z.

(** ** Angular Ring Partitioner: [divide_cell_outside_ring] *)

(** [np.array(np.nonzero(a)).T]: the coordinates of the non-zero pixels, in
    row-major order. *)
Definition nonzero (sh : shape) (a : ndarray Z) : list (Z * Z) :=
  filter (fun p => negb (item 0%Z a (fst p) (snd p) =? 0)%Z) (pixels sh).

(** [a - b] on integer images *)
Definition nd_sub (sh : shape) (a b : ndarray Z) : ndarray Z :=
  tabulate sh (fun r c => (item 0%Z a r c - item 0%Z b r c)%Z).

Definition Rsum (l : list R) : R := fold_right Rplus 0%R l.

(** [np.mean(l)]; the mean of no values is NaN. *)
Definition np_mean (l : list R) : sample :=
  match l with
  | [] => None
  | _ => Some (Rsum l / INR (length l))%R
  end.

(** [np.argmin(l)]: the first NaN if there is one, else the first minimum;
    an empty sequence has no argmin. *)
Fixpoint first_nan (l : list sample) (i : nat) : option nat :=
  match l with
  | [] => None
  | None :: _ => Some i
  | Some _ :: l' => first_nan l' (S i)
  end.

Fixpoint first_min (l : list R) (i : nat) (best : nat) (vbest : R) : nat :=
  match l with
  | [] => best
  | v :: l' =>
      if Rlt_dec v vbest then first_min l' (S i) i v else first_min l' (S i) best vbest
  end.

Definition np_argmin (l : list sample) : result nat :=
  match l with
  | [] => Raise ValueError
  | _ =>
      match first_nan l 0 with
      | Some i => Ok i
      | None =>
          match defined_values l with
          | [] => Raise ValueError
          | v :: vs => Ok (first_min vs 1 0 v)
          end
      end
  end.

(** A row of the data frame [centroid_array], with its columns ['x'],
    ['y'], ['set'] and ['centroid_angle']. *)
Record centroid : Type := mk_centroid {
  col_x : sample;
  col_y : sample;
  col_set : sample;
  centroid_angle : sample
}.

(** The order of [sort_values]: ascending, NaN last. *)
Definition angle_leb (a b : centroid) : bool :=
  match centroid_angle a, centroid_angle b with
  | Some u, Some v => if Rle_dec u v then true else false
  | Some _, None => true
  | None, Some _ => false
  | None, None => true
  end.

Fixpoint insert_sorted (a : centroid) (l : list centroid) : list centroid :=
  match l with
  | [] => [a]
  | b :: l' => if angle_leb a b then a :: l else b :: insert_sorted a l'
  end.

(** [centroid_array.sort_values('centroid_angle', ignore_index=True)]; the
    new index of a row is its position. *)
Definition sort_values (l : list centroid) : list centroid :=
  fold_right insert_sorted [] l.

(** [centroid_array.loc[centroid_array.set == v, :].index[0]] *)
Fixpoint index_of_set (l : list centroid) (v : R) (i : Z) : result Z :=
  match l with
  | [] => Raise IndexError
  | a :: l' =>
      match col_set a with
      | Some s => if Req_dec_T s v then Ok i else index_of_set l' v (i + 1)
      | None => index_of_set l' v (i + 1)
      end
  end.

(** [[f(x) for x in l]] for an [f] that may raise *)
Fixpoint map_result {A B : Type} (f : A -> result B) (l : list A) : result (list B) :=
  match l with
  | [] => Ok []
  | a :: l' =>
      b <- f a ;;
      bs <- map_result f l' ;;
      Ok (b :: bs)
  end.

Section RingPartitioner.

(** [skimage.morphology.erosion] and [disk], and
    [KMeans(n_clusters=k).fit(points).labels_], which holds one label per
    point when the fit succeeds. *)
Variable footprint_t : Type.
Variable disk_fp : Z -> footprint_t.
Variable grey_erosion : ndarray Z -> footprint_t -> ndarray Z.
Variable KMeans_fit_labels : nat -> list (Z * Z) -> result (list nat).

(** [points_array[labels == i, :]] *)
Definition select_rows {A : Type} (labels : list nat) (i : nat) (points : list A) : list A :=
  map snd (filter (fun lp => (fst lp =? i)%nat) (combine labels points)).

(** [np.mean(points, axis=0)] for rows of two columns *)
Definition mean_point (points : list (Z * Z)) : sample * sample :=
  (np_mean (map (fun p => IZR (fst p)) points),
   np_mean (map (fun p => IZR (snd p)) points)).

(** A row of [distance_matrix]: the Euclidean distances from a pixel to
    the centre points. *)
Definition distance_row (p : Z * Z) (centers : list (sample * sample)) : list sample :=
  map (fun ctr =>
         match fst ctr, snd ctr with
         | Some cr, Some cc =>
             Some (sqrt ((IZR (fst p) - cr) * (IZR (fst p) - cr)
                         + (IZR (snd p) - cc) * (IZR (snd p) - cc)))%R
         | _, _ => None
         end)
      centers.

(** The rows of [points_array] once the third column is added. *)
Definition row3 : Type := (Z * Z * Z)%type.

Definition row_coords (row : row3) : Z * Z := fst row.
Definition row_id (row : row3) : Z := snd row.

(** [np.mean(points_array[points_array[:,2]==x,:],axis=0)], with the angle
    column that is added next and its shift by [2*np.pi]. *)
Definition centroid_of (points_array : list row3) (cell_center : point) (x0 : Z) : centroid :=
  let rows := filter (fun row => (row_id row =? x0)%Z) points_array in
  let mx := np_mean (map (fun row => IZR (fst (row_coords row))) rows) in
  let my := np_mean (map (fun row => IZR (snd (row_coords row))) rows) in
  let mset := np_mean (map (fun row => IZR (row_id row)) rows) in
  let angle :=
    match mx, my with
    | Some vx, Some vy => Some (arctan2 (vx - snd cell_center) (vy - fst cell_center))
    | _, _ => None
    end in
  (* shift to start from the most left region *)
  let angle :=
    match angle with
    | Some a => if Rlt_dec a 0 then Some (a + 2 * PI)%R else Some a
    | None => None
    end in
  mk_centroid mx my mset angle.

(** The seed contour handed to K-means, and the ring band. *)
Definition seed_points (cell_image : ndarray Z) (ring_thickness : Z) : list (Z * Z) :=
  let sh := shape_of cell_image in
  let eroded_image_1 := grey_erosion cell_image (disk_fp ring_thickness) in
  let eroded_image_2 := grey_erosion eroded_image_1 (disk_fp 1) in
  nonzero sh (nd_sub sh eroded_image_1 eroded_image_2).

Definition ring_band (cell_image : ndarray Z) (ring_thickness : Z) : list (Z * Z) :=
  let sh := shape_of cell_image in
  nonzero sh (nd_sub sh cell_image (grey_erosion cell_image (disk_fp ring_thickness))).

Definition divide_cell_outside_ring (cell_image : ndarray Z) (cell_center : point)
    (ring_thickness : Z) (segment_number : nat) : result (list row3) :=
  let sh := shape_of cell_image in
  (* generate single pixel line inside the desired ring *)
  let eroded_image_1 := grey_erosion cell_image (disk_fp ring_thickness) in
  let eroded_image_2 := grey_erosion eroded_image_1 (disk_fp 1) in
  let seed_perim_image := nd_sub sh eroded_image_1 eroded_image_2 in
  (* calculate seeds for clustering *)
  let points_array := nonzero sh seed_perim_image in
  labels <- KMeans_fit_labels segment_number points_array ;;
  let center_point_array :=
    map (fun i => mean_point (select_rows labels i points_array)) (seq 0 segment_number) in
  (* calculate where points from the ring belong *)
  let eroded_image := grey_erosion cell_image (disk_fp ring_thickness) in
  let image_ring := nd_sub sh cell_image eroded_image in
  let points_array := nonzero sh image_ring in
  cluster_identity <-
    map_result (fun p => np_argmin (distance_row p center_point_array)) points_array ;;
  (* concatenate points position with their cluster identity *)
  let points_array :=
    map (fun pc => (fst pc, Z.of_nat (snd pc))) (combine points_array cluster_identity) in
  (* define centroid array *)
  let centroid_array :=
    map (fun x0 => centroid_of points_array cell_center (Z.of_nat x0)) (seq 0 segment_number) in
  (* sort *)
  let centroid_array := sort_values centroid_array in
  (* change identity based on the new order *)
  ids <- map_result (fun row => index_of_set centroid_array (IZR (row_id row)) 0) points_array ;;
  Ok (map (fun pi => (row_coords (fst pi), snd pi)) (combine points_array ids)).

End RingPartitioner.

(** ** Interior-point sampling: [get_internal_points] *)

(** What a call hands back with [return]. *)
Inductive returned (DataFrame : Type) : Type :=
| ReturnedStr (s : String.string)
| ReturnedFrame (df : DataFrame).

Arguments ReturnedStr {DataFrame} s.
Arguments ReturnedFrame {DataFrame} df.

Section InternalPoints.

(** The sampling of the scan lines and the assembly of the data frame, that
    is, the body of the function after its first statement. *)
Variable DataFrame : Type.
Variable sample_layers : list point -> Z -> result DataFrame.

Definition get_internal_points (vert : list point) (line_width : Z)
  : result (returned DataFrame) :=
  if (line_width <? 3)%Z
  then Ok (ReturnedStr "Error - line width has to be at least 3."%string)
  else
    df_all <- sample_layers vert line_width ;;
    Ok (ReturnedFrame df_all).

End InternalPoints.

(** ** Concrete inputs *)

(** Axis-aligned rectangles as polygons: the array of corner vertices and
    the number of its dimensions.  The rasterizer fills the pixels within
    the corners' bounding box. *)
Record rect_polygon : Type := mk_rect {
  rect_ndim : nat;
  rect_vertices : list (Z * Z)
}.

Definition rect_fill (sh : shape) (p : rect_polygon) : ndarray bool :=
  let rows := map fst (rect_vertices p) in
  let cols := map snd (rect_vertices p) in
  tabulate sh (fun r c =>
    existsb (fun v => (v <=? r)%Z) rows && existsb (fun v => (r <=? v)%Z) rows &&
    existsb (fun v => (v <=? c)%Z) cols && existsb (fun v => (c <=? v)%Z) cols).

Definition rect_coords (p : rect_polygon) (sh : shape) : list (Z * Z) :=
  filter (fun q => item false (rect_fill sh p) (fst q) (snd q)) (pixels sh).

(** The rectangles are arrays of shape (n, 2), or (n, 2, 1) when they are
    given a third axis: the second axis has two entries.  The stand-in for
    the rasterizer returns. *)
Definition rect_second_axis (p : rect_polygon) : nat := 2.

Definition rect_rasterizer (p : rect_polygon) (sh : shape) : result (list (Z * Z)) :=
  Ok (rect_coords p sh).

(** A stand-in for K-means: it fails, as the library does, when there are
    fewer points than clusters or no cluster is asked for, and otherwise
    hands out the labels in turn. *)
Definition round_robin_labels (n_clusters : nat) (points : list (Z * Z))
  : result (list nat) :=
  if ((n_clusters =? 0) || (length points <? n_clusters))%nat
  then Raise ValueError
  else Ok (map (fun i => i mod n_clusters)%nat (seq 0 (length points))).

(** A cell of 5x5 pixels in a 7x7 image. *)
Definition cell_5x5 : ndarray Z :=
  [ [0; 0; 0; 0; 0; 0; 0];
    [0; 1; 1; 1; 1; 1; 0];
    [0; 1; 1; 1; 1; 1; 0];
    [0; 1; 1; 1; 1; 1; 0];
    [0; 1; 1; 1; 1; 1; 0];
    [0; 1; 1; 1; 1; 1; 0];
    [0; 0; 0; 0; 0; 0; 0] ]%Z.

(** A 2x2 square drawn in two dimensions, and the same drawn in three. *)
Definition square_2d : rect_polygon := mk_rect 2 [(0, 0); (0, 1); (1, 1); (1, 0)]%Z.
Definition square_3d : rect_polygon := mk_rect 3 [(0, 0); (0, 1); (1, 1); (1, 0)]%Z.
Definition row_2d : rect_polygon := mk_rect 2 [(2, 0); (2, 2)]%Z.

(** ** Orientation Estimator, image mode: [find_fibers_orientation] *)

(** [np.linspace(start, stop, num, endpoint=False)] *)
Definition linspace_open (start stop : R) (num : nat) : list R :=
  map (fun k => (start + INR k * ((stop - start) / INR num))%R) (seq 0 num).

Section HoughOrientation.

(** [skimage.transform.hough_line] and [hough_line_peaks]; the first hands
    back the accumulator, the angles and the distances, the second the
    peaks' heights, angles and distances. *)
Variable Image : Type.
Variable Accumulator : Type.
Variable hough_line : Image -> list R -> Accumulator * list R * list R.
Variable hough_line_peaks :
  Accumulator -> list R -> list R -> list R * list R * list R.

Definition find_fibers_orientation (image_actin_mask_2D : Image) : sample :=
  let tested_angles := linspace_open (- PI / 2) (PI / 2) 360 in
  let '(h, theta, d) := hough_line image_actin_mask_2D tested_angles in
  let '(_, angle_array, dist_array) := hough_line_peaks h theta d in
  let dominant_flow := np_mean (firstn 4 angle_array) in
  dominant_flow.

End HoughOrientation.

(** ** Orientation Estimator, image mode: [find_fibers_orientation_v2] *)

(** A line segment of [probabilistic_hough_line]: two end points with
    integer coordinates (x, y). *)
Definition segment : Type := ((Z * Z) * (Z * Z))%type.

Definition to_point (p : Z * Z) : point := (IZR (fst p), IZR (snd p)).

Section SegmentOrientation.

(** [meijering(im, sigmas=range(1, 3), black_ridges=False)] and
    [probabilistic_hough_line(im, threshold=1, line_length=15, line_gap=0)] *)
Variable meijering : ndarray R -> ndarray R.
Variable probabilistic_hough_line : ndarray R -> list segment.

Definition find_fibers_orientation_v2 (actin_im : ndarray R) : list segment * list R :=
  let skeleton_im := meijering actin_im in
  (* skeleton_im[skeleton_im < 0.5] = 0 *)
  let skeleton_im :=
    tabulate (shape_of skeleton_im) (fun r c =>
      if Rlt_dec (item 0%R skeleton_im r c) (1 / 2) then 0%R
      else item 0%R skeleton_im r c) in
  (* find straight lines in the image *)
  let lines := probabilistic_hough_line skeleton_im in
  (* calculate orientation of the lines *)
  let rad_list :=
    fold_left
      (fun rad_list line =>
         let p0 := fst line in
         let p1 := snd line in
         let actin_rad := calculate_orientation (to_point p1) (to_point p0) in
         rad_list ++ [actin_rad])
      lines [] in
  (lines, rad_list).

End SegmentOrientation.

(** ** Scan-line coordinates: [sk_line_profile_coordinates] *)

(** [np.linspace(start, stop, num)], the end point included: [num] evenly
    spaced values from [start]; with more than one value the last is set to
    [stop], a single value is [start]. *)
Definition linspace (start stop : R) (num : nat) : list R :=
  let div := (num - 1)%nat in
  let delta := (stop - start)%R in
  let y :=
    map (fun k =>
           if (0 <? div)%nat then (INR k * (delta / INR div) + start)%R
           else (INR k * delta + start)%R)
        (seq 0 num) in
  if (1 <? num)%nat then removelast y ++ [stop] else y.

(** [np.hypot] *)
Definition hypot (a b : R) : R := sqrt (a * a + b * b).

(** The two planes of the array of shape (2, N, C) that is returned: the
    rows and the columns of the sample points. *)
Definition sk_line_profile_coordinates (src dst : point) (linewidth : nat)
  : list (list R) * list (list R) :=
  let src_row := fst src in
  let src_col := snd src in
  let dst_row := fst dst in
  let dst_col := snd dst in
  let d_row := (dst_row - src_row)%R in
  let d_col := (dst_col - src_col)%R in
  let theta := arctan2 d_row d_col in
  let length := Z.to_nat (Zceil (hypot d_row d_col + 1)) in
  (* we add one above because we include the last point in the profile *)
  let line_col := linspace src_col dst_col length in
  let line_row := linspace src_row dst_row length in
  (* we subtract 1 from linewidth to change from pixel-counting to point
     distances *)
  let col_width := ((INR linewidth - 1) * sin (- theta) / 2)%R in
  let row_width := ((INR linewidth - 1) * cos theta / 2)%R in
  let perp_rows :=
    map (fun row_i => linspace (row_i - row_width) (row_i + row_width) linewidth)
        line_row in
  let perp_cols :=
    map (fun col_i => linspace (col_i - col_width) (col_i + col_width) linewidth)
        line_col in
  (perp_rows, perp_cols).

(** ** Interior-point sampling: the table of [get_internal_points] *)

(** The coordinates that [sk_line_profile_coordinates] returns are float64
    values.  They are computed with rounding and are not the exact reals of
    the formulas above, and the table is built from the values as computed:
    a float is read as the real number it stands for, and [.astype(int)]
    drops the fraction of that float. *)
Definition astype_int (x : R) : Z :=
  if Rle_dec 0 x then Zfloor x else Zceil x.

(** A row of the data frame [df_all], with its columns ['r'], ['c'],
    ['uniqe'], ['layer'] and ['ord']. *)
Record frame_row : Type := mk_frame_row {
  col_r : Z;
  col_c : Z;
  col_uniqe : bool;
  col_layer : Z;
  col_ord : nat
}.

Definition coords_eqb (p q : Z * Z) : bool :=
  ((fst p =? fst q)%Z && (snd p =? snd q)%Z)%bool.

(** [np.unique(layer, axis=0, return_index=True)[1]]: for every distinct
    row the index of its first occurrence.  The indices are used as a set
    of labels, so their order is left out. *)
Definition unique_index (layer : list (Z * Z)) : list nat :=
  filter (fun n => negb (existsb (coords_eqb (nth n layer (0, 0)%Z)) (firstn n layer)))
         (seq 0 (length layer)).

Section InternalPointsFrame.

(** [sk_line_profile_coordinates(p0, p1, linewidth=line_width)] as it is
    computed in float64 arithmetic: the two planes of the array that is
    returned, with the floats it holds. *)
Variable computed_profile : point -> point -> nat -> list (list R) * list (list R).

(** The scan lines of all edges, one after the other: the loop that fills
    [coord_line_x] and [coord_line_y]. *)
Definition edge_profiles (vert : list point) (line_width : nat)
  : list (list R) * list (list R) :=
  fold_left
    (fun coord_line i =>
       let p0 := nth i vert (0, 0)%R in
       let p1 :=
         if (i =? length vert - 1)%nat
         then nth 0 vert (0, 0)%R
         else nth (i + 1) vert (0, 0)%R in
       let signal_segment := computed_profile p0 p1 line_width in
       (fst coord_line ++ fst signal_segment, snd coord_line ++ snd signal_segment))
    (seq 0 (length vert)) ([], []).

(** [t[i,...]] for [t = np.array([coord_line_x,coord_line_y]).T.astype(int)].
    With no scan line at all [t] has the shape (0, 2) and no layer. *)
Definition layer_at (coord_line_x coord_line_y : list (list R)) (i : nat)
  : result (list (Z * Z)) :=
  match coord_line_x with
  | [] => Raise IndexError
  | first :: _ =>
      if (i <? length first)%nat
      then Ok (map (fun xy => (astype_int (nth i (fst xy) 0%R),
                               astype_int (nth i (snd xy) 0%R)))
                   (combine coord_line_x coord_line_y))
      else Raise IndexError
  end.

(** The data frame of one layer. *)
Definition layer_frame (layer : list (Z * Z)) (l_unique : list nat) (number : Z)
  : list frame_row :=
  map (fun n =>
         let rc := nth n layer (0, 0)%Z in
         mk_frame_row (fst rc) (snd rc) (existsb (Nat.eqb n) l_unique) number n)
      (seq 0 (length layer)).

(** The part of [get_internal_points] after the guard; it is reached with
    [line_width] at least 3. *)
Definition internal_points_frame (vert : list point) (line_width : Z)
  : result (list frame_row) :=
  let coord_line := edge_profiles vert (Z.to_nat line_width) in
  let coord_line_x := fst coord_line in
  let coord_line_y := snd coord_line in
  (* layers are organized from outside to inside *)
  let start_including := (line_width / 2)%Z in
  df_list <-
    map_result
      (fun i =>
         layer <- layer_at coord_line_x coord_line_y i ;;
         let l_unique := unique_index layer in
         Ok (layer_frame layer l_unique (Z.of_nat i - start_including)))
      (seq (Z.to_nat start_including) (Z.to_nat line_width - Z.to_nat start_including)) ;;
  Ok (concat df_list).

End InternalPointsFrame.

(** ** Edge picture: [create_edge_visual] *)

(** An index along an axis of length [n]: a negative index counts from the
    end, an index outside [-n, n) is an error. *)
Definition wrap_index (n : nat) (i : Z) : option Z :=
  if ((0 <=? i) && (i <? Z.of_nat n))%Z then Some i
  else if ((- Z.of_nat n <=? i) && (i <? 0))%Z then Some (i + Z.of_nat n)%Z
  else None.

Definition wrap_point (sh : shape) (p : Z * Z) : option (Z * Z) :=
  match wrap_index (fst sh) (fst p), wrap_index (snd sh) (snd p) with
  | Some r, Some c => Some (r, c)
  | _, _ => None
  end.

(** [a[rr, cc] = o] for the index arrays [rr], [cc] given as pairs. *)
Definition setitem_points (sh : shape) (a : ndarray R) (points : list (Z * Z)) (o : R)
  : result (ndarray R) :=
  targets <-
    map_result (fun p => match wrap_point sh p with
                         | Some q => Ok q
                         | None => Raise IndexError
                         end) points ;;
  Ok (tabulate sh (fun r c =>
        if existsb (coords_eqb (r, c)) targets then o else item 0%R a r c)).

Section EdgeVisual.

(** [skimage.draw.line], its two index arrays given as pairs, and
    [skimage.morphology.dilation] and [disk]. *)
Variable footprint_t : Type.
Variable disk_fp : Z -> footprint_t.
Variable dilation : ndarray R -> footprint_t -> ndarray R.
Variable draw_line : Z -> Z -> Z -> Z -> list (Z * Z).

(** The pixels of edge [i]. *)
Definition edge_line (vertices : list (Z * Z)) (i : nat) : list (Z * Z) :=
  let p0 := nth i vertices (0, 0)%Z in
  let p1 :=
    if (i =? length vertices - 1)%nat
    then nth 0 vertices (0, 0)%Z
    else nth (i + 1) vertices (0, 0)%Z in
  draw_line (fst p0) (snd p0) (fst p1) (snd p1).

Definition create_edge_visual (im_size : shape) (vertices : list (Z * Z))
    (orientations : list R) (line_width : Z) : result (ndarray R) :=
  (* prepare image of edge orientation vs actin *)
  let edge_image := tabulate im_size (fun _ _ => 0%R) in
  edge_image <-
    fold_left
      (fun acc io =>
         edge_image <- acc ;;
         let i := fst io in
         let o := snd io in
         setitem_points im_size edge_image (edge_line vertices i) o)
      (combine (seq 0 (length vertices)) orientations)
      (Ok edge_image) ;;
  let edge_image := dilation edge_image (disk_fp line_width) in
  Ok edge_image.

End EdgeVisual.

(** A stand-in for the line drawing that marks the two end points only. *)
Definition end_points_line (r0 c0 r1 c1 : Z) : list (Z * Z) := [(r0, c0); (r1, c1)].

(** ** Three-dimensional segmentation: [segment_actin_3D] *)

Section ActinSegmentation.

(** The routines of the Allen Cell Segmenter, on three-dimensional images:
    [intensity_normalization(im, scaling_param=p)],
    [edge_preserving_smoothing_3d(im)] and [filament_3d_wrapper(im, p)]. *)
Variable Volume : Type.
Variable intensity_normalization : Volume -> list R -> Volume.
Variable edge_preserving_smoothing_3d : Volume -> Volume.
Variable filament_3d_wrapper : Volume -> list (list R) -> Volume.

Definition segment_actin_3D (image_actin : Volume) : Volume :=
  (* PARAMETERS for this step *)
  let intensity_scaling_param := [0%R] in
  let f3_param := [[1; 1 / 100]]%R in
  (* intensity normalization *)
  let struct_img := intensity_normalization image_actin intensity_scaling_param in
  (* smoothing with edge preserving smoothing *)
  let structure_img_smooth := edge_preserving_smoothing_3d struct_img in
  (* segmentation *)
  let image_actin_mask := filament_3d_wrapper structure_img_smooth f3_param in
  image_actin_mask.

End ActinSegmentation.

(** ** Perimeter signal: [signal_from_vertices] *)

Section PerimeterSignal.

(** [skimage.measure.profile_line(im, p0, p1, line_width, **kwargs)], the
    keyword arguments being those of the call. *)
Variable profile_line : ndarray R -> point -> point -> Z -> list sample.

Definition signal_from_vertices (vert : list point) (signal_im : ndarray R)
    (line_width : Z) : list sample :=
  fold_left
    (fun signal_line i =>
       let p0 := nth i vert (0, 0)%R in
       let p1 :=
         if (i =? length vert - 1)%nat
         then nth 0 vert (0, 0)%R
         else nth (i + 1) vert (0, 0)%R in
       let signal_segment := profile_line signal_im p0 p1 line_width in
       signal_line ++ signal_segment)
    (seq 0 (length vert)) [].

End PerimeterSignal.

(** ** The operations on array objects

    What a caller sees of its arrays after a call depends on which array
    objects the function writes into.  Here every operation of the module is
    embedded over a memory of array objects.  An argument that is an array
    is a reference.  [read] fetches the content of an object; [write]
    replaces it, which is what an assignment [a[...] = v] or
    [df[column] = v] does to the object [a] or [df]; [alloc] makes a new
    object, which is what [np.zeros], [.copy()], [np.concatenate],
    [pd.DataFrame], [pd.concat] and an arithmetic expression on arrays
    return.  The library routines are functions of the contents of their
    arguments: they do not write into them.  An array that a library routine
    returns is a new object where the code writes into it or returns it; the
    other intermediate arrays, which are only read, are kept as values. *)

(** An array of any number of dimensions: its shape and its entries in
    row-major order.  The polygons, the volumes and the image handed to the
    Hough transform are such arrays. *)
Record nd_array : Type := mk_nd_array {
  nd_shape : list nat;
  nd_data : list R
}.

(** [len(a.shape)] and [a.shape[1]] *)
Definition nd_ndim (a : nd_array) : nat := length (nd_shape a).
Definition nd_second_axis (a : nd_array) : nat := nth 1 (nd_shape a) 0%nat.

(** The kinds of array objects the module handles, and what an object of
    each kind holds. *)
Inductive kind : Type :=
| KArray
| KLabels
| KFloatImage
| KVertices
| KPixels
| KAngles
| KPoint
| KProfile
| KRows
| KCentroids
| KFrame.

Definition carrier (k : kind) : Type :=
  match k with
  | KArray => nd_array
  | KLabels => ndarray Z
  | KFloatImage => ndarray R
  | KVertices => list point
  | KPixels => list (Z * Z)
  | KAngles => list R
  | KPoint => point
  | KProfile => (list (list R) * list (list R))%type
  | KRows => list row3
  | KCentroids => list centroid
  | KFrame => list frame_row
  end.

Definition kind_eq_dec (k k' : kind) : {k = k'} + {k <> k'}.
Proof. decide equality. Defined.

(** The memory: a heap of objects for every kind. *)
Definition memory : Type := forall k : kind, heap (carrier k).

Definition update (m : memory) (k : kind) (h : heap (carrier k)) : memory :=
  fun k' =>
    match kind_eq_dec k k' with
    | left e => eq_rect k (fun k0 => heap (carrier k0)) h k' e
    | right _ => m k'
    end.

(** A computation on the memory that returns or raises. *)
Definition action (A : Type) : Type := memory -> result (A * memory).

Definition ret {A : Type} (a : A) : action A := fun m => Ok (a, m).

Definition abind {A B : Type} (a : action A) (k : A -> action B) : action B :=
  fun m =>
    match a m with
    | Ok (x, m') => k x m'
    | Raise e => Raise e
    end.

Notation "x <~ a ;; k" := (abind a (fun x => k))
  (at level 61, a at next level, right associativity).

Notation "a ;; k" := (abind a (fun _ => k))
  (at level 61, right associativity).

(** A step that does not touch the memory. *)
Definition lift {A : Type} (r : result A) : action A :=
  fun m =>
    match r with
    | Ok a => Ok (a, m)
    | Raise e => Raise e
    end.

Definition alloc (k : kind) (v : carrier k) : action ref :=
  fun m => let (l, h) := heap_alloc (m k) v in Ok (l, update m k h).

Definition read (k : kind) (l : ref) : action (carrier k) :=
  fun m => Ok (store (m k) l, m).

Definition write (k : kind) (l : ref) (v : carrier k) : action unit :=
  fun m => Ok (tt, update m k (heap_write (m k) l v)).

(** [for x in l: f(x)], the results collected. *)
Fixpoint for_each {A B : Type} (f : A -> action B) (l : list A) : action (list B) :=
  match l with
  | [] => ret []
  | a :: l' =>
      b <~ f a ;;
      bs <~ for_each f l' ;;
      ret (b :: bs)
  end.

(** [centroid_array] as it is built: the means of the three columns, then
    the column ['centroid_angle'], then the shift of its negative entries.
    Until the column is assigned it holds no value. *)
Definition centroid_means (points_array : list row3) (x0 : Z) : centroid :=
  let rows := filter (fun row => (row_id row =? x0)%Z) points_array in
  mk_centroid
    (np_mean (map (fun row => IZR (fst (row_coords row))) rows))
    (np_mean (map (fun row => IZR (snd (row_coords row))) rows))
    (np_mean (map (fun row => IZR (row_id row)) rows))
    None.

(** [np.arctan2(x-cell_center[1], y-cell_center[0])] for a row of the frame *)
Definition with_angle (cell_center : point) (row : centroid) : centroid :=
  mk_centroid (col_x row) (col_y row) (col_set row)
    match col_x row, col_y row with
    | Some vx, Some vy => Some (arctan2 (vx - snd cell_center) (vy - fst cell_center))
    | _, _ => None
    end.

(** [.loc[centroid_angle<0, 'centroid_angle'] = ... + 2*np.pi] for a row *)
Definition shift_angle (row : centroid) : centroid :=
  mk_centroid (col_x row) (col_y row) (col_set row)
    match centroid_angle row with
    | Some a => if Rlt_dec a 0 then Some (a + 2 * PI)%R else Some a
    | None => None
    end.

(** [pd.DataFrame(layer)]: the two columns of coordinates; the columns that
    are added next hold a default until they are assigned. *)
Definition frame_of_layer (layer : list (Z * Z)) : list frame_row :=
  map (fun rc => mk_frame_row (fst rc) (snd rc) false 0%Z 0%nat) layer.

(** [df['unique'] = False], [df['layer'] = number], [df['ord'] = df.index]
    and [df.loc[l_unique, 'unique'] = True]; the index of a row is its
    position. *)
Definition assign_unique (v : bool) (df : list frame_row) : list frame_row :=
  map (fun row => mk_frame_row (col_r row) (col_c row) v (col_layer row) (col_ord row)) df.

Definition assign_layer (number : Z) (df : list frame_row) : list frame_row :=
  map (fun row => mk_frame_row (col_r row) (col_c row) (col_uniqe row) number (col_ord row)) df.

Definition assign_ord (df : list frame_row) : list frame_row :=
  map (fun nrow =>
         let row := snd nrow in
         mk_frame_row (col_r row) (col_c row) (col_uniqe row) (col_layer row) (fst nrow))
      (combine (seq 0 (length df)) df).

Definition mark_unique (l_unique : list nat) (df : list frame_row) : list frame_row :=
  map (fun nrow =>
         let row := snd nrow in
         if existsb (Nat.eqb (fst nrow)) l_unique
         then mk_frame_row (col_r row) (col_c row) true (col_layer row) (col_ord row)
         else row)
      (combine (seq 0 (length df)) df).

Section ArrayObjects.

(** *** [create_mask_from_shapes]

    [vertices_polygons] is a list of arrays.  [mask] is the new array of
    zeros; both assignments of an iteration write into it.  [mask_single]
    and [mask_coord] are the locals of the loop.  [mask_shapes_overlap] is
    another name of the object [mask]; [mask_shapes] is a new object, the
    copy, and the last assignment writes into it. *)
Variable polygon2mask : shape -> nd_array -> ndarray bool.
Variable polygon : nd_array -> shape -> result (list (Z * Z)).

Definition loop_body_obj (im_shape : shape) (mask : ref) (i : Z) (poly : ref)
    (st : option (list (Z * Z)) * option (ndarray bool))
  : action (option (list (Z * Z)) * option (ndarray bool)) :=
  p <~ read KArray poly ;;
  st <~ lift
    (if (2 <? nd_ndim p)%nat
     then
       if (nd_second_axis p <? 3)%nat then Raise IndexError
       else
         mask_coord <- polygon p im_shape ;;
         Ok (Some mask_coord, snd st)
     else Ok (fst st, Some (polygon2mask im_shape p))) ;;
  match snd st with
  | None => lift (Raise UnboundLocalError)
  | Some ms =>
      (* mask[mask_single] = mask[mask_single] + (i+1) *)
      m <~ read KLabels mask ;;
      write KLabels mask (update_where im_shape ms (fun v => uint8 (v + (i + 1))) m) ;;
      (* mask[mask > (i+1)] = 255 *)
      m <~ read KLabels mask ;;
      write KLabels mask
        (update_where im_shape (gt_scalar im_shape m (i + 1)) (fun _ => 255%Z) m) ;;
      ret st
  end.

Fixpoint loop_obj (im_shape : shape) (mask : ref) (i : Z) (polys : list ref)
    (st : option (list (Z * Z)) * option (ndarray bool))
  : action (option (list (Z * Z)) * option (ndarray bool)) :=
  match polys with
  | [] => ret st
  | poly :: rest =>
      st' <~ loop_body_obj im_shape mask i poly st ;;
      loop_obj im_shape mask (i + 1) rest st'
  end.

Definition create_mask_from_shapes_obj (vertices_polygons : list ref) (im_shape : shape)
  : action (ref * ref) :=
  mask <~ alloc KLabels (zeros im_shape) ;;
  loop_obj im_shape mask 0 vertices_polygons (None, None) ;;
  let mask_shapes_overlap := mask in
  (* shapes without overlapping regions *)
  m <~ read KLabels mask_shapes_overlap ;;
  mask_shapes <~ alloc KLabels (copy m) ;;
  m <~ read KLabels mask_shapes ;;
  write KLabels mask_shapes
    (update_where im_shape (eq_scalar im_shape m 255) (fun _ => 0%Z) m) ;;
  ret (mask_shapes_overlap, mask_shapes).

(** *** [segment_actin_3D]: the volume is handed to the library routines,
    the segmented volume is returned. *)
Variable intensity_normalization : nd_array -> list R -> nd_array.
Variable edge_preserving_smoothing_3d : nd_array -> nd_array.
Variable filament_3d_wrapper : nd_array -> list (list R) -> nd_array.

Definition segment_actin_3D_obj (image_actin : ref) : action ref :=
  im <~ read KArray image_actin ;;
  alloc KArray
    (segment_actin_3D intensity_normalization edge_preserving_smoothing_3d
       filament_3d_wrapper im).

(** *** [find_fibers_orientation]: the image is handed to the Hough
    transform; a number is returned. *)
Variable Accumulator : Type.
Variable hough_line : nd_array -> list R -> Accumulator * list R * list R.
Variable hough_line_peaks :
  Accumulator -> list R -> list R -> list R * list R * list R.

Definition find_fibers_orientation_obj (image_actin_mask_2D : ref) : action sample :=
  im <~ read KArray image_actin_mask_2D ;;
  ret (find_fibers_orientation hough_line hough_line_peaks im).

(** *** [calculate_orientation]: the two points are indexed; a number is
    returned. *)
Definition calculate_orientation_obj (point1 point2 : ref) : action R :=
  p1 <~ read KPoint point1 ;;
  p2 <~ read KPoint point2 ;;
  ret (calculate_orientation p1 p2).

(** *** [find_fibers_orientation_v2]: [skeleton_im] is the array that
    [meijering] returns, and [skeleton_im[skeleton_im < 0.5] = 0] writes
    into it; two lists are returned. *)
Variable meijering : ndarray R -> ndarray R.
Variable probabilistic_hough_line : ndarray R -> list segment.

Definition find_fibers_orientation_v2_obj (actin_im : ref)
  : action (list segment * list R) :=
  im <~ read KFloatImage actin_im ;;
  skeleton_im <~ alloc KFloatImage (meijering im) ;;
  (* skeleton_im[skeleton_im < 0.5] = 0 *)
  s <~ read KFloatImage skeleton_im ;;
  write KFloatImage skeleton_im
    (tabulate (shape_of s) (fun r c =>
       if Rlt_dec (item 0%R s r c) (1 / 2) then 0%R else item 0%R s r c)) ;;
  (* find straight lines in the image *)
  s <~ read KFloatImage skeleton_im ;;
  let lines := probabilistic_hough_line s in
  (* calculate orientation of the lines *)
  let rad_list :=
    fold_left
      (fun rad_list line =>
         let p0 := fst line in
         let p1 := snd line in
         let actin_rad := calculate_orientation (to_point p1) (to_point p0) in
         rad_list ++ [actin_rad])
      lines [] in
  ret (lines, rad_list).

(** *** [orientations_from_vertices]: the vertices are read; a list is
    returned. *)
Definition orientations_from_vertices_obj (vert : ref) : action (list R) :=
  v <~ read KVertices vert ;;
  ret (orientations_from_vertices v).

(** *** [signal_from_vertices]: the vertices are read and the image is
    handed to [profile_line]; a list is returned. *)
Variable profile_line : ndarray R -> point -> point -> Z -> list sample.

Definition signal_from_vertices_obj (vert signal_im : ref) (line_width : Z)
  : action (list sample) :=
  v <~ read KVertices vert ;;
  im <~ read KFloatImage signal_im ;;
  ret (signal_from_vertices profile_line v im line_width).

(** *** [divide_cell_outside_ring]

    [points_array] is, in the end, the new array that [np.concatenate]
    returns, and the last assignment writes its third column.
    [centroid_array] is a new data frame; the assignment of its column
    ['centroid_angle'] and the shift write into it, and [sort_values]
    returns a new frame. *)
Variable footprint_t : Type.
Variable disk_fp : Z -> footprint_t.
Variable grey_erosion : ndarray Z -> footprint_t -> ndarray Z.
Variable KMeans_fit_labels : nat -> list (Z * Z) -> result (list nat).

Definition divide_cell_outside_ring_obj (cell_image cell_center : ref)
    (ring_thickness : Z) (segment_number : nat) : action ref :=
  im <~ read KLabels cell_image ;;
  let sh := shape_of im in
  (* generate single pixel line inside the desired ring *)
  let eroded_image_1 := grey_erosion im (disk_fp ring_thickness) in
  let eroded_image_2 := grey_erosion eroded_image_1 (disk_fp 1) in
  let seed_perim_image := nd_sub sh eroded_image_1 eroded_image_2 in
  (* calculate seeds for clustering *)
  let points_array := nonzero sh seed_perim_image in
  labels <~ lift (KMeans_fit_labels segment_number points_array) ;;
  let center_point_array :=
    map (fun i => mean_point (select_rows labels i points_array)) (seq 0 segment_number) in
  (* calculate where points from the ring belong *)
  im <~ read KLabels cell_image ;;
  let eroded_image := grey_erosion im (disk_fp ring_thickness) in
  let image_ring := nd_sub sh im eroded_image in
  let points_array := nonzero sh image_ring in
  cluster_identity <~
    lift (map_result (fun p => np_argmin (distance_row p center_point_array)) points_array) ;;
  (* concatenate points position with their cluster identity *)
  points_array <~
    alloc KRows
      (map (fun pc => (fst pc, Z.of_nat (snd pc))) (combine points_array cluster_identity)) ;;
  (* define centroid array *)
  rows <~ read KRows points_array ;;
  centroid_array <~
    alloc KCentroids
      (map (fun x0 => centroid_means rows (Z.of_nat x0)) (seq 0 segment_number)) ;;
  c <~ read KPoint cell_center ;;
  t <~ read KCentroids centroid_array ;;
  write KCentroids centroid_array (map (with_angle c) t) ;;
  (* shift to start from the most left region *)
  t <~ read KCentroids centroid_array ;;
  write KCentroids centroid_array (map shift_angle t) ;;
  (* sort *)
  t <~ read KCentroids centroid_array ;;
  centroid_array <~ alloc KCentroids (sort_values t) ;;
  (* change identity based on the new order *)
  t <~ read KCentroids centroid_array ;;
  rows <~ read KRows points_array ;;
  ids <~ lift (map_result (fun row => index_of_set t (IZR (row_id row)) 0) rows) ;;
  write KRows points_array
    (map (fun pi => (row_coords (fst pi), snd pi)) (combine rows ids)) ;;
  ret points_array.

(** *** [fill_gaps_between_cells]: [mask_shapes] is a new object, the copy,
    and the assignment [mask_shapes[mask_shapes == 255] = 0] writes into it;
    the result is a new object. *)
Variable M : morphology.

Definition fill_gaps_between_cells_obj (mask_shapes_overlap : ref) : action ref :=
  a <~ read KLabels mask_shapes_overlap ;;
  let sh := shape_of a in
  mask_shapes <~ alloc KLabels (copy a) ;;
  s <~ read KLabels mask_shapes ;;
  write KLabels mask_shapes (update_where sh (eq_scalar sh s 255) (fun _ => 0%Z) s) ;;
  a <~ read KLabels mask_shapes_overlap ;;
  s <~ read KLabels mask_shapes ;;
  im_divided <~ lift (divide_contested M sh a s) ;;
  alloc KLabels im_divided.

(** *** [calculate_perpendicular_index]: two numbers in, a number out. *)
Definition calculate_perpendicular_index_obj (alpha beta : R) : action R :=
  ret (calculate_perpendicular_index alpha beta).

(** *** [sk_line_profile_coordinates]: the two points are read; the array
    that [np.stack] returns is new. *)
Definition sk_line_profile_coordinates_obj (src dst : ref) (linewidth : nat)
  : action ref :=
  s <~ read KPoint src ;;
  d <~ read KPoint dst ;;
  alloc KProfile (sk_line_profile_coordinates s d linewidth).

(** *** [get_internal_points]

    The vertices are read.  Every layer has its data frame [df], a new
    object, and the assignments of its columns write into it; [df_all] is
    the new frame that [pd.concat] returns, and the assignment of its column
    names writes into it.  The rows of a frame carry the final names of the
    columns throughout, so that this last write leaves the rows as they
    are. *)
Variable computed_profile : point -> point -> nat -> list (list R) * list (list R).

(** One pass of the loop over the layers. *)
Definition layer_body_obj (coord_line_x coord_line_y : list (list R))
    (start_including : Z) (i : nat) : action ref :=
  layer <~ lift (layer_at coord_line_x coord_line_y i) ;;
  let l_unique := unique_index layer in
  df <~ alloc KFrame (frame_of_layer layer) ;;
  (* df['unique'] = False *)
  d <~ read KFrame df ;;
  write KFrame df (assign_unique false d) ;;
  (* df['layer'] = i - start_including *)
  d <~ read KFrame df ;;
  write KFrame df (assign_layer (Z.of_nat i - start_including) d) ;;
  (* df['ord'] = df.index *)
  d <~ read KFrame df ;;
  write KFrame df (assign_ord d) ;;
  (* df.loc[l_unique[1],'unique'] = True *)
  d <~ read KFrame df ;;
  write KFrame df (mark_unique l_unique d) ;;
  ret df.

Definition get_internal_points_obj (vert : ref) (line_width : Z)
  : action (returned ref) :=
  if (line_width <? 3)%Z
  then ret (ReturnedStr "Error - line width has to be at least 3."%string)
  else
    v <~ read KVertices vert ;;
    let coord_line := edge_profiles computed_profile v (Z.to_nat line_width) in
    let coord_line_x := fst coord_line in
    let coord_line_y := snd coord_line in
    (* layers are organized from outside to inside *)
    let start_including := (line_width / 2)%Z in
    df_list <~
      for_each (layer_body_obj coord_line_x coord_line_y start_including)
        (seq (Z.to_nat start_including) (Z.to_nat line_width - Z.to_nat start_including)) ;;
    (* pd.concat(df_list, ignore_index = True) *)
    frames <~ for_each (read KFrame) df_list ;;
    df_all <~ alloc KFrame (concat frames) ;;
    (* df_all.columns = ['r','c','uniqe','layer','ord'] *)
    d <~ read KFrame df_all ;;
    write KFrame df_all d ;;
    ret (ReturnedFrame df_all).

(** *** [create_edge_visual]: [edge_image] is the new array of zeros, and
    the assignment of every iteration writes into it; the array that
    [dilation] returns is returned. *)
Variable dilation : ndarray R -> footprint_t -> ndarray R.
Variable draw_line : Z -> Z -> Z -> Z -> list (Z * Z).

(** One pass of the loop over the edges. *)
Definition edge_body_obj (im_size : shape) (vertices edge_image : ref) (io : nat * R)
  : action unit :=
  let i := fst io in
  let o := snd io in
  vs <~ read KPixels vertices ;;
  e <~ read KFloatImage edge_image ;;
  (* edge_image[rr,cc] = o *)
  e' <~ lift (setitem_points im_size e (edge_line draw_line vs i) o) ;;
  write KFloatImage edge_image e'.

Definition create_edge_visual_obj (im_size : shape) (vertices orientations : ref)
    (line_width : Z) : action ref :=
  (* prepare image of edge orientation vs actin *)
  edge_image <~ alloc KFloatImage (tabulate im_size (fun _ _ => 0%R)) ;;
  vs <~ read KPixels vertices ;;
  os <~ read KAngles orientations ;;
  for_each (edge_body_obj im_size vertices edge_image)
    (combine (seq 0 (length vs)) os) ;;
  e <~ read KFloatImage edge_image ;;
  alloc KFloatImage (dilation e (disk_fp line_width)).

End ArrayObjects.

(** A memory with one object of every kind, at reference 0. *)
Definition memory_of (init : forall k : kind, carrier k) : memory :=
  fun k => heap_of (init k).

(** Empty arrays of every kind, but for the label image [labels]. *)
Definition arrays_with (labels : ndarray Z) (k : kind) : carrier k :=
  match k with
  | KArray => mk_nd_array [] []
  | KLabels => labels
  | KFloatImage => []
  | KVertices => []
  | KPixels => []
  | KAngles => []
  | KPoint => (0, 0)%R
  | KProfile => ([], [])
  | KRows => []
  | KCentroids => []
  | KFrame => []
  end.

(** A stand-in for [polygon2mask] that fills the whole image. *)
Definition whole_image (sh : shape) (p : nd_array) : ndarray bool :=
  tabulate sh (fun _ _ => true).

(** ** Auxiliary notions of the statements and proofs *)

(** The vertex after vertex [i]; vertex 0 after the last. *)
Definition next_vertex (vert : list point) (i : nat) : point :=
  if (i =? length vert - 1)%nat then nth 0 vert (0, 0)%R else nth (i + 1) vert (0, 0)%R.

(** The scan line of edge [i] as computed, the number of points the exact
    scan line has, and the number of points of the edges before it. *)
Definition edge_profile (computed_profile : point -> point -> nat ->
                                            list (list R) * list (list R))
    (vert : list point) (line_width i : nat) : list (list R) * list (list R) :=
  computed_profile (nth i vert (0, 0)%R) (next_vertex vert i) line_width.

Definition edge_points (vert : list point) (i : nat) : nat :=
  let p0 := nth i vert (0, 0)%R in
  let p1 := next_vertex vert i in
  Z.to_nat (Zceil (hypot (fst p1 - fst p0) (snd p1 - snd p0) + 1)).

Definition edge_offset (vert : list point) (i : nat) : nat :=
  list_sum (map (edge_points vert) (seq 0 i)).

(** What the table needs of the computed scan lines: at least one sample
    point, as many rows as columns of coordinates, and [line_width] entries
    for every sample point. *)
Definition well_shaped (computed_profile : point -> point -> nat ->
                                           list (list R) * list (list R))
    (line_width : nat) : Prop :=
  forall src dst : point,
    fst (computed_profile src dst line_width) <> [] /\
    length (fst (computed_profile src dst line_width))
    = length (snd (computed_profile src dst line_width)) /\
    Forall (fun row => length row = line_width) (fst (computed_profile src dst line_width)) /\
    Forall (fun row => length row = line_width) (snd (computed_profile src dst line_width)).

(** Two arrays of coordinates of the same shape whose entries differ by at
    most [eps]. *)
Definition close_to (eps : R) (a b : list (list R) * list (list R)) : Prop :=
  Forall2 (Forall2 (fun x y => (Rabs (x - y) <= eps)%R)) (fst a) (fst b) /\
  Forall2 (Forall2 (fun x y => (Rabs (x - y) <= eps)%R)) (snd a) (snd b).

(** Whether the line [points] goes through the pixel [(r, c)] of an image
    of shape [sh]. *)
Definition hits (sh : shape) (points : list (Z * Z)) (r c : Z) : bool :=
  existsb (fun p => match wrap_point sh p with
                    | Some q => coords_eqb (r, c) q
                    | None => false
                    end) points.

(** Layer [i] of the sample points, as integers. *)
Definition layer_coords (coord_line_x coord_line_y : list (list R)) (i : nat)
  : list (Z * Z) :=
  map (fun xy => (astype_int (nth i (fst xy) 0%R), astype_int (nth i (snd xy) 0%R)))
      (combine coord_line_x coord_line_y).


(** The accumulation of one iteration, for the selection [ms]. *)
Definition accumulate (sh : shape) (i : Z) (ms : ndarray bool) (m : ndarray Z) : ndarray Z :=
  let m := update_where sh ms (fun v => uint8 (v + (i + 1))) m in
  update_where sh (gt_scalar sh m (i + 1)) (fun _ => 255%Z) m.

(** The loop never reads [mask_coord]. *)
Definition agree (st st' : locals) : Prop :=
  mask st = mask st' /\ mask_single st = mask_single st'.

Definition agree_result (x y : result locals) : Prop :=
  match x, y with
  | Ok st, Ok st' => agree st st'
  | Raise e, Raise e' => e = e'
  | _, _ => False
  end.

(** A sequence of assignments [signal[i] = v], the pairs [(i, v)] being read
    off the elements of [l] by [g]. *)
Definition assign_all {B : Type} (g : B -> nat * R) (l : list B) (s : list sample)
  : list sample :=
  fold_left (fun s b => set_index s (fst (g b)) (snd (g b))) l s.

Definition angle_le (a b : centroid) : Prop := angle_leb a b = true.

(** The rows of [points_array] with identity [x0]. *)
Definition rows_of (points_array : list row3) (x0 : Z) : list row3 :=
  filter (fun row => (row_id row =? x0)%Z) points_array.

(** [c.set == v] *)
Definition has_set (v : R) (c : centroid) : bool :=
  match col_set c with
  | Some s => if Req_dec_T s v then true else false
  | None => false
  end.

(** The relation between a row of [points_array] and its new identity. *)
Definition relabelled (table : list centroid) (row : row3) (j : Z) : Prop :=
  index_of_set table (IZR (row_id row)) 0 = Ok j /\
  exists (n : nat) (c : centroid),
    j = Z.of_nat n /\ nth_error table n = Some c /\ col_set c = Some (IZR (row_id row)).

(** *** The partition of the ring as the specification describes it

    The seed points that K-means gave the label [i], the mean of a list of
    pixels, and the Euclidean distance of a pixel to a point. *)
Definition cluster_members (labels : list nat) (seeds : list (Z * Z)) (i : nat)
  : list (Z * Z) :=
  map snd (filter (fun lp => (fst lp =? i)%nat) (combine labels seeds)).

Definition mean_of (pixels : list (Z * Z)) : point :=
  (Rsum (map (fun p => IZR (fst p)) pixels) / INR (length pixels),
   Rsum (map (fun p => IZR (snd p)) pixels) / INR (length pixels))%R.

Definition euclidean (p : Z * Z) (q : point) : R :=
  sqrt ((IZR (fst p) - fst q) * (IZR (fst p) - fst q)
        + (IZR (snd p) - snd q) * (IZR (snd p) - snd q)).

(** [i] is the nearest of the centres [centre 0], ..., [centre (k-1)] to the
    pixel [p]: no centre is nearer, and the centres before it are farther. *)
Definition nearest_centre (centre : nat -> point) (k : nat) (p : Z * Z) (i : nat) : Prop :=
  (i < k)%nat /\
  (forall j, (j < k)%nat -> (euclidean p (centre i) <= euclidean p (centre j))%R) /\
  (forall j, (j < i)%nat -> (euclidean p (centre i) < euclidean p (centre j))%R).

(** The pixels of the segment with identity [j], and the angle of a
    segment: [atan2] of its centroid relative to the cell centre, a negative
    angle shifted by [2*pi]. *)
Definition segment_pixels (rows : list row3) (j : Z) : list (Z * Z) :=
  map row_coords (filter (fun row => (row_id row =? j)%Z) rows).

Definition segment_angle (pixels : list (Z * Z)) (cell_center : point) : R :=
  let centroid := mean_of pixels in
  let angle := arctan2 (fst centroid - snd cell_center) (snd centroid - fst cell_center) in
  if Rlt_dec angle 0 then (angle + 2 * PI)%R else angle.

(** The identities in use, and the number of segments in use whose angle is
    below, or at most, the angle [a]. *)
Definition identities_in_use (rows : list row3) (k : nat) : list nat :=
  filter (fun i => existsb (fun row => (row_id row =? Z.of_nat i)%Z) rows) (seq 0 k).

Definition angles_below (rows : list row3) (cell_center : point) (k : nat) (a : R) : nat :=
  length (filter (fun i =>
                    if Rlt_dec (segment_angle (segment_pixels rows (Z.of_nat i)) cell_center) a
                    then true else false)
            (identities_in_use rows k)).

Definition angles_up_to (rows : list row3) (cell_center : point) (k : nat) (a : R) : nat :=
  length (filter (fun i =>
                    if Rle_dec (segment_angle (segment_pixels rows (Z.of_nat i)) cell_center) a
                    then true else false)
            (identities_in_use rows k)).

(** [~np.isnan(v)] *)
Definition notnan (v : sample) : bool := negb (isnan v).

(** The overlap-free mask the resolver recomputes from its input. *)
Definition overlap_free (mask_shapes_overlap : ndarray Z) : ndarray Z :=
  let sh := shape_of mask_shapes_overlap in
  update_where sh (eq_scalar sh (copy mask_shapes_overlap) 255) (fun _ => 0%Z)
    (copy mask_shapes_overlap).

(** Every array object of the memory [m] is still an object of [m'], with
    the content it has in [m]. *)
Definition preserved (m m' : memory) : Prop :=
  forall k : kind,
    (next (m k) <= next (m' k))%nat /\
    forall l : ref, (l < next (m k))%nat -> store (m' k) l = store (m k) l.

(** The reference [l] is not among the objects of kind [k] of [m]. *)
Definition is_new (m : memory) (k : kind) (l : ref) : Prop := (next (m k) <= l)%nat.

(** A run of [a] within a call that started in [m0] leaves the objects of
    [m0] as they are, and what it returns satisfies [Q]. *)
Definition frames {A : Type} (m0 : memory) (a : action A) (Q : A -> Prop) : Prop :=
  forall m : memory,
    preserved m0 m ->
    forall (x : A) (m' : memory), a m = Ok (x, m') -> preserved m0 m' /\ Q x.

(** A run on array objects agrees with a computation on array values: it
    returns exactly when the computation does, what it returns then holds
    the value computed ([content] reads it off the memory after the run),
    and it raises the same error otherwise. *)
Definition agrees {A B : Type} (content : memory -> A -> B)
    (run : result (A * memory)) (value : result B) : Prop :=
  match run with
  | Ok (x, m') => value = Ok (content m' x)
  | Raise e => value = Raise e
  end.

(** The locals of the loop of [create_mask_from_shapes] that a state of the
    loop on objects stands for: [mask] is the content of the object. *)
Definition locals_of (m : memory) (mask_ref : ref)
    (st : option (list (Z * Z)) * option (ndarray bool)) : locals :=
  mk_locals (store (m KLabels) mask_ref) (fst st) (snd st).

Definition simulates (m : memory) (mask_ref : ref)
    (run : result ((option (list (Z * Z)) * option (ndarray bool)) * memory))
    (value : result locals) : Prop :=
  match run with
  | Ok (st', m') =>
      value = Ok (locals_of m' mask_ref st') /\
      m' KArray = m KArray /\ next (m' KLabels) = next (m KLabels)
  | Raise e => value = Raise e
  end.

(** The frame of layer [i] and one step of the loop over the edges, on
    values. *)
Definition layer_value (coord_line_x coord_line_y : list (list R)) (start_including : Z)
    (i : nat) : result (list frame_row) :=
  layer <- layer_at coord_line_x coord_line_y i ;;
  let l_unique := unique_index layer in
  Ok (layer_frame layer l_unique (Z.of_nat i - start_including)).

Definition edge_value (draw_line : Z -> Z -> Z -> Z -> list (Z * Z)) (im_size : shape)
    (vertices : list (Z * Z)) (acc : result (ndarray R)) (io : nat * R)
  : result (ndarray R) :=
  edge_image <- acc ;;
  setitem_points im_size edge_image (edge_line draw_line vertices (fst io)) (snd io).

(** * Properties *)

Unset Implicit Arguments.

(** ** Facts about arrays *)

Lemma length_range (n : nat) : length (range n) = n.
Proof. unfold range. now rewrite length_map, length_seq. Qed.

Lemma nth_map_range {A : Type} (g : Z -> A) (n i : nat) (d : A) :
  (i < n)%nat -> nth i (map g (range n)) d = g (Z.of_nat i).
Proof.
  intros Hi. unfold range. rewrite map_map.
  set (h := fun x : nat => g (Z.of_nat x)).
  rewrite (nth_indep _ d (h 0%nat)) by (rewrite length_map, length_seq; exact Hi).
  rewrite map_nth, seq_nth by exact Hi. reflexivity.
Qed.

Lemma in_bounds_spec (sh : shape) (r c : Z) :
  in_bounds sh r c = true <->
  (0 <= r < Z.of_nat (fst sh) /\ 0 <= c < Z.of_nat (snd sh))%Z.
Proof.
  unfold in_bounds. rewrite !andb_true_iff, !Z.leb_le, !Z.ltb_lt. lia.
Qed.

Lemma item_tabulate {A : Type} (d : A) (sh : shape) (f : Z -> Z -> A) (r c : Z) :
  in_bounds sh r c = true -> item d (tabulate sh f) r c = f r c.
Proof.
  intros H. apply in_bounds_spec in H. destruct H as [[Hr0 Hr1] [Hc0 Hc1]].
  unfold item, tabulate.
  replace (r <? 0)%Z with false by (symmetry; apply Z.ltb_ge; lia).
  replace (c <? 0)%Z with false by (symmetry; apply Z.ltb_ge; lia).
  cbn [orb].
  rewrite nth_map_range by lia.
  rewrite nth_map_range by lia.
  now rewrite !Z2Nat.id by lia.
Qed.

Lemma in_pixels (sh : shape) (r c : Z) :
  In (r, c) (pixels sh) <-> in_bounds sh r c = true.
Proof.
  unfold pixels, range. rewrite in_flat_map, in_bounds_spec. split.
  - intros [r' [Hr Hc]]. apply in_map_iff in Hr. destruct Hr as [i [<- Hi]].
    apply in_map_iff in Hc. destruct Hc as [c' [Heq Hc]].
    apply in_map_iff in Hc. destruct Hc as [j [<- Hj]].
    apply in_seq in Hi. apply in_seq in Hj. inversion Heq; subst. lia.
  - intros [Hr Hc]. exists r. split.
    + apply in_map_iff. exists (Z.to_nat r). split; [lia | apply in_seq; lia].
    + apply in_map_iff. exists c. split; [reflexivity |].
      apply in_map_iff. exists (Z.to_nat c). split; [lia | apply in_seq; lia].
Qed.

Lemma tabulate_ext {A : Type} (sh : shape) (f g : Z -> Z -> A) :
  (forall r c, in_bounds sh r c = true -> f r c = g r c) ->
  tabulate sh f = tabulate sh g.
Proof.
  intros H. unfold tabulate, range.
  apply map_ext_in. intros r Hr. apply map_ext_in. intros c Hc.
  apply H. apply in_bounds_spec.
  apply in_map_iff in Hr. destruct Hr as [i [<- Hi]].
  apply in_map_iff in Hc. destruct Hc as [j [<- Hj]].
  apply in_seq in Hi. apply in_seq in Hj. lia.
Qed.

Lemma NoDup_range (n : nat) : NoDup (range n).
Proof.
  unfold range. apply Injective_map_NoDup.
  - intros a b. apply Nat2Z.inj.
  - apply seq_NoDup.
Qed.

Lemma NoDup_pixels (sh : shape) : NoDup (pixels sh).
Proof.
  unfold pixels. generalize (NoDup_range (fst sh)).
  induction (range (fst sh)) as [| r rs IH]; intros Hnd; cbn.
  - constructor.
  - inversion Hnd as [| ? ? Hr Hrs]; subst.
    apply NoDup_app.
    + apply Injective_map_NoDup; [| apply NoDup_range].
      intros a b Hab. now inversion Hab.
    + apply IH; assumption.
    + intros p Hp Hq. apply in_map_iff in Hp. destruct Hp as [c [<- _]].
      apply in_flat_map in Hq. destruct Hq as [r' [Hr' Hq]].
      apply in_map_iff in Hq. destruct Hq as [c' [Heq _]].
      inversion Heq; subst. contradiction.
Qed.

(** ** Perpendicularity Scorer *)

Ltac fold_cases :=
  unfold calculate_perpendicular_index, Rabs;
  repeat match goal with
         | |- context [Rcase_abs ?a] => destruct (Rcase_abs a)
         | |- context [Rlt_dec ?a ?b] => destruct (Rlt_dec a b)
         end.

Lemma half_pi_pos : (0 < PI / 2)%R.
Proof. pose proof PI_RGT_0. lra. Qed.

Lemma div_half_pi_range (d : R) :
  (0 <= d <= PI / 2)%R -> (0 <= d / (PI / 2) <= 1)%R.
Proof.
  intros [H0 H1]. pose proof half_pi_pos as Hp. split.
  - apply Rmult_le_pos; [exact H0 |]. apply Rlt_le, Rinv_0_lt_compat, Hp.
  - apply Rmult_le_reg_r with (r := (PI / 2)%R); [exact Hp |].
    unfold Rdiv at 1. rewrite Rmult_assoc, Rinv_l by lra. lra.
Qed.

(** C3 as the specification states it fails: two angles that
    are three half-turns apart score -2. *)
Lemma perpendicular_index_out_of_range :
  ~ (0 <= calculate_perpendicular_index 0 (3 * PI) <= 1)%R.
Proof.
  pose proof PI_RGT_0 as Hpi.
  assert (H : calculate_perpendicular_index 0 (3 * PI) = (-2)%R).
  { fold_cases; try lra; field; lra. }
  rewrite H. lra.
Qed.

(** C3, amended: when the two angles are at most a full turn apart, which
    covers every pair of angles in (-pi, pi], the score lies in [0, 1];
    score(0, 0) = 0 and score(0, pi/2) = 1. *)
Theorem perpendicular_index_range :
  (forall alpha beta : R,
      (Rabs (alpha - beta) <= 2 * PI)%R ->
      (0 <= calculate_perpendicular_index alpha beta <= 1)%R) /\
  calculate_perpendicular_index 0 0 = 0%R /\
  calculate_perpendicular_index 0 (PI / 2) = 1%R.
Proof.
  pose proof PI_RGT_0 as Hpi. split; [| split].
  - intros alpha beta. unfold calculate_perpendicular_index, Rabs.
    destruct (Rcase_abs (alpha - beta)); intros Hd;
      repeat match goal with
             | |- context [Rlt_dec ?a ?b] => destruct (Rlt_dec a b)
             end;
      apply div_half_pi_range; lra.
  - fold_cases; try lra; field; lra.
  - fold_cases; try lra; field; lra.
Qed.

Lemma perpendicular_index_range_witness :
  (0 <= calculate_perpendicular_index (PI / 4) (- (PI / 4)) <= 1)%R.
Proof.
  apply (proj1 perpendicular_index_range).
  pose proof PI_RGT_0. unfold Rabs. destruct (Rcase_abs _); lra.
Defined.

(** C4 as the specification states it fails: adding pi to the
    first angle changes the score once the angles are more than a full turn
    apart. *)
Lemma perpendicular_index_not_periodic :
  calculate_perpendicular_index (2 * PI + PI) 0
  <> calculate_perpendicular_index (2 * PI) 0.
Proof.
  pose proof PI_RGT_0 as Hpi.
  assert (H1 : calculate_perpendicular_index (2 * PI + PI) 0 = (-2)%R).
  { fold_cases; try lra; field; lra. }
  assert (H2 : calculate_perpendicular_index (2 * PI) 0 = 0%R).
  { fold_cases; try lra; field; lra. }
  rewrite H1, H2. lra.
Qed.

(** C4, amended: the score is symmetric for all angles;
    score(a, a + pi) = score(a, a) for every a; and adding pi to either
    angle leaves the score unchanged whenever the two angles are at most a
    full turn apart both before and after the shift. *)
Theorem perpendicular_index_symmetric_periodic :
  (forall alpha beta : R,
      calculate_perpendicular_index alpha beta
      = calculate_perpendicular_index beta alpha) /\
  (forall alpha : R,
      calculate_perpendicular_index alpha (alpha + PI)
      = calculate_perpendicular_index alpha alpha) /\
  (forall alpha beta : R,
      (Rabs (alpha - beta) <= 2 * PI)%R ->
      (Rabs (alpha + PI - beta) <= 2 * PI)%R ->
      calculate_perpendicular_index (alpha + PI) beta
      = calculate_perpendicular_index alpha beta) /\
  (forall alpha beta : R,
      (Rabs (alpha - beta) <= 2 * PI)%R ->
      (Rabs (alpha - (beta + PI)) <= 2 * PI)%R ->
      calculate_perpendicular_index alpha (beta + PI)
      = calculate_perpendicular_index alpha beta).
Proof.
  pose proof PI_RGT_0 as Hpi. repeat split.
  - intros alpha beta. fold_cases; try lra; f_equal; lra.
  - intros alpha. fold_cases; try lra; f_equal; lra.
  - intros alpha beta. unfold calculate_perpendicular_index, Rabs.
    destruct (Rcase_abs (alpha - beta)); destruct (Rcase_abs (alpha + PI - beta));
      intros H1 H2;
      repeat match goal with
             | |- context [Rlt_dec ?a ?b] => destruct (Rlt_dec a b)
             end;
      try lra; f_equal; lra.
  - intros alpha beta. unfold calculate_perpendicular_index, Rabs.
    destruct (Rcase_abs (alpha - beta)); destruct (Rcase_abs (alpha - (beta + PI)));
      intros H1 H2;
      repeat match goal with
             | |- context [Rlt_dec ?a ?b] => destruct (Rlt_dec a b)
             end;
      try lra; f_equal; lra.
Qed.

Lemma perpendicular_index_symmetric_periodic_witness :
  calculate_perpendicular_index (0 + PI) (PI / 2)
  = calculate_perpendicular_index 0 (PI / 2).
Proof.
  apply (proj1 (proj2 (proj2 perpendicular_index_symmetric_periodic))).
  - pose proof PI_RGT_0. unfold Rabs. destruct (Rcase_abs _); lra.
  - pose proof PI_RGT_0. unfold Rabs. destruct (Rcase_abs _); lra.
Defined.

(** ** Orientation Estimator, vertex mode *)

Lemma arctan2_east (y x : R) : y = 0%R -> (0 < x)%R -> arctan2 y x = 0%R.
Proof.
  intros -> Hx. unfold arctan2. destruct (Rlt_dec 0 x); [| contradiction].
  unfold Rdiv. rewrite Rmult_0_l. apply atan_0.
Qed.

Lemma arctan2_west (y x : R) : y = 0%R -> (x < 0)%R -> arctan2 y x = PI.
Proof.
  intros -> Hx. unfold arctan2.
  destruct (Rlt_dec 0 x); [lra |].
  destruct (Rlt_dec x 0); [| contradiction].
  destruct (Rle_dec 0 0); [| lra].
  unfold Rdiv. rewrite Rmult_0_l, atan_0. lra.
Qed.

Lemma arctan2_north (y x : R) : x = 0%R -> (0 < y)%R -> arctan2 y x = (PI / 2)%R.
Proof.
  intros -> Hy. unfold arctan2.
  destruct (Rlt_dec 0 0); [lra |]. destruct (Rlt_dec 0 y); [reflexivity | contradiction].
Qed.

Lemma arctan2_south (y x : R) : x = 0%R -> (y < 0)%R -> arctan2 y x = (- (PI / 2))%R.
Proof.
  intros -> Hy. unfold arctan2.
  destruct (Rlt_dec 0 0); [lra |]. destruct (Rlt_dec 0 y); [lra |].
  destruct (Rlt_dec y 0); [reflexivity | contradiction].
Qed.

Lemma fold_left_snoc {A B : Type} (f : A -> B) (l : list A) (acc : list B) :
  fold_left (fun out a => out ++ [f a]) l acc = acc ++ map f l.
Proof.
  revert acc. induction l as [| a l IH]; intros acc; cbn.
  - now rewrite app_nil_r.
  - rewrite IH, <- app_assoc. reflexivity.
Qed.

Lemma orientations_from_vertices_map (vert : list point) :
  orientations_from_vertices vert = map (edge_orientation vert) (seq 0 (length vert)).
Proof. unfold orientations_from_vertices. now rewrite fold_left_snoc. Qed.

Lemma edge_orientation_backward (vert : list point) (i : nat) :
  (i < length vert)%nat -> edge_orientation vert i = backward_edge_angle vert i.
Proof.
  intros Hi. unfold edge_orientation, backward_edge_angle, calculate_orientation.
  destruct (Nat.eqb_spec i (length vert - 1)) as [Heq | Hne].
  - replace ((i + 1) mod length vert)%nat with 0%nat; [reflexivity |].
    replace (i + 1)%nat with (length vert) by lia.
    symmetry. apply Nat.Div0.mod_same.
  - rewrite Nat.mod_small by lia. reflexivity.
Qed.

(** C5 as the specification states it fails: on the unit square
    the first edge runs along the columns, its forward angle is 0, and the
    function returns pi. *)
Lemma orientation_not_forward :
  nth 0 (orientations_from_vertices unit_square) 0%R
  <> forward_edge_angle unit_square 0.
Proof.
  pose proof PI_RGT_0 as Hpi.
  assert (H1 : nth 0 (orientations_from_vertices unit_square) 0%R = PI).
  { cbn. apply arctan2_west; cbn; lra. }
  assert (H2 : forward_edge_angle unit_square 0 = 0%R).
  { unfold forward_edge_angle. cbn. apply arctan2_east; cbn; lra. }
  rewrite H1, H2. lra.
Qed.

Ltac rectangle_angles :=
  cbn; unfold edge_orientation, calculate_orientation; cbn;
  repeat match goal with
         | |- context [arctan2 ?y ?x] =>
             first [ rewrite (arctan2_east y x) by lra
                   | rewrite (arctan2_west y x) by lra
                   | rewrite (arctan2_north y x) by lra
                   | rewrite (arctan2_south y x) by lra ]
         end.

(** C5, amended: the function returns exactly n angles, one per edge in
    input order; the angle of edge i is atan2(dy, dx) of the displacement
    from vertex i+1 (vertex 0 after the last) back to vertex i, with x the
    column and y the row; for an axis-aligned rectangle, so for an
    axis-aligned square, the four angles are exactly 0, pi/2, pi and
    -pi/2. *)
Theorem orientations_from_vertices_spec :
  (forall vert : list point,
      length (orientations_from_vertices vert) = length vert /\
      forall i : nat,
        (i < length vert)%nat ->
        nth i (orientations_from_vertices vert) 0%R = backward_edge_angle vert i) /\
  (forall (r c s t : R) (vert : list point),
      s <> 0%R -> t <> 0%R ->
      vert = rectangle_cols_first r c s t \/ vert = rectangle_rows_first r c s t ->
      forall a : R,
        In a (orientations_from_vertices vert)
        <-> In a [0; PI / 2; PI; - (PI / 2)]%R).
Proof.
  split.
  - intros vert. rewrite orientations_from_vertices_map. split.
    + now rewrite length_map, length_seq.
    + intros i Hi.
      rewrite (nth_indep _ 0%R (edge_orientation vert 0))
        by (rewrite length_map, length_seq; exact Hi).
      rewrite map_nth, seq_nth by exact Hi.
      apply edge_orientation_backward. exact Hi.
  - intros r c s t vert Hs Ht Hvert a.
    destruct (Rtotal_order s 0) as [Hs' | [Hs' | Hs']]; [| contradiction |];
      destruct (Rtotal_order t 0) as [Ht' | [Ht' | Ht']]; try contradiction;
      destruct Hvert as [-> | ->];
      unfold rectangle_cols_first, rectangle_rows_first;
      rectangle_angles; cbn; intuition.
Qed.

Lemma orientations_from_vertices_spec_witness :
  nth 1 (orientations_from_vertices unit_square) 0%R
  = backward_edge_angle unit_square 1 /\
  (In PI (orientations_from_vertices unit_square)
   <-> In PI [0; PI / 2; PI; - (PI / 2)]%R).
Proof.
  split.
  - apply (proj1 orientations_from_vertices_spec unit_square). cbn. lia.
  - apply (proj2 orientations_from_vertices_spec 0 0 1 1 unit_square)%R.
    + lra.
    + lra.
    + left. reflexivity.
Defined.

(** ** Signal Interpolator *)

Lemma length_argwhere_defined (arr : list sample) (i : Z) :
  length (argwhere_from i (map (fun v => negb (isnan v)) arr))
  = length (defined_values arr).
Proof.
  revert i. induction arr as [| [v |] arr IH]; intros i; cbn; auto.
Qed.

Lemma squeeze_singleton {A : Type} (l : list A) :
  length l = 1%nat -> exists a, squeeze l = Array0 a.
Proof.
  destruct l as [| a [| b l]]; cbn; intros H; try discriminate. now exists a.
Qed.

(** C7: a signal with exactly one defined entry makes [np.interp] raise,
    because [squeeze] has turned the sample points into a zero-dimensional
    array; no filled signal is returned. *)
Theorem interpolate_one_defined_raises (signal : ref) (h : heap (list sample)) :
  length (defined_values (store h signal)) = 1%nat ->
  interpolate_and_fill signal h = Raise ValueError.
Proof.
  intros Hone. unfold interpolate_and_fill, argwhere.
  destruct (squeeze_singleton
              (argwhere_from 0 (map (fun v => negb (isnan v)) (store h signal))))
    as [a Ha].
  { rewrite length_argwhere_defined. exact Hone. }
  rewrite Ha. reflexivity.
Qed.

Lemma interpolate_one_defined_raises_witness :
  interpolate_and_fill 0 (heap_of [Some 5%R; None]) = Raise ValueError /\
  interpolate_and_fill 0 (heap_of [Some 7%R]) = Raise ValueError.
Proof.
  split.
  - apply interpolate_one_defined_raises. reflexivity.
  - apply interpolate_one_defined_raises. reflexivity.
Defined.

(** The example of the specification: [1, nan, 3] becomes [1, 2, 3]. *)
Lemma interpolate_1_nan_3 :
  exists h',
    interpolate_and_fill 0 (heap_of [Some 1%R; None; Some 3%R]) = Ok (0%nat, h') /\
    store h' 0%nat = [Some 1%R; Some 2%R; Some 3%R].
Proof.
  eexists. split; [reflexivity |]. cbn.
  rewrite Pos2Nat.inj_1. do 3 f_equal. field.
Qed.

Lemma indices_squeeze {A : Type} (l : list A) : indices (squeeze l) = l.
Proof. destruct l as [| a [| b l]]; reflexivity. Qed.

Lemma length_set_index (s : list sample) (i : nat) (v : R) :
  length (set_index s i v) = length s.
Proof.
  revert i. induction s as [| a s IH]; intros [| i]; cbn; auto.
Qed.

Lemma nth_error_set_index_other (s : list sample) (i j : nat) (v : R) :
  j <> i -> nth_error (set_index s i v) j = nth_error s j.
Proof.
  revert i j. induction s as [| a s IH]; intros [| i] [| j] H; cbn; auto;
    try contradiction.
Qed.

Lemma nth_error_set_index_same (s : list sample) (i : nat) (v : R) :
  (i < length s)%nat -> nth_error (set_index s i v) i = Some (Some v).
Proof.
  revert i. induction s as [| a s IH]; intros [| i] H; cbn in *; auto; try lia.
  apply IH. lia.
Qed.

Section Assign.

Variable B : Type.
Variable g : B -> nat * R.

Lemma length_assign_all (l : list B) (s : list sample) :
  length (assign_all g l s) = length s.
Proof.
  revert s. induction l as [| b l IH]; intros s; cbn; auto.
  unfold assign_all in IH. rewrite IH. apply length_set_index.
Qed.

Lemma assign_all_other (l : list B) (s : list sample) (j : nat) :
  ~ In j (map (fun b => fst (g b)) l) ->
  nth_error (assign_all g l s) j = nth_error s j.
Proof.
  revert s. induction l as [| b l IH]; intros s H; cbn in *; auto.
  unfold assign_all in IH. rewrite IH by tauto.
  apply nth_error_set_index_other. intros ->. tauto.
Qed.

Lemma assign_all_keeps_defined (l : list B) (s : list sample) (j : nat) (v : R) :
  nth_error s j = Some (Some v) ->
  exists v', nth_error (assign_all g l s) j = Some (Some v').
Proof.
  revert s v. induction l as [| b l IH]; intros s v H; cbn.
  - now exists v.
  - destruct (Nat.eq_dec j (fst (g b))) as [-> | Hne].
    + apply (IH _ (snd (g b))). apply nth_error_set_index_same.
      apply nth_error_Some. rewrite H. discriminate.
    + apply (IH _ v). rewrite nth_error_set_index_other by exact Hne. exact H.
Qed.

Lemma assign_all_defines (l : list B) (s : list sample) (j : nat) :
  In j (map (fun b => fst (g b)) l) -> (j < length s)%nat ->
  exists v, nth_error (assign_all g l s) j = Some (Some v).
Proof.
  revert s. induction l as [| b l IH]; intros s Hin Hj; cbn in *.
  - contradiction.
  - destruct (Nat.eq_dec (fst (g b)) j) as [Heq | Hne].
    + apply (assign_all_keeps_defined l _ j (snd (g b))).
      rewrite Heq. apply nth_error_set_index_same. exact Hj.
    + apply IH; [tauto | now rewrite length_set_index].
Qed.

End Assign.

Lemma map_fst_combine_map {A C : Type} (f : A -> C) (l : list A) :
  map fst (combine l (map f l)) = l.
Proof. induction l as [| a l IH]; cbn; congruence. Qed.

(** What [signal[x] = values] does when [values] comes out of [np.interp]
    for the same [x]. *)
Lemma setitem_spec (arr arr' : list sample) (x : squeezed Z) (xp : squeezed Z)
    (fp values : squeezed R) :
  np_interp x xp fp = Ok values ->
  setitem arr x values = Ok arr' ->
  length arr' = length arr /\
  (forall j, ~ In j (map Z.to_nat (indices x)) -> nth_error arr' j = nth_error arr j) /\
  (forall j, In j (map Z.to_nat (indices x)) -> (j < length arr)%nat ->
             exists v, nth_error arr' j = Some (Some v)).
Proof.
  unfold np_interp. destruct xp as [a | xp]; [discriminate |].
  destruct fp as [a | fp]; [discriminate |].
  destruct (length xp =? 0)%nat; [discriminate |].
  destruct (negb (length fp =? length xp)%nat); [discriminate |].
  destruct x as [i | xs]; intros Hv; inversion Hv; subst; clear Hv; cbn [setitem indices].
  - intros Hs; inversion Hs; subst; clear Hs. repeat split.
    + apply length_set_index.
    + intros j Hj. apply nth_error_set_index_other.
      intros E. apply Hj. cbn. left. now symmetry.
    + intros j [<- | []] Hlt. eexists. apply nth_error_set_index_same. exact Hlt.
  - rewrite length_map, Nat.eqb_refl. intros Hs; inversion Hs; subst; clear Hs.
    set (g := fun iv : Z * R => (Z.to_nat (fst iv), snd iv)).
    change (fold_left _ ?l arr) with (assign_all g l arr).
    assert (Hidx : map (fun b => fst (g b)) (combine xs (map (interp_at xp fp) xs))
                   = map Z.to_nat xs).
    { transitivity (map Z.to_nat (map fst (combine xs (map (interp_at xp fp) xs)))).
      - rewrite map_map. reflexivity.
      - now rewrite map_fst_combine_map. }
    repeat split.
    + apply length_assign_all.
    + intros j Hj. apply assign_all_other. now rewrite Hidx.
    + intros j Hj Hlt. apply assign_all_defines; [now rewrite Hidx | exact Hlt].
Qed.

Lemma in_argwhere_from (m : list bool) (k i : Z) :
  In i (argwhere_from k m) <->
  exists n : nat, i = (k + Z.of_nat n)%Z /\ nth_error m n = Some true.
Proof.
  revert k. induction m as [| b m IH]; intros k; cbn.
  - split; [contradiction | intros [[| n] [_ H]]; discriminate].
  - assert (Htail : In i (argwhere_from (k + 1) m) <->
                    exists n : nat, i = (k + Z.of_nat (S n))%Z /\ nth_error m n = Some true).
    { rewrite IH. split; intros [n [H1 H2]]; exists n; split; auto; lia. }
    destruct b; cbn; rewrite ?Htail; split.
    + intros [<- | [n [H1 H2]]]; [exists 0%nat | exists (S n)]; split; auto; lia.
    + intros [[| n] [H1 H2]]; [left; lia | right; exists n; auto].
    + intros [n [H1 H2]]. exists (S n). auto.
    + intros [[| n] [H1 H2]]; [discriminate | exists n; auto].
Qed.

Lemma in_argwhere_isnan (arr : list sample) (j : nat) :
  In j (map Z.to_nat (argwhere (map isnan arr))) <-> nth_error arr j = Some None.
Proof.
  unfold argwhere. rewrite in_map_iff. split.
  - intros [i [<- Hi]]. apply in_argwhere_from in Hi. destruct Hi as [n [-> Hn]].
    rewrite Z.add_0_l, Nat2Z.id. rewrite nth_error_map in Hn.
    destruct (nth_error arr n) as [[v |] |]; cbn in Hn;
      [discriminate Hn | reflexivity | discriminate Hn].
  - intros H. exists (Z.of_nat j). split; [apply Nat2Z.id |].
    apply in_argwhere_from. exists j. split; [lia |].
    rewrite nth_error_map, H. reflexivity.
Qed.

(** With two or more defined entries the call returns, whatever the number
    of NaN entries. *)
Lemma squeeze_many {A : Type} (l : list A) :
  length l <> 1%nat -> squeeze l = Array1 l.
Proof. destruct l as [| a [| b l]]; cbn; intros H; try reflexivity. lia. Qed.

Lemma interpolate_two_defined_returns (signal : ref) (h : heap (list sample)) :
  (2 <= length (defined_values (store h signal)))%nat ->
  exists h', interpolate_and_fill signal h = Ok (signal, h').
Proof.
  intros Htwo. unfold interpolate_and_fill, argwhere.
  set (arr := store h signal) in *.
  rewrite (squeeze_many (argwhere_from 0 (map (fun v => negb (isnan v)) arr)))
    by (rewrite length_argwhere_defined; lia).
  rewrite (squeeze_many (defined_values arr)) by lia.
  unfold np_interp. rewrite length_argwhere_defined.
  replace (length (defined_values arr) =? 0)%nat with false
    by (symmetry; apply Nat.eqb_neq; lia).
  rewrite Nat.eqb_refl. cbn [negb].
  destruct (squeeze (argwhere_from 0 (map isnan arr))) as [i | xs]; cbn [bind setitem].
  - eexists. reflexivity.
  - rewrite length_map, Nat.eqb_refl. cbn [bind]. eexists. reflexivity.
Qed.

Lemma argwhere_none (m : list bool) (i : Z) :
  (forall b, In b m -> b = false) -> argwhere_from i m = [].
Proof.
  revert i. induction m as [| b m IH]; intros i H; cbn; [reflexivity |].
  rewrite (H b (or_introl eq_refl)). apply IH. intros b' Hb'. apply H. right. exact Hb'.
Qed.

(** An input without NaN and with two or more entries is returned
    unchanged. *)
Lemma interpolate_no_nan_unchanged (signal : ref) (h : heap (list sample)) :
  (forall v, In v (store h signal) -> isnan v = false) ->
  (2 <= length (defined_values (store h signal)))%nat ->
  exists h',
    interpolate_and_fill signal h = Ok (signal, h') /\
    store h' signal = store h signal.
Proof.
  intros Hdef Htwo. unfold interpolate_and_fill, argwhere.
  set (arr := store h signal) in *.
  rewrite (argwhere_none (map isnan arr)).
  2: { intros b Hb. apply in_map_iff in Hb. destruct Hb as [v [<- Hv]]. auto. }
  rewrite (squeeze_many (argwhere_from 0 (map (fun v => negb (isnan v)) arr)))
    by (rewrite length_argwhere_defined; lia).
  rewrite (squeeze_many (defined_values arr)) by lia.
  unfold np_interp. rewrite length_argwhere_defined.
  replace (length (defined_values arr) =? 0)%nat with false
    by (symmetry; apply Nat.eqb_neq; lia).
  rewrite Nat.eqb_refl. cbn. eexists. split; [reflexivity |].
  cbn. rewrite Nat.eqb_refl. reflexivity.
Qed.

(** ** Inputs after a call *)

Lemma interpolate_and_fill_writes (signal l' : ref) (h h' : heap (list sample)) :
  interpolate_and_fill signal h = Ok (l', h') ->
  l' = signal /\
  (forall k, k <> signal -> store h' k = store h k) /\
  length (store h' signal) = length (store h signal) /\
  (forall i v, nth_error (store h signal) i = Some (Some v) ->
               nth_error (store h' signal) i = Some (Some v)) /\
  (forall i, nth_error (store h signal) i = Some None ->
             exists v, nth_error (store h' signal) i = Some (Some v)).
Proof.
  unfold interpolate_and_fill.
  set (arr := store h signal).
  set (xs := squeeze (argwhere (map isnan arr))).
  destruct (np_interp xs _ _) as [values |] eqn:Hinterp; [| discriminate].
  cbn [bind]. destruct (setitem arr xs values) as [arr' |] eqn:Hset; [| discriminate].
  cbn [bind]. intros H; injection H as Hl Hh; subst l' h'.
  destruct (setitem_spec _ _ _ _ _ _ Hinterp Hset) as [Hlen [Hother Hnan]].
  unfold xs in Hother, Hnan. rewrite indices_squeeze in Hother, Hnan.
  assert (Hst : store (heap_write h signal arr') signal = arr').
  { cbn. now rewrite Nat.eqb_refl. }
  rewrite Hst. repeat split.
  - intros k Hk. cbn. destruct (Nat.eqb_spec k signal); [contradiction | reflexivity].
  - exact Hlen.
  - intros i v Hi. rewrite Hother; [exact Hi |].
    rewrite in_argwhere_isnan. fold arr in Hi. rewrite Hi. discriminate.
  - intros i Hi. apply Hnan.
    + apply in_argwhere_isnan. exact Hi.
    + apply nth_error_Some. fold arr in Hi. rewrite Hi. discriminate.
Qed.

Lemma preserved_refl (m : memory) : preserved m m.
Proof. intros k. split; [lia | reflexivity]. Qed.

Lemma update_other (m : memory) (k k' : kind) (h : heap (carrier k)) :
  k <> k' -> update m k h k' = m k'.
Proof.
  intros Hk. unfold update. destruct (kind_eq_dec k k') as [e | n]; [contradiction | reflexivity].
Qed.

Lemma update_same (m : memory) (k : kind) (h : heap (carrier k)) :
  update m k h k = h.
Proof.
  unfold update. destruct (kind_eq_dec k k) as [e | n]; [| contradiction].
  rewrite (Eqdep_dec.UIP_dec kind_eq_dec e eq_refl). reflexivity.
Qed.

(** A memory that differs from [m] in the heap of one kind, where the
    objects of [m0] are as they were. *)
Lemma preserved_update (m0 m : memory) (k : kind) (h : heap (carrier k)) :
  preserved m0 m ->
  (next (m0 k) <= next h)%nat ->
  (forall l, (l < next (m0 k))%nat -> store h l = store (m k) l) ->
  preserved m0 (update m k h).
Proof.
  intros Hm Hnext Hstore k'. unfold update.
  destruct (kind_eq_dec k k') as [e | n]; [| apply Hm].
  destruct e. cbn [eq_rect]. split; [exact Hnext |].
  intros l Hl. rewrite (Hstore l Hl). apply (proj2 (Hm k)). exact Hl.
Qed.

Section Frames.

Variable m0 : memory.

Lemma frames_weaken {A : Type} (a : action A) (P Q : A -> Prop) :
  frames m0 a P -> (forall x, P x -> Q x) -> frames m0 a Q.
Proof.
  intros Ha HPQ m Hm x m' Hrun. destruct (Ha m Hm x m' Hrun) as [Hm' HP].
  split; [exact Hm' | apply HPQ; exact HP].
Qed.

Lemma frames_ret {A : Type} (x : A) (Q : A -> Prop) : Q x -> frames m0 (ret x) Q.
Proof.
  intros HQ m Hm y m' Hrun. unfold ret in Hrun. injection Hrun as <- <-. split; assumption.
Qed.

Lemma frames_bind {A B : Type} (a : action A) (k : A -> action B)
    (P : A -> Prop) (Q : B -> Prop) :
  frames m0 a P -> (forall x, P x -> frames m0 (k x) Q) -> frames m0 (abind a k) Q.
Proof.
  intros Ha Hk m Hm y m' Hrun. unfold abind in Hrun.
  destruct (a m) as [[x m1] | e] eqn:E; [| discriminate].
  destruct (Ha m Hm x m1 E) as [Hm1 HP].
  exact (Hk x HP m1 Hm1 y m' Hrun).
Qed.

Lemma frames_lift {A : Type} (r : result A) : frames m0 (lift r) (fun _ => True).
Proof.
  intros m Hm x m' Hrun. unfold lift in Hrun. destruct r as [a | e]; [| discriminate].
  injection Hrun as <- <-. split; [exact Hm | exact I].
Qed.

Lemma frames_read (k : kind) (l : ref) : frames m0 (read k l) (fun _ => True).
Proof.
  intros m Hm x m' Hrun. unfold read in Hrun. injection Hrun as <- <-.
  split; [exact Hm | exact I].
Qed.

(** A new object is not one of the caller's. *)
Lemma frames_alloc (k : kind) (v : carrier k) : frames m0 (alloc k v) (is_new m0 k).
Proof.
  intros m Hm x m' Hrun. unfold alloc, heap_alloc in Hrun. injection Hrun as <- <-.
  destruct (Hm k) as [Hnext _]. split; [| exact Hnext].
  apply preserved_update; [exact Hm | cbn [next]; lia |].
  intros l Hl. cbn [store].
  destruct (Nat.eqb_spec l (next (m k))) as [-> | _]; [lia | reflexivity].
Qed.

(** A write into an object that is not one of the caller's. *)
Lemma frames_write (k : kind) (l : ref) (v : carrier k) :
  is_new m0 k l -> frames m0 (write k l v) (fun _ => True).
Proof.
  intros Hnew m Hm x m' Hrun. unfold write, heap_write in Hrun. injection Hrun as <- <-.
  destruct (Hm k) as [Hnext _]. split; [| exact I].
  apply preserved_update; [exact Hm | cbn [next]; lia |].
  intros l' Hl'. cbn [store]. unfold is_new in Hnew.
  destruct (Nat.eqb_spec l' l) as [-> | _]; [lia | reflexivity].
Qed.

Lemma frames_for_each {A B : Type} (f : A -> action B) (Q : B -> Prop) (l : list A) :
  (forall a, frames m0 (f a) Q) -> frames m0 (for_each f l) (Forall Q).
Proof.
  intros Hf. induction l as [| a l IH]; cbn [for_each].
  - apply frames_ret. constructor.
  - eapply frames_bind; [apply Hf |]. intros b Hb.
    eapply frames_bind; [exact IH |]. intros bs Hbs.
    apply frames_ret. constructor; assumption.
Qed.

(** The run of a whole call. *)
Lemma frames_run {A : Type} (a : action A) (Q : A -> Prop) :
  frames m0 a Q ->
  forall (x : A) (m' : memory), a m0 = Ok (x, m') -> preserved m0 m' /\ Q x.
Proof. intros Ha. apply Ha. apply preserved_refl. Qed.

End Frames.

(** One step of a frame proof: the first statement of the body. *)
Ltac frame_step :=
  lazymatch goal with
  | |- frames _ (abind (alloc _ _) _) _ =>
      eapply frames_bind; [apply frames_alloc | intros ? ?]
  | |- frames _ (abind (read _ _) _) _ =>
      eapply frames_bind; [apply frames_read | intros ? _]
  | |- frames _ (abind (lift _) _) _ =>
      eapply frames_bind; [apply frames_lift | intros ? _]
  | |- frames _ (abind (write _ _ _) _) _ =>
      eapply frames_bind; [apply frames_write; assumption | intros _ _]
  end.

Section ArrayObjectsFacts.

Variable polygon2mask : shape -> nd_array -> ndarray bool.
Variable polygon : nd_array -> shape -> result (list (Z * Z)).
Variable intensity_normalization : nd_array -> list R -> nd_array.
Variable edge_preserving_smoothing_3d : nd_array -> nd_array.
Variable filament_3d_wrapper : nd_array -> list (list R) -> nd_array.
Variable Accumulator : Type.
Variable hough_line : nd_array -> list R -> Accumulator * list R * list R.
Variable hough_line_peaks :
  Accumulator -> list R -> list R -> list R * list R * list R.
Variable meijering : ndarray R -> ndarray R.
Variable probabilistic_hough_line : ndarray R -> list segment.
Variable profile_line : ndarray R -> point -> point -> Z -> list sample.
Variable footprint_t : Type.
Variable disk_fp : Z -> footprint_t.
Variable grey_erosion : ndarray Z -> footprint_t -> ndarray Z.
Variable KMeans_fit_labels : nat -> list (Z * Z) -> result (list nat).
Variable M : morphology.
Variable computed_profile : point -> point -> nat -> list (list R) * list (list R).
Variable dilation : ndarray R -> footprint_t -> ndarray R.
Variable draw_line : Z -> Z -> Z -> Z -> list (Z * Z).

Lemma loop_body_obj_frames (m0 : memory) (im_shape : shape) (mask : ref) (i : Z) (poly : ref)
    (st : option (list (Z * Z)) * option (ndarray bool)) :
  is_new m0 KLabels mask ->
  frames m0 (loop_body_obj polygon2mask polygon im_shape mask i poly st) (fun _ => True).
Proof.
  intros Hmask. unfold loop_body_obj. frame_step.
  eapply frames_bind; [apply frames_lift |]. intros st' _.
  destruct (snd st') as [ms |]; [| apply frames_lift].
  frame_step. frame_step. frame_step. frame_step. apply frames_ret. exact I.
Qed.

Lemma loop_obj_frames (m0 : memory) (im_shape : shape) (mask : ref) (polys : list ref) :
  is_new m0 KLabels mask ->
  forall (i : Z) (st : option (list (Z * Z)) * option (ndarray bool)),
    frames m0 (loop_obj polygon2mask polygon im_shape mask i polys st) (fun _ => True).
Proof.
  intros Hmask. induction polys as [| poly rest IH]; intros i st; cbn [loop_obj].
  - apply frames_ret. exact I.
  - eapply frames_bind; [apply loop_body_obj_frames; exact Hmask |].
    intros st' _. apply IH.
Qed.

Lemma create_mask_from_shapes_obj_frames (m0 : memory) (vertices_polygons : list ref) (im_shape : shape) :
  frames m0 (create_mask_from_shapes_obj polygon2mask polygon vertices_polygons im_shape)
    (fun masks => is_new m0 KLabels (fst masks) /\ is_new m0 KLabels (snd masks)).
Proof.
  unfold create_mask_from_shapes_obj. frame_step.
  eapply frames_bind; [apply loop_obj_frames; assumption |]. intros _ _.
  frame_step. frame_step. frame_step. frame_step.
  apply frames_ret. split; assumption.
Qed.

Lemma segment_actin_3D_obj_frames (m0 : memory) (image_actin : ref) :
  frames m0
    (segment_actin_3D_obj intensity_normalization edge_preserving_smoothing_3d
       filament_3d_wrapper image_actin)
    (is_new m0 KArray).
Proof. unfold segment_actin_3D_obj. frame_step. apply frames_alloc. Qed.

Lemma find_fibers_orientation_v2_obj_frames (m0 : memory) (actin_im : ref) :
  frames m0 (find_fibers_orientation_v2_obj meijering probabilistic_hough_line actin_im)
    (fun _ => True).
Proof.
  unfold find_fibers_orientation_v2_obj. do 5 frame_step. apply frames_ret. exact I.
Qed.

Lemma divide_cell_outside_ring_obj_frames (m0 : memory) (cell_image cell_center : ref)
    (ring_thickness : Z) (segment_number : nat) :
  frames m0
    (divide_cell_outside_ring_obj disk_fp grey_erosion KMeans_fit_labels
       cell_image cell_center ring_thickness segment_number)
    (is_new m0 KRows).
Proof.
  unfold divide_cell_outside_ring_obj. do 18 frame_step. apply frames_ret. assumption.
Qed.

Lemma fill_gaps_between_cells_obj_frames (m0 : memory) (mask_shapes_overlap : ref) :
  frames m0 (fill_gaps_between_cells_obj M mask_shapes_overlap) (is_new m0 KLabels).
Proof.
  unfold fill_gaps_between_cells_obj. do 7 frame_step. apply frames_alloc.
Qed.

Lemma sk_line_profile_coordinates_obj_frames (m0 : memory) (src dst : ref) (linewidth : nat) :
  frames m0 (sk_line_profile_coordinates_obj src dst linewidth) (is_new m0 KProfile).
Proof. unfold sk_line_profile_coordinates_obj. do 2 frame_step. apply frames_alloc. Qed.

Lemma get_internal_points_obj_frames (m0 : memory) (vert : ref) (line_width : Z) :
  frames m0 (get_internal_points_obj computed_profile vert line_width)
    (fun res => match res with
                | ReturnedStr _ => True
                | ReturnedFrame df_all => is_new m0 KFrame df_all
                end).
Proof.
  unfold get_internal_points_obj. destruct (line_width <? 3)%Z.
  - apply frames_ret. exact I.
  - frame_step.
    eapply frames_bind.
    { apply (frames_for_each m0) with (Q := is_new m0 KFrame). intros i.
      unfold layer_body_obj. do 10 frame_step. apply frames_ret. assumption. }
    intros df_list _.
    eapply frames_bind; [apply frames_for_each; intros df; apply frames_read |].
    intros frames_list _. do 3 frame_step. apply frames_ret. assumption.
Qed.

Lemma create_edge_visual_obj_frames (m0 : memory) (im_size : shape) (vertices orientations : ref)
    (line_width : Z) :
  frames m0
    (create_edge_visual_obj disk_fp dilation draw_line im_size vertices orientations
       line_width)
    (is_new m0 KFloatImage).
Proof.
  unfold create_edge_visual_obj. do 3 frame_step.
  eapply frames_bind.
  { apply (frames_for_each m0) with (Q := fun _ => True). intros io.
    unfold edge_body_obj. do 3 frame_step. apply frames_write. assumption. }
  intros _ _. frame_step. apply frames_alloc.
Qed.

(** C9, amended: every operation of the module other than the Signal
    Interpolator leaves every array that exists when it is called as it is,
    its input arrays among them; the library routines are taken not to write
    into their arguments.  What it writes into are arrays made during the
    call, and where [np.zeros], [.copy()], [np.concatenate], [np.stack],
    [pd.concat] or an arithmetic expression makes the array that is
    returned, that array is a new one.  The Signal Interpolator is the
    exception: it returns the very array it was given, after writing into
    it: every NaN entry of the caller's array is overwritten with a value,
    and the defined entries, the length and all other arrays are left as
    they were. *)
Theorem input_arrays_after_call :
  (forall (vertices_polygons : list ref) (im_shape : shape) (m m' : memory)
          (masks : ref * ref),
      create_mask_from_shapes_obj polygon2mask polygon vertices_polygons im_shape m
      = Ok (masks, m') ->
      preserved m m' /\ is_new m KLabels (fst masks) /\ is_new m KLabels (snd masks)) /\
  (forall (image_actin : ref) (m m' : memory) (image_actin_mask : ref),
      segment_actin_3D_obj intensity_normalization edge_preserving_smoothing_3d
        filament_3d_wrapper image_actin m = Ok (image_actin_mask, m') ->
      preserved m m') /\
  (forall (image_actin_mask_2D : ref) (m m' : memory) (dominant_flow : sample),
      find_fibers_orientation_obj hough_line hough_line_peaks image_actin_mask_2D m
      = Ok (dominant_flow, m') ->
      preserved m m') /\
  (forall (point1 point2 : ref) (m m' : memory) (angle : R),
      calculate_orientation_obj point1 point2 m = Ok (angle, m') ->
      preserved m m') /\
  (forall (actin_im : ref) (m m' : memory) (lines_rad_list : list segment * list R),
      find_fibers_orientation_v2_obj meijering probabilistic_hough_line actin_im m
      = Ok (lines_rad_list, m') ->
      preserved m m') /\
  (forall (vert : ref) (m m' : memory) (my_rad_list : list R),
      orientations_from_vertices_obj vert m = Ok (my_rad_list, m') ->
      preserved m m') /\
  (forall (vert signal_im : ref) (line_width : Z) (m m' : memory)
          (signal_line : list sample),
      signal_from_vertices_obj profile_line vert signal_im line_width m
      = Ok (signal_line, m') ->
      preserved m m') /\
  (forall (cell_image cell_center : ref) (ring_thickness : Z) (segment_number : nat)
          (m m' : memory) (points_array : ref),
      divide_cell_outside_ring_obj disk_fp grey_erosion KMeans_fit_labels
        cell_image cell_center ring_thickness segment_number m = Ok (points_array, m') ->
      preserved m m' /\ is_new m KRows points_array) /\
  (forall (mask_shapes_overlap : ref) (m m' : memory) (im_divided : ref),
      fill_gaps_between_cells_obj M mask_shapes_overlap m = Ok (im_divided, m') ->
      preserved m m' /\ is_new m KLabels im_divided) /\
  (forall (alpha beta : R) (m m' : memory) (index : R),
      calculate_perpendicular_index_obj alpha beta m = Ok (index, m') ->
      preserved m m') /\
  (forall (src dst : ref) (linewidth : nat) (m m' : memory) (coords : ref),
      sk_line_profile_coordinates_obj src dst linewidth m = Ok (coords, m') ->
      preserved m m' /\ is_new m KProfile coords) /\
  (forall (vert : ref) (line_width : Z) (m m' : memory) (res : returned ref),
      get_internal_points_obj computed_profile vert line_width m = Ok (res, m') ->
      preserved m m' /\
      forall df_all : ref, res = ReturnedFrame df_all -> is_new m KFrame df_all) /\
  (forall (im_size : shape) (vertices orientations : ref) (line_width : Z)
          (m m' : memory) (edge_image : ref),
      create_edge_visual_obj disk_fp dilation draw_line im_size vertices orientations
        line_width m = Ok (edge_image, m') ->
      preserved m m') /\
  (forall (signal l' : ref) (h h' : heap (list sample)),
      interpolate_and_fill signal h = Ok (l', h') ->
      l' = signal /\
      (forall k, k <> signal -> store h' k = store h k) /\
      length (store h' signal) = length (store h signal) /\
      (forall i v, nth_error (store h signal) i = Some (Some v) ->
                   nth_error (store h' signal) i = Some (Some v)) /\
      (forall i, nth_error (store h signal) i = Some None ->
                 exists v, nth_error (store h' signal) i = Some (Some v))).
Proof.
  repeat apply conj.
  - intros polys sh m m' masks Hrun.
    exact (frames_run _ _ _ (create_mask_from_shapes_obj_frames m polys sh) _ _ Hrun).
  - intros l m m' x Hrun.
    exact (proj1 (frames_run _ _ _ (segment_actin_3D_obj_frames m l) _ _ Hrun)).
  - intros l m m' x Hrun. unfold find_fibers_orientation_obj, abind, read, ret in Hrun.
    injection Hrun as _ <-. apply preserved_refl.
  - intros l1 l2 m m' x Hrun. unfold calculate_orientation_obj, abind, read, ret in Hrun.
    injection Hrun as _ <-. apply preserved_refl.
  - intros l m m' x Hrun.
    exact (proj1 (frames_run _ _ _ (find_fibers_orientation_v2_obj_frames m l) _ _ Hrun)).
  - intros l m m' x Hrun. unfold orientations_from_vertices_obj, abind, read, ret in Hrun.
    injection Hrun as _ <-. apply preserved_refl.
  - intros l1 l2 w m m' x Hrun. unfold signal_from_vertices_obj, abind, read, ret in Hrun.
    injection Hrun as _ <-. apply preserved_refl.
  - intros l c t n m m' x Hrun.
    exact (frames_run _ _ _ (divide_cell_outside_ring_obj_frames m l c t n) _ _ Hrun).
  - intros l m m' x Hrun.
    exact (frames_run _ _ _ (fill_gaps_between_cells_obj_frames m l) _ _ Hrun).
  - intros alpha beta m m' x Hrun. unfold calculate_perpendicular_index_obj, ret in Hrun.
    injection Hrun as _ <-. apply preserved_refl.
  - intros src dst w m m' x Hrun.
    exact (frames_run _ _ _ (sk_line_profile_coordinates_obj_frames m src dst w) _ _ Hrun).
  - intros l w m m' res Hrun.
    destruct (frames_run _ _ _ (get_internal_points_obj_frames m l w) _ _ Hrun) as [Hm Hres].
    split; [exact Hm |]. intros df_all ->. exact Hres.
  - intros sh l o w m m' x Hrun.
    exact (proj1 (frames_run _ _ _ (create_edge_visual_obj_frames m sh l o w) _ _ Hrun)).
  - intros signal l' h h'. apply interpolate_and_fill_writes.
Qed.

End ArrayObjectsFacts.

(** C9 as the specification states it fails: the Signal
    Interpolator overwrites the NaN entry of the array it was given. *)
Lemma interpolate_and_fill_mutates_input :
  exists h',
    interpolate_and_fill 0 (heap_of [Some 1%R; None; Some 3%R]) = Ok (0%nat, h') /\
    store h' 0%nat <> store (heap_of [Some 1%R; None; Some 3%R]) 0%nat.
Proof.
  destruct interpolate_1_nan_3 as [h' [Hrun Hres]].
  exists h'. split; [exact Hrun |].
  rewrite Hres. cbn. discriminate.
Qed.



Lemma input_arrays_after_call_witness :
  match create_mask_from_shapes_obj whole_image (fun _ _ => Ok []) [0%nat] (2, 2)%nat
          (memory_of (arrays_with mask_with_hole)) with
  | Ok (masks, m') =>
      store (m' KLabels) 0%nat = mask_with_hole /\
      store (m' KArray) 0%nat = mk_nd_array [] [] /\
      (1 <= fst masks)%nat /\ (1 <= snd masks)%nat
  | Raise _ => False
  end /\
  match fill_gaps_between_cells_obj Skimage.model 0 (memory_of (arrays_with mask_with_hole)) with
  | Ok (im_divided, m') => store (m' KLabels) 0%nat = mask_with_hole /\ (1 <= im_divided)%nat
  | Raise _ => False
  end /\
  match interpolate_and_fill 0 (heap_of [Some 1%R; None; Some 3%R]) with
  | Ok (l', h') => l' = 0%nat /\ length (store h' 0%nat) = 3%nat
  | Raise _ => False
  end.
Proof.
  pose proof
    (input_arrays_after_call whole_image (fun _ _ => Ok []) (fun v _ => v) (fun v => v)
       (fun v _ => v) unit (fun _ _ => (tt, [], [])) (fun _ _ _ => ([], [], []))
       (fun im => im) (fun _ => []) (fun _ _ _ _ => []) (ndarray bool) Skimage.disk
       Skimage.grey_erosion round_robin_labels Skimage.model sk_line_profile_coordinates
       (fun im _ => im) end_points_line)
    as [Hmask [_ [_ [_ [_ [_ [_ [_ [Hfill [_ [_ [_ [_ Hinterp]]]]]]]]]]]]].
  split; [| split].
  - destruct (create_mask_from_shapes_obj _ _ _ _ _) as [[masks m'] | e] eqn:Hrun.
    + destruct (Hmask _ _ _ _ _ Hrun) as [Hkept [Hnew1 Hnew2]].
      repeat apply conj.
      * apply (proj2 (Hkept KLabels) 0%nat). cbn. lia.
      * apply (proj2 (Hkept KArray) 0%nat). cbn. lia.
      * exact Hnew1.
      * exact Hnew2.
    + vm_compute in Hrun. discriminate Hrun.
  - destruct (fill_gaps_between_cells_obj _ _ _) as [[im_divided m'] | e] eqn:Hrun.
    + destruct (Hfill _ _ _ _ Hrun) as [Hkept Hnew].
      split; [apply (proj2 (Hkept KLabels) 0%nat); cbn; lia | exact Hnew].
    + vm_compute in Hrun. discriminate Hrun.
  - destruct (interpolate_and_fill 0 (heap_of [Some 1%R; None; Some 3%R]))
      as [[l' h'] | e] eqn:Hrun.
    + destruct (Hinterp 0%nat l' _ h' Hrun) as [Hl [_ [Hlen _]]].
      split; [exact Hl | exact Hlen].
    + cbn in Hrun. discriminate Hrun.
Defined.

(** ** Mask Builder *)

Lemma map_all_false {A : Type} (f : A -> bool) (l : list A) :
  (forall a, In a l -> f a = false) -> map f l = repeat false (length l).
Proof.
  induction l as [| a l IH]; intros H; cbn; [reflexivity |].
  rewrite (H a (or_introl eq_refl)). f_equal. apply IH.
  intros b Hb. apply H. right. exact Hb.
Qed.

Section MaskBuilderFacts.

Variable Polygon : Type.
Variable ndim : Polygon -> nat.
Variable second_axis : Polygon -> nat.
Variable polygon2mask : shape -> Polygon -> ndarray bool.
Variable polygon : Polygon -> shape -> result (list (Z * Z)).

Local Abbreviation body := (loop_body ndim second_axis polygon2mask polygon).
Local Abbreviation run := (loop ndim second_axis polygon2mask polygon).
Local Abbreviation build := (create_mask_from_shapes ndim second_axis polygon2mask polygon).

Lemma item_accumulate (sh : shape) (i : Z) (ms : ndarray bool) (m : ndarray Z) (r c : Z) :
  in_bounds sh r c = true ->
  item 0%Z (accumulate sh i ms m) r c = pixel_step i (item false ms r c) (item 0%Z m r c).
Proof.
  intros Hb. unfold accumulate, update_where, gt_scalar, pixel_step.
  rewrite !item_tabulate by exact Hb.
  destruct (item false ms r c); reflexivity.
Qed.

Lemma body_2d (sh : shape) (i : Z) (poly : Polygon) (st : locals) :
  (ndim poly <= 2)%nat ->
  body sh i poly st
  = Ok (mk_locals (accumulate sh i (polygon2mask sh poly) (mask st))
          (mask_coord st) (Some (polygon2mask sh poly))).
Proof.
  intros H. unfold loop_body.
  replace (2 <? ndim poly)%nat with false by (symmetry; apply Nat.ltb_ge; exact H).
  reflexivity.
Qed.

Lemma body_3d (sh : shape) (i : Z) (poly : Polygon) (st : locals)
    (coords : list (Z * Z)) :
  (2 < ndim poly)%nat -> (3 <= second_axis poly)%nat ->
  polygon poly sh = Ok coords ->
  body sh i poly st
  = match mask_single st with
    | None => Raise UnboundLocalError
    | Some ms =>
        Ok (mk_locals (accumulate sh i ms (mask st)) (Some coords) (Some ms))
    end.
Proof.
  intros H Hax Hc. unfold loop_body.
  replace (2 <? ndim poly)%nat with true by (symmetry; apply Nat.ltb_lt; exact H).
  replace (second_axis poly <? 3)%nat with false by (symmetry; apply Nat.ltb_ge; exact Hax).
  rewrite Hc. cbn. destruct (mask_single st); reflexivity.
Qed.

Lemma body_3d_index_error (sh : shape) (i : Z) (poly : Polygon) (st : locals) :
  (2 < ndim poly)%nat -> (second_axis poly < 3)%nat ->
  body sh i poly st = Raise IndexError.
Proof.
  intros H Hax. unfold loop_body.
  replace (2 <? ndim poly)%nat with true by (symmetry; apply Nat.ltb_lt; exact H).
  replace (second_axis poly <? 3)%nat with true by (symmetry; apply Nat.ltb_lt; exact Hax).
  reflexivity.
Qed.

Lemma body_3d_rasterizer_error (sh : shape) (i : Z) (poly : Polygon) (st : locals)
    (e : exn) :
  (2 < ndim poly)%nat -> (3 <= second_axis poly)%nat ->
  polygon poly sh = Raise e ->
  body sh i poly st = Raise e.
Proof.
  intros H Hax He. unfold loop_body.
  replace (2 <? ndim poly)%nat with true by (symmetry; apply Nat.ltb_lt; exact H).
  replace (second_axis poly <? 3)%nat with false by (symmetry; apply Nat.ltb_ge; exact Hax).
  rewrite He. reflexivity.
Qed.

Lemma run_app (sh : shape) (l1 l2 : list Polygon) (i : Z) (st : locals) :
  run sh i (l1 ++ l2) st
  = (st' <- run sh i l1 st ;; run sh (i + Z.of_nat (length l1)) l2 st').
Proof.
  revert i st. induction l1 as [| p l1 IH]; intros i st; cbn [app loop length].
  - cbn. now rewrite Z.add_0_r.
  - destruct (body sh i p st) as [st1 |]; cbn [bind]; [| reflexivity].
    rewrite IH. replace (i + 1 + Z.of_nat (length l1))%Z
      with (i + Z.of_nat (S (length l1)))%Z by lia.
    reflexivity.
Qed.

Lemma body_agree (sh : shape) (i : Z) (poly : Polygon) (st st' : locals) :
  agree st st' -> agree_result (body sh i poly st) (body sh i poly st').
Proof.
  intros [Hm Hs]. unfold loop_body.
  destruct (2 <? ndim poly)%nat.
  - destruct (second_axis poly <? 3)%nat; [reflexivity |].
    destruct (polygon poly sh) as [coords | e]; [| reflexivity].
    cbn [bind mask mask_single mask_coord].
    rewrite <- Hs, <- Hm. destruct (mask_single st); cbn; [split |]; reflexivity.
  - cbn [bind mask mask_single mask_coord]. rewrite <- Hm. cbn. split; reflexivity.
Qed.

Lemma run_agree (sh : shape) (polys : list Polygon) (i : Z) (st st' : locals) :
  agree st st' -> agree_result (run sh i polys st) (run sh i polys st').
Proof.
  revert i st st'. induction polys as [| p polys IH]; intros i st st' H; cbn [loop].
  - exact H.
  - pose proof (body_agree sh i p st st' H) as Hb.
    destruct (body sh i p st) as [s1 |], (body sh i p st') as [s2 |];
      cbn in Hb |- *; try contradiction; auto.
Qed.

(** A run of polygons that take the 3D branch, each with a rasterizer call
    that returns, after the two-dimensional polygon [q]: the loop does what
    it does when each of them is [q] again. *)
Local Abbreviation returning_3d sh :=
  (fun p : Polygon =>
     (2 < ndim p)%nat /\ (3 <= second_axis p)%nat /\
     exists coords, polygon p sh = Ok coords).

Lemma run_3d_as_2d (sh : shape) (q : Polygon) (mids : list Polygon) (i : Z)
    (st st' : locals) :
  (ndim q <= 2)%nat ->
  Forall (returning_3d sh) mids ->
  agree st st' ->
  mask_single st = Some (polygon2mask sh q) ->
  exists s s',
    run sh i mids st = Ok s /\
    run sh i (repeat q (length mids)) st' = Ok s' /\
    agree s s' /\ mask_single s = Some (polygon2mask sh q).
Proof.
  intros Hq Hmids. revert i st st'.
  induction Hmids as [| p mids [Hp [Hax [coords Hc]]] _ IH]; intros i st st' Hag Hs.
  - exists st, st'. cbn. auto.
  - cbn [length repeat loop].
    rewrite (body_3d sh i p st coords Hp Hax Hc), Hs.
    rewrite body_2d by exact Hq. cbn [bind].
    apply IH; [| reflexivity].
    destruct Hag as [Hm _]. split; cbn [mask mask_single]; [rewrite Hm |]; reflexivity.
Qed.

Lemma build_agree (sh : shape) (l1 l2 : list Polygon) :
  agree_result
    (run sh 0 l1 (mk_locals (zeros sh) None None))
    (run sh 0 l2 (mk_locals (zeros sh) None None)) ->
  build l1 sh = build l2 sh.
Proof.
  unfold create_mask_from_shapes.
  destruct (run sh 0 l1 _) as [s1 |], (run sh 0 l2 _) as [s2 |]; cbn;
    try contradiction.
  - intros [Hm _]. now rewrite Hm.
  - intros ->. reflexivity.
Qed.

(** C1: three polygons over the same pixel.  The second iteration marks the
    pixel with 255, the third adds 3 to it, which wraps to 2 in uint8 and
    is not above 3, so the pixel ends as 2 in both masks instead of 255 and
    0. *)
Theorem triple_overlap_wraps (p0 p1 p2 : Polygon) (sh : shape) (r c : Z) :
  (ndim p0 <= 2)%nat -> (ndim p1 <= 2)%nat -> (ndim p2 <= 2)%nat ->
  in_bounds sh r c = true ->
  item false (polygon2mask sh p0) r c = true ->
  item false (polygon2mask sh p1) r c = true ->
  item false (polygon2mask sh p2) r c = true ->
  exists mask_shapes_overlap mask_shapes : ndarray Z,
    build [p0; p1; p2] sh = Ok (mask_shapes_overlap, mask_shapes) /\
    item 0%Z mask_shapes_overlap r c = 2%Z /\
    item 0%Z mask_shapes r c = 2%Z.
Proof.
  intros H0 H1 H2 Hb C0 C1 C2. unfold create_mask_from_shapes. cbn [loop].
  rewrite body_2d by exact H0. cbn [bind].
  rewrite body_2d by exact H1. cbn [bind].
  rewrite body_2d by exact H2. cbn [bind mask].
  eexists. eexists. split; [reflexivity |].
  assert (Hov : item 0%Z
            (accumulate sh (0 + 1 + 1) (polygon2mask sh p2)
               (accumulate sh (0 + 1) (polygon2mask sh p1)
                  (accumulate sh 0 (polygon2mask sh p0) (zeros sh)))) r c = 2%Z).
  { rewrite !item_accumulate by exact Hb. rewrite C0, C1, C2.
    unfold zeros. rewrite item_tabulate by exact Hb. reflexivity. }
  split; [exact Hov |].
  unfold update_where, eq_scalar, copy. rewrite !item_tabulate by exact Hb.
  rewrite Hov. reflexivity.
Qed.

(** The loop on two-dimensional polygons, pixel by pixel. *)
Lemma run_2d_pixel (sh : shape) (polys : list Polygon) (i : Z) (st : locals) :
  Forall (fun p => (ndim p <= 2)%nat) polys ->
  exists st',
    run sh i polys st = Ok st' /\
    forall r c,
      in_bounds sh r c = true ->
      item 0%Z (mask st') r c
      = pixel_fold i (map (fun p => item false (polygon2mask sh p) r c) polys)
          (item 0%Z (mask st) r c).
Proof.
  intros H. revert i st. induction H as [| p polys Hp _ IH]; intros i st.
  - exists st. split; [reflexivity | intros; reflexivity].
  - cbn [loop]. rewrite body_2d by exact Hp. cbn [bind].
    destruct (IH (i + 1)%Z
                (mk_locals (accumulate sh i (polygon2mask sh p) (mask st))
                   (mask_coord st) (Some (polygon2mask sh p)))) as [st' [Hrun Hpix]].
    exists st'. split; [exact Hrun |]. intros r c Hb.
    rewrite Hpix by exact Hb. cbn [mask map pixel_fold].
    rewrite item_accumulate by exact Hb. reflexivity.
Qed.

Lemma pixel_fold_app (i : Z) (l1 l2 : list bool) (v : Z) :
  pixel_fold i (l1 ++ l2) v
  = pixel_fold (i + Z.of_nat (length l1)) l2 (pixel_fold i l1 v).
Proof.
  revert i v. induction l1 as [| b l1 IH]; intros i v; cbn [app pixel_fold length].
  - now rewrite Z.add_0_r.
  - rewrite IH. f_equal. lia.
Qed.

Lemma pixel_fold_uncovered (i : Z) (m : nat) (v : Z) :
  (v <= i + 1)%Z -> pixel_fold i (repeat false m) v = v.
Proof.
  revert i. induction m as [| m IH]; intros i Hv; cbn [repeat pixel_fold]; [reflexivity |].
  assert (Hs : pixel_step i false v = v).
  { unfold pixel_step. destruct (Z.ltb_spec (i + 1) v); [lia | reflexivity]. }
  rewrite Hs. apply IH. lia.
Qed.

Lemma pixel_fold_sentinel (i : Z) (m : nat) :
  pixel_fold i (repeat false m) 255 = 255%Z.
Proof.
  revert i. induction m as [| m IH]; intros i; cbn [repeat pixel_fold]; [reflexivity |].
  assert (Hs : pixel_step i false 255 = 255%Z).
  { unfold pixel_step. destruct (i + 1 <? 255)%Z; reflexivity. }
  rewrite Hs. apply IH.
Qed.

(** A pixel under exactly one polygon, the one of index [k], ends with the
    label [k+1] as long as that label is below the sentinel. *)
Lemma pixel_fold_single (k m : nat) :
  (Z.of_nat k + 1 < 255)%Z ->
  pixel_fold 0 (repeat false k ++ true :: repeat false m) 0 = (Z.of_nat k + 1)%Z.
Proof.
  intros Hk. rewrite pixel_fold_app, repeat_length.
  rewrite pixel_fold_uncovered by lia. cbn [pixel_fold].
  assert (Hs : pixel_step (0 + Z.of_nat k) true 0 = (Z.of_nat k + 1)%Z).
  { unfold pixel_step, uint8. rewrite Z.mod_small by lia.
    destruct (Z.ltb_spec (0 + Z.of_nat k + 1) (0 + (0 + Z.of_nat k + 1))); lia. }
  rewrite Hs. apply pixel_fold_uncovered. lia.
Qed.

(** A pixel under exactly two polygons, of indices [j] and [j+1+d], ends
    with the sentinel as long as the sum of the two labels fits in 8
    bits. *)
Lemma pixel_fold_double (j d m : nat) :
  (2 * Z.of_nat j + Z.of_nat d + 3 <= 255)%Z ->
  pixel_fold 0 (repeat false j ++ true :: repeat false d ++ true :: repeat false m) 0
  = 255%Z.
Proof.
  intros Hsum. rewrite pixel_fold_app, repeat_length.
  rewrite pixel_fold_uncovered by lia. cbn [pixel_fold].
  assert (Hs : pixel_step (0 + Z.of_nat j) true 0 = (Z.of_nat j + 1)%Z).
  { unfold pixel_step, uint8. rewrite Z.mod_small by lia.
    destruct (Z.ltb_spec (0 + Z.of_nat j + 1) (0 + (0 + Z.of_nat j + 1))); lia. }
  rewrite Hs, pixel_fold_app, repeat_length.
  rewrite pixel_fold_uncovered by lia. cbn [pixel_fold].
  assert (Hs2 : pixel_step (0 + Z.of_nat j + 1 + Z.of_nat d) true (Z.of_nat j + 1) = 255%Z).
  { unfold pixel_step, uint8. rewrite Z.mod_small by lia.
    destruct (Z.ltb_spec (0 + Z.of_nat j + 1 + Z.of_nat d + 1)
                (Z.of_nat j + 1 + (0 + Z.of_nat j + 1 + Z.of_nat d + 1))); lia. }
  rewrite Hs2. apply pixel_fold_sentinel.
Qed.

(** The two masks at a pixel, from the selections of that pixel. *)
Lemma build_2d_pixel (polys : list Polygon) (sh : shape) (r c : Z) :
  Forall (fun p => (ndim p <= 2)%nat) polys ->
  in_bounds sh r c = true ->
  exists mask_shapes_overlap mask_shapes : ndarray Z,
    build polys sh = Ok (mask_shapes_overlap, mask_shapes) /\
    item 0%Z mask_shapes_overlap r c
    = pixel_fold 0 (map (fun p => item false (polygon2mask sh p) r c) polys) 0 /\
    item 0%Z mask_shapes r c
    = (if (item 0%Z mask_shapes_overlap r c =? 255)%Z then 0%Z
       else item 0%Z mask_shapes_overlap r c).
Proof.
  intros H2d Hb. unfold create_mask_from_shapes.
  destruct (run_2d_pixel sh polys 0 (mk_locals (zeros sh) None None) H2d)
    as [st' [Hrun Hpix]].
  rewrite Hrun. cbn [bind]. eexists. eexists. split; [reflexivity |]. split.
  - rewrite Hpix by exact Hb. cbn [mask]. unfold zeros.
    rewrite item_tabulate by exact Hb. reflexivity.
  - unfold update_where, eq_scalar, copy. rewrite !item_tabulate by exact Hb.
    reflexivity.
Qed.

Lemma replace_3d_by_2d (pre mids post : list Polygon) (q : Polygon) (sh : shape) :
  (ndim q <= 2)%nat ->
  Forall (returning_3d sh) mids ->
  build (pre ++ q :: mids ++ post) sh
  = build (pre ++ q :: repeat q (length mids) ++ post) sh.
Proof.
  intros Hq Hmids. apply build_agree. rewrite !run_app.
  destruct (run sh 0 pre _) as [s0 |]; cbn [bind]; [| reflexivity].
  cbn [loop]. rewrite body_2d by exact Hq. cbn [bind]. rewrite !run_app.
  match goal with
  | |- context [run sh ?j mids ?st] =>
      destruct (run_3d_as_2d sh q mids j st st Hq Hmids) as [s [s' [Hs [Hs' [Hag _]]]]];
        [split; reflexivity | reflexivity |]
  end.
  rewrite Hs, Hs'. cbn [bind]. rewrite repeat_length. apply run_agree. exact Hag.
Qed.

Lemma run_2d_then_raise (pre post : list Polygon) (poly : Polygon) (sh : shape) (e : exn) :
  Forall (fun p => (ndim p <= 2)%nat) pre ->
  (forall i st, body sh i poly st = Raise e) ->
  build (pre ++ poly :: post) sh = Raise e.
Proof.
  intros Hpre Hbody. unfold create_mask_from_shapes. rewrite run_app.
  destruct (run_2d_pixel sh pre 0 (mk_locals (zeros sh) None None) Hpre) as [st [Hrun _]].
  rewrite Hrun. cbn [bind loop]. rewrite Hbody. reflexivity.
Qed.

(** C10, amended: a polygon that takes the 3D branch is never rasterized
    into the accumulation.  The call fails with IndexError when the second
    axis of the polygon has fewer than three entries, and with the error of
    the rasterizer when that raises.  Only when the rasterizer returns is
    the accumulation reached: as the first polygon the 3D polygon then makes
    the function fail with an unbound local variable; after the
    two-dimensional polygon [q] it adds its label onto the mask of [q]: a
    pixel that [q] alone covers becomes the sentinel 255 and is removed, a
    pixel that no two-dimensional polygon covers stays 0 whatever the
    coordinates of the 3D polygon are; and in general the function returns
    what it returns when every such polygon is replaced by [q]. *)
Theorem three_d_branch_reuses_mask_single :
  (forall (pre post : list Polygon) (poly : Polygon) (sh : shape),
      Forall (fun p => (ndim p <= 2)%nat) pre ->
      (2 < ndim poly)%nat -> (second_axis poly < 3)%nat ->
      build (pre ++ poly :: post) sh = Raise IndexError) /\
  (forall (pre post : list Polygon) (poly : Polygon) (sh : shape) (e : exn),
      Forall (fun p => (ndim p <= 2)%nat) pre ->
      (2 < ndim poly)%nat -> (3 <= second_axis poly)%nat ->
      polygon poly sh = Raise e ->
      build (pre ++ poly :: post) sh = Raise e) /\
  (forall (poly : Polygon) (rest : list Polygon) (sh : shape) (coords : list (Z * Z)),
      (2 < ndim poly)%nat -> (3 <= second_axis poly)%nat ->
      polygon poly sh = Ok coords ->
      build (poly :: rest) sh = Raise UnboundLocalError) /\
  (forall (pre post : list Polygon) (q poly : Polygon) (sh : shape)
          (coords : list (Z * Z)),
      Forall (fun p => (ndim p <= 2)%nat) (pre ++ q :: post) ->
      (2 < ndim poly)%nat -> (3 <= second_axis poly)%nat ->
      polygon poly sh = Ok coords ->
      (2 * Z.of_nat (length pre) + 3 <= 255)%Z ->
      exists mask_shapes_overlap mask_shapes : ndarray Z,
        build (pre ++ q :: poly :: post) sh = Ok (mask_shapes_overlap, mask_shapes) /\
        forall r c,
          in_bounds sh r c = true ->
          (forall x, In x (pre ++ post) -> item false (polygon2mask sh x) r c = false) ->
          (item false (polygon2mask sh q) r c = true ->
           item 0%Z mask_shapes_overlap r c = 255%Z /\ item 0%Z mask_shapes r c = 0%Z) /\
          (item false (polygon2mask sh q) r c = false ->
           item 0%Z mask_shapes_overlap r c = 0%Z /\ item 0%Z mask_shapes r c = 0%Z)) /\
  (forall (pre mids post : list Polygon) (q : Polygon) (sh : shape),
      (ndim q <= 2)%nat ->
      Forall (returning_3d sh) mids ->
      build (pre ++ q :: mids ++ post) sh
      = build (pre ++ q :: repeat q (length mids) ++ post) sh).
Proof.
  split; [| split; [| split; [| split]]].
  - intros pre post poly sh Hpre H Hax. apply run_2d_then_raise; [exact Hpre |].
    intros i st. apply body_3d_index_error; assumption.
  - intros pre post poly sh e Hpre H Hax He. apply run_2d_then_raise; [exact Hpre |].
    intros i st. apply body_3d_rasterizer_error; assumption.
  - intros poly rest sh coords H Hax Hc. unfold create_mask_from_shapes. cbn [loop].
    rewrite (body_3d sh 0 poly _ coords H Hax Hc). reflexivity.
  - intros pre post q poly sh coords H2d H Hax Hc Hsum.
    assert (Hq : (ndim q <= 2)%nat).
    { rewrite Forall_forall in H2d. apply H2d, in_or_app. right. left. reflexivity. }
    assert (H2d' : Forall (fun p => (ndim p <= 2)%nat) (pre ++ q :: q :: post)).
    { rewrite Forall_forall in *. intros x Hx. apply in_app_or in Hx.
      destruct Hx as [Hx | [<- | [<- | Hx]]]; [| exact Hq | exact Hq |].
      - apply H2d, in_or_app. left. exact Hx.
      - apply H2d, in_or_app. right. right. exact Hx. }
    pose proof (replace_3d_by_2d pre [poly] post q sh Hq) as Hrep.
    cbn [app length repeat] in Hrep. rewrite Hrep.
    2: { constructor; [| constructor]. split; [exact H |]. split; [exact Hax |].
         exists coords. exact Hc. }
    unfold create_mask_from_shapes.
    destruct (run_2d_pixel sh (pre ++ q :: q :: post) 0 (mk_locals (zeros sh) None None) H2d')
      as [st' [Hrun Hpix]].
    rewrite Hrun. cbn [bind]. eexists. eexists. split; [reflexivity |].
    intros r c Hb Hothers.
    assert (Hov : item 0%Z (mask st') r c
                  = pixel_fold 0
                      (repeat false (length pre)
                       ++ item false (polygon2mask sh q) r c
                          :: item false (polygon2mask sh q) r c
                          :: repeat false (length post)) 0).
    { rewrite Hpix by exact Hb. cbn [mask]. unfold zeros.
      rewrite item_tabulate by exact Hb. rewrite map_app. cbn [map].
      rewrite (map_all_false (fun p => item false (polygon2mask sh p) r c) pre)
        by (intros x Hx; apply Hothers, in_or_app; left; exact Hx).
      rewrite (map_all_false (fun p => item false (polygon2mask sh p) r c) post)
        by (intros x Hx; apply Hothers, in_or_app; right; exact Hx).
      reflexivity. }
    assert (Hfree : item 0%Z
                      (update_where sh (eq_scalar sh (copy (mask st')) 255)
                         (fun _ => 0%Z) (copy (mask st'))) r c
                    = if (item 0%Z (mask st') r c =? 255)%Z then 0%Z
                      else item 0%Z (mask st') r c).
    { unfold update_where, eq_scalar, copy. rewrite !item_tabulate by exact Hb.
      reflexivity. }
    split; intros Hcov; rewrite Hfree, Hov, Hcov.
    + pose proof (pixel_fold_double (length pre) 0 (length post)) as Hd.
      cbn [repeat app] in Hd. rewrite Hd by lia. split; reflexivity.
    + change (repeat false (length pre) ++ false :: false :: repeat false (length post))
        with (repeat false (length pre) ++ repeat false (2 + length post)).
      rewrite <- repeat_app, pixel_fold_uncovered by lia. split; reflexivity.
  - intros pre mids post q sh Hq Hmids. apply replace_3d_by_2d; assumption.
Qed.


End MaskBuilderFacts.

Lemma triple_overlap_wraps_witness :
  exists mask_shapes_overlap mask_shapes : ndarray Z,
    create_mask_from_shapes rect_ndim rect_second_axis rect_fill rect_rasterizer
      [square_2d; square_2d; square_2d] (3, 3)%nat
    = Ok (mask_shapes_overlap, mask_shapes) /\
    item 0%Z mask_shapes_overlap 0 0 = 2%Z /\
    item 0%Z mask_shapes 0 0 = 2%Z.
Proof.
  apply (triple_overlap_wraps rect_polygon rect_ndim rect_second_axis rect_fill rect_rasterizer
           square_2d square_2d square_2d (3, 3)%nat 0 0);
    try (cbn; lia); reflexivity.
Defined.

(** C10 as it is stated fails: a first polygon of shape (4, 2, 1) takes the
    3D branch, and the call ends with IndexError at the indexing of its
    second axis, not with an unbound local variable. *)
Lemma three_d_first_polygon_index_error :
  create_mask_from_shapes rect_ndim rect_second_axis rect_fill rect_rasterizer
    [square_3d; row_2d] (3, 3)%nat
  = Raise IndexError /\
  create_mask_from_shapes rect_ndim rect_second_axis rect_fill rect_rasterizer
    [square_3d; row_2d] (3, 3)%nat
  <> Raise UnboundLocalError.
Proof. split; [reflexivity | discriminate]. Qed.

Lemma three_d_branch_reuses_mask_single_witness :
  create_mask_from_shapes rect_ndim rect_second_axis rect_fill rect_rasterizer
    ([] ++ square_3d :: [row_2d]) (3, 3)%nat
  = Raise IndexError /\
  exists mask_shapes_overlap mask_shapes : ndarray Z,
    create_mask_from_shapes rect_ndim (fun _ => 3%nat) rect_fill rect_rasterizer
      ([] ++ square_2d :: square_3d :: [row_2d]) (3, 3)%nat
    = Ok (mask_shapes_overlap, mask_shapes) /\
    item 0%Z mask_shapes_overlap 0 0 = 255%Z /\ item 0%Z mask_shapes 0 0 = 0%Z.
Proof.
  split.
  - apply (proj1 (three_d_branch_reuses_mask_single
                    rect_polygon rect_ndim rect_second_axis rect_fill rect_rasterizer)).
    + constructor.
    + unfold square_3d. cbn. lia.
    + unfold rect_second_axis. lia.
  - destruct (proj1 (proj2 (proj2 (proj2
                (three_d_branch_reuses_mask_single
                   rect_polygon rect_ndim (fun _ => 3%nat) rect_fill rect_rasterizer))))
                [] [row_2d] square_2d square_3d (3, 3)%nat
                (rect_coords square_3d (3, 3)%nat))
      as [ov [free [Hrun Hpix]]].
    + repeat constructor; cbn; lia.
    + unfold square_3d. cbn. lia.
    + lia.
    + reflexivity.
    + cbn [length]. lia.
    + exists ov, free. split; [exact Hrun |].
      apply (Hpix 0%Z 0%Z).
      * reflexivity.
      * intros x [<- | []]. vm_compute. reflexivity.
      * vm_compute. reflexivity.
Defined.

(** ** Interior-point sampling *)

(** C8 as the specification states it fails: with a line width
    of 2 the call does not raise; it returns a string. *)
Lemma get_internal_points_returns_string :
  get_internal_points (fun _ _ => @Raise unit ValueError) unit_square 2
  = Ok (ReturnedStr "Error - line width has to be at least 3.") /\
  ~ (exists e : exn,
        get_internal_points (fun _ _ => @Raise unit ValueError) unit_square 2 = Raise e).
Proof.
  split; [reflexivity |]. intros [e H]. discriminate H.
Qed.

(** C8, amended: for a line width below 3 the call returns at once, without
    sampling anything and without raising, the ordinary string value
    'Error - line width has to be at least 3.'. *)
Theorem get_internal_points_guard (DataFrame : Type)
    (sample_layers : list point -> Z -> result DataFrame)
    (vert : list point) (line_width : Z) :
  (line_width < 3)%Z ->
  get_internal_points sample_layers vert line_width
  = Ok (ReturnedStr "Error - line width has to be at least 3.").
Proof.
  intros H. unfold get_internal_points.
  replace (line_width <? 3)%Z with true by (symmetry; apply Z.ltb_lt; exact H).
  reflexivity.
Qed.

Lemma get_internal_points_guard_witness :
  get_internal_points (fun _ _ => @Raise unit ValueError) unit_square 1
  = Ok (ReturnedStr "Error - line width has to be at least 3.").
Proof.
  apply (get_internal_points_guard unit (fun _ _ => Raise ValueError) unit_square 1).
  lia.
Defined.

(** ** Gap/Overlap Resolver *)

Lemma shape_of_tabulate {A : Type} (sh : shape) (f : Z -> Z -> A) :
  (0 < fst sh)%nat -> shape_of (tabulate sh f) = sh.
Proof.
  destruct sh as [n m]. cbn [fst]. intros Hn.
  unfold shape_of, tabulate. cbn [fst snd].
  rewrite length_map, length_range. f_equal.
  destruct n as [| n]; [lia |]. cbn. now rewrite length_map, length_range.
Qed.

Lemma in_bounds_rows (sh : shape) (r c : Z) :
  in_bounds sh r c = true -> (0 < fst sh)%nat.
Proof. intros H. apply in_bounds_spec in H. lia. Qed.

Lemma pixels_nonempty (sh : shape) (r c : Z) :
  in_bounds sh r c = true -> pixels sh <> [].
Proof.
  intros H Hnil. apply in_pixels in H. rewrite Hnil in H. contradiction.
Qed.

Lemma np_max_ok (a : ndarray Z) :
  pixels (shape_of a) <> [] -> exists n, np_max a = Ok n.
Proof.
  intros H. unfold np_max. destruct (pixels (shape_of a)); [contradiction |].
  eexists. reflexivity.
Qed.

Lemma or_positive_item (sh : shape) (b : ndarray bool) (a : ndarray Z) (r c : Z) :
  in_bounds sh r c = true ->
  item false (or_positive sh b a) r c
  = if (0 <? item 0%Z a r c)%Z then true
    else if (item 0%Z a r c =? 0)%Z then item false b r c
    else false.
Proof.
  intros Hb. unfold or_positive. rewrite item_tabulate by exact Hb.
  set (v := item 0%Z a r c). set (x := item false b r c).
  assert (Hx : (0 <= b2z x)%Z) by (destruct x; cbn; lia).
  destruct (Z.ltb_spec 0 v) as [Hv | Hv].
  - apply Z.ltb_lt.
    assert (0 <= Z.lor (b2z x) v)%Z by (apply Z.lor_nonneg; lia).
    assert (Z.lor (b2z x) v <> 0)%Z by (rewrite Z.lor_eq_0_iff; lia).
    lia.
  - destruct (Z.eqb_spec v 0) as [-> | Hne].
    + rewrite Z.lor_0_r. destruct x; reflexivity.
    + apply Z.ltb_ge.
      assert (Z.lor (b2z x) v < 0)%Z by (apply Z.lor_neg; lia).
      lia.
Qed.

Lemma sum_zero (A : Type) (f : A -> Z) (l : list A) :
  (forall a, In a l -> f a = 0%Z) -> fold_right Z.add 0%Z (map f l) = 0%Z.
Proof.
  induction l as [| a l IH]; intros H; cbn; [reflexivity |].
  rewrite (H a) by (left; reflexivity). rewrite IH; [reflexivity |].
  intros b Hb. apply H. right. exact Hb.
Qed.

Section GapResolverFacts.

Variable M : morphology.

(** A pixel with a label other than the sentinel gets no correction,
    whatever the morphological operators do. *)
Lemma clean_label_not_corrected (mask_shapes_overlap : ndarray Z) (r c : Z) :
  in_bounds (shape_of mask_shapes_overlap) r c = true ->
  (0 < item 0%Z mask_shapes_overlap r c)%Z ->
  item 0%Z mask_shapes_overlap r c <> 255%Z ->
  exists im_divided,
    fill_gaps_between_cells M mask_shapes_overlap = Ok im_divided /\
    item 0%Z im_divided r c = 0%Z.
Proof.
  intros Hb Hpos Hclean.
  unfold fill_gaps_between_cells, divide_contested.
  set (sh := shape_of mask_shapes_overlap) in *.
  destruct (np_max_ok (update_where sh (eq_scalar sh (copy mask_shapes_overlap) 255)
                         (fun _ => 0%Z) (copy mask_shapes_overlap))) as [n Hn].
  { unfold update_where. rewrite shape_of_tabulate by (eapply in_bounds_rows; eauto).
    eapply pixels_nonempty; eauto. }
  rewrite Hn. cbn [bind]. eexists. split; [reflexivity |].
  rewrite item_tabulate by exact Hb.
  rewrite (item_tabulate 0%Z sh _ r c Hb).
  rewrite or_positive_item by exact Hb.
  replace (0 <? item 0%Z mask_shapes_overlap r c)%Z with true
    by (symmetry; apply Z.ltb_lt; exact Hpos).
  replace (item 0%Z mask_shapes_overlap r c =? 255)%Z with false
    by (symmetry; apply Z.eqb_neq; exact Hclean).
  cbn. lia.
Qed.

Lemma array_ext {A : Type} (d : A) (sh : shape) (f g : Z -> Z -> A) :
  (forall r c, in_bounds sh r c = true ->
               item d (tabulate sh f) r c = item d (tabulate sh g) r c) ->
  tabulate sh f = tabulate sh g.
Proof.
  intros H. apply tabulate_ext. intros r c Hb.
  rewrite <- (item_tabulate d sh f r c Hb), <- (item_tabulate d sh g r c Hb).
  apply H. exact Hb.
Qed.

Lemma no_gap_mask_corrections (mask_shapes_overlap : ndarray Z) :
  anti_extensive (fun image => opening M image (disk M 10)) ->
  anti_extensive (fun image => binary_erosion M image (disk M 5)) ->
  pixels (shape_of mask_shapes_overlap) <> [] ->
  no_sentinel mask_shapes_overlap ->
  no_narrow_gaps M mask_shapes_overlap ->
  exists im_divided,
    fill_gaps_between_cells M mask_shapes_overlap = Ok im_divided /\
    (forall r c,
        in_bounds (shape_of mask_shapes_overlap) r c = true ->
        item 0%Z im_divided r c <> 0%Z ->
        item 0%Z mask_shapes_overlap r c = 0%Z /\
        item false (closing M (foreground mask_shapes_overlap) (disk M 2)) r c = true) /\
    ((forall r c,
         in_bounds (shape_of mask_shapes_overlap) r c = true ->
         item false (closing M (foreground mask_shapes_overlap) (disk M 2)) r c = true ->
         (0 < item 0%Z mask_shapes_overlap r c)%Z) ->
     im_divided = zeros (shape_of mask_shapes_overlap)).
Proof.
  intros Hopen Herode Hne Hsent Hgaps.
  unfold no_narrow_gaps in Hgaps. unfold fill_gaps_between_cells, divide_contested.
  set (sh := shape_of mask_shapes_overlap) in *.
  assert (Hrows : (0 < fst sh)%nat).
  { destruct (pixels sh) as [| [r c] l] eqn:Hp; [contradiction |].
    apply (in_bounds_rows sh r c). apply in_pixels. rewrite Hp. left. reflexivity. }
  cbv zeta in Hgaps.
  set (ms := update_where sh (eq_scalar sh (copy mask_shapes_overlap) 255)
               (fun _ => 0%Z) (copy mask_shapes_overlap)) in *.
  destruct (np_max_ok ms) as [n Hn].
  { unfold ms, update_where. rewrite shape_of_tabulate by exact Hrows. exact Hne. }
  specialize (Hgaps n Hn). rewrite Hn. cbn [bind]. cbv zeta.
  set (lists := ring_lists M sh ms (Z.to_nat n)) in *.
  set (possible := gt_scalar sh (sum_axis0 sh (snd lists)) 1).
  set (passages := sum_axis0 sh _).
  set (mtt := tabulate sh (fun r c => orb _ _)).
  set (mt1 := or_positive sh (opening M mtt _) mask_shapes_overlap).
  set (mt2 := or_positive sh (binary_erosion M mt1 _) mask_shapes_overlap).
  assert (Hpass : forall r c, in_bounds sh r c = true -> item 0%Z passages r c = 0%Z).
  { intros r c Hb. unfold passages, sum_axis0. rewrite item_tabulate by exact Hb.
    rewrite map_map. apply sum_zero. intros small Hin.
    rewrite item_tabulate by exact Hb.
    destruct (Z.eqb_spec (item 0%Z small r c) 0) as [Hz | Hnz]; [reflexivity |].
    cbn [negb andb]. unfold possible, gt_scalar. rewrite item_tabulate by exact Hb.
    specialize (Hgaps small r c Hin Hb Hnz).
    replace (1 <? _)%Z with false by (symmetry; apply Z.ltb_ge; exact Hgaps).
    reflexivity. }
  assert (Hmtt : forall r c, in_bounds sh r c = true ->
                   item false mtt r c = (0 <? item 0%Z mask_shapes_overlap r c)%Z).
  { intros r c Hb. unfold mtt. rewrite item_tabulate by exact Hb.
    rewrite Hpass by exact Hb. cbn. apply orb_false_r. }
  assert (Hmt1 : forall r c, in_bounds sh r c = true ->
                   item false mt1 r c = (0 <? item 0%Z mask_shapes_overlap r c)%Z).
  { intros r c Hb. unfold mt1. rewrite or_positive_item by exact Hb.
    destruct (0 <? item 0%Z mask_shapes_overlap r c)%Z eqn:Hpos; [reflexivity |].
    destruct (item 0%Z mask_shapes_overlap r c =? 0)%Z; [| reflexivity].
    destruct (item false (opening M mtt (disk M 10)) r c) eqn:Hop; [| reflexivity].
    apply Hopen in Hop.
    - rewrite Hmtt in Hop by exact Hb. congruence.
    - unfold mtt. rewrite shape_of_tabulate by exact Hrows. exact Hb. }
  assert (Hmt2 : mt2 = foreground mask_shapes_overlap).
  { unfold mt2, foreground. fold sh. apply (array_ext false).
    intros r c Hb.
    fold (or_positive sh (binary_erosion M mt1 (disk M 5)) mask_shapes_overlap).
    rewrite or_positive_item by exact Hb.
    rewrite (item_tabulate false sh _ r c Hb).
    destruct (0 <? item 0%Z mask_shapes_overlap r c)%Z eqn:Hpos; [reflexivity |].
    destruct (item 0%Z mask_shapes_overlap r c =? 0)%Z; [| reflexivity].
    destruct (item false (binary_erosion M mt1 (disk M 5)) r c) eqn:Her; [| reflexivity].
    apply Herode in Her.
    - rewrite Hmt1 in Her by exact Hb. congruence.
    - unfold mt1, or_positive. rewrite shape_of_tabulate by exact Hrows. exact Hb. }
  rewrite Hmt2. clearbody mt2. clear Hmt2.
  eexists. split; [reflexivity |].
  assert (Hres : forall r c,
             in_bounds sh r c = true ->
             item 0%Z
               (tabulate sh (fun r0 c0 =>
                  (item 0%Z (expand_labels M ms 250) r0 c0 *
                   item 0%Z
                     (tabulate sh (fun r1 c1 =>
                        (b2z (item false
                                (or_positive sh
                                   (closing M (foreground mask_shapes_overlap) (disk M 2))
                                   mask_shapes_overlap) r1 c1)
                         - b2z (0 <? item 0%Z mask_shapes_overlap r1 c1)
                         + b2z (item 0%Z mask_shapes_overlap r1 c1 =? 255))%Z)) r0 c0)%Z))
               r c <> 0%Z ->
             item 0%Z mask_shapes_overlap r c = 0%Z /\
             item false (closing M (foreground mask_shapes_overlap) (disk M 2)) r c = true).
  { intros r c Hb. rewrite item_tabulate by exact Hb.
    rewrite (item_tabulate 0%Z sh _ r c Hb).
    rewrite or_positive_item by exact Hb.
    replace (item 0%Z mask_shapes_overlap r c =? 255)%Z with false
      by (symmetry; apply Z.eqb_neq; apply Hsent; exact Hb).
    destruct (0 <? item 0%Z mask_shapes_overlap r c)%Z; [cbn; lia |].
    destruct (Z.eqb_spec (item 0%Z mask_shapes_overlap r c) 0) as [Hz | Hnz]; [| cbn; lia].
    destruct (item false (closing M (foreground mask_shapes_overlap) (disk M 2)) r c);
      [auto | cbn; lia]. }
  split; [exact Hres |].
  intros Hclosed. unfold zeros. apply (array_ext 0%Z). intros r c Hb.
  rewrite (item_tabulate 0%Z sh (fun _ _ => 0%Z) r c Hb).
  destruct (Z.eq_dec
              (item 0%Z
                 (tabulate sh (fun r0 c0 =>
                    (item 0%Z (expand_labels M ms 250) r0 c0 *
                     item 0%Z
                       (tabulate sh (fun r1 c1 =>
                          (b2z (item false
                                  (or_positive sh
                                     (closing M (foreground mask_shapes_overlap) (disk M 2))
                                     mask_shapes_overlap) r1 c1)
                           - b2z (0 <? item 0%Z mask_shapes_overlap r1 c1)
                           + b2z (item 0%Z mask_shapes_overlap r1 c1 =? 255))%Z)) r0 c0)%Z))
                 r c) 0) as [Hz | Hnz]; [exact Hz |].
  destruct (Hres r c Hb Hnz) as [Hzero Hcl].
  specialize (Hclosed r c Hb Hcl). lia.
Qed.

End GapResolverFacts.

(** ** The scikit-image model meets the contracts *)

Module SkimageFacts.

Import Skimage.

Lemma shape_of_disk (k : Z) :
  (0 <= k)%Z ->
  shape_of (disk k) = (Z.to_nat (2 * k + 1), Z.to_nat (2 * k + 1)).
Proof.
  intros Hk. unfold disk. apply shape_of_tabulate. cbn [fst]. lia.
Qed.

Lemma in_offsets_disk (k : Z) (e : Z * Z) :
  (0 <= k)%Z ->
  In e (offsets (disk k)) <->
  (- k <= fst e <= k /\ - k <= snd e <= k /\
   fst e * fst e + snd e * snd e <= k * k)%Z.
Proof.
  intros Hk. unfold offsets. rewrite shape_of_disk by exact Hk. cbn [fst snd].
  assert (Hc : Z.of_nat (Z.to_nat (2 * k + 1) / 2) = k).
  { rewrite Nat2Z.inj_div, Z2Nat.id by lia. change (Z.of_nat 2) with 2%Z.
    symmetry. apply (Z.div_unique (2 * k + 1) 2 k 1); lia. }
  rewrite Hc. rewrite in_flat_map. split.
  - intros [[p1 p2] [Hp He]]. apply in_pixels in Hp.
    cbn [fst snd] in He.
    unfold disk in He. rewrite item_tabulate in He by exact Hp.
    apply in_bounds_spec in Hp. cbn [fst snd] in Hp.
    destruct (Z.leb_spec ((p1 - k) * (p1 - k) + (p2 - k) * (p2 - k)) (k * k)) as [Hle | Hgt];
      [| contradiction].
    destruct He as [<- | []]. cbn [fst snd]. lia.
  - intros [H1 [H2 H3]]. exists (fst e + k, snd e + k)%Z.
    assert (Hb : in_bounds (Z.to_nat (2 * k + 1), Z.to_nat (2 * k + 1))
                   (fst e + k) (snd e + k) = true).
    { apply in_bounds_spec. cbn [fst snd]. lia. }
    split; [apply in_pixels; exact Hb |].
    cbn [fst snd]. unfold disk. rewrite item_tabulate by exact Hb.
    replace (fst e + k - k)%Z with (fst e) by lia.
    replace (snd e + k - k)%Z with (snd e) by lia.
    destruct (Z.leb_spec (fst e * fst e + snd e * snd e) (k * k)) as [Hle | Hgt]; [| lia].
    left. destruct e. reflexivity.
Qed.

Lemma reflect_range (n : nat) (i : Z) :
  (0 < n)%nat -> (0 <= reflect n i < Z.of_nat n)%Z.
Proof.
  intros Hn. unfold reflect.
  pose proof (Z.mod_pos_bound i (2 * Z.of_nat n)) as Hm.
  destruct (Z.ltb_spec (i mod (2 * Z.of_nat n)) (Z.of_nat n)); lia.
Qed.

Lemma reflect_id (n : nat) (i : Z) :
  (0 <= i < Z.of_nat n)%Z -> reflect n i = i.
Proof.
  intros Hi. unfold reflect. rewrite Z.mod_small by lia.
  destruct (Z.ltb_spec i (Z.of_nat n)); lia.
Qed.

Lemma reflect_closer (n : nat) (p i : Z) :
  (0 <= p < Z.of_nat n)%Z -> (Z.abs (p - reflect n i) <= Z.abs (p - i))%Z.
Proof.
  intros Hp. unfold reflect.
  pose proof (Z.div_mod i (2 * Z.of_nat n)) as Hdm.
  pose proof (Z.mod_pos_bound i (2 * Z.of_nat n)) as Hm.
  set (q := (i / (2 * Z.of_nat n))%Z) in *.
  set (m := (i mod (2 * Z.of_nat n))%Z) in *.
  assert (Hi : i = (2 * Z.of_nat n * q + m)%Z) by lia.
  destruct (Z.ltb_spec m (Z.of_nat n)) as [Hlt | Hge];
    destruct (Z.lt_trichotomy q 0) as [Hq | [Hq | Hq]]; nia.
Qed.

Lemma binary_erosion_anti_extensive :
  anti_extensive (fun image => binary_erosion image (disk 5)).
Proof.
  intros image r c Hb H. unfold binary_erosion in H.
  rewrite item_tabulate in H by exact Hb.
  rewrite forallb_forall in H. specialize (H (0, 0)%Z).
  cbn [fst snd] in H. rewrite !Z.add_0_r, Hb in H. cbn in H.
  apply H. apply in_offsets_disk; cbn; lia.
Qed.

Lemma opening_anti_extensive :
  anti_extensive (fun image => opening image (disk 10)).
Proof.
  intros image r c Hb H. unfold opening, dilation in H.
  pose proof (in_bounds_rows _ _ _ Hb) as Hrows.
  assert (Hsh : shape_of (erosion image (disk 10)) = shape_of image).
  { unfold erosion. apply shape_of_tabulate. exact Hrows. }
  rewrite Hsh in H. rewrite item_tabulate in H by exact Hb.
  apply existsb_exists in H. destruct H as [[d1 d2] [Hd H]].
  cbn [fst snd] in H. unfold item_reflect in H. rewrite Hsh in H.
  apply in_bounds_spec in Hb. destruct Hb as [Hr Hc].
  set (n := fst (shape_of image)) in *. set (m := snd (shape_of image)) in *.
  pose proof (reflect_range n (r - d1) ltac:(lia)) as Hq1.
  pose proof (reflect_range m (c - d2) ltac:(lia)) as Hq2.
  pose proof (reflect_closer n r (r - d1) Hr) as Hc1.
  pose proof (reflect_closer m c (c - d2) Hc) as Hc2.
  set (q1 := reflect n (r - d1)) in *. set (q2 := reflect m (c - d2)) in *.
  unfold erosion in H. rewrite item_tabulate in H
    by (apply in_bounds_spec; fold n m; lia).
  rewrite forallb_forall in H. specialize (H (r - q1, c - q2)%Z).
  cbn [fst snd] in H. unfold item_reflect in H. fold n m in H.
  replace (q1 + (r - q1))%Z with r in H by lia.
  replace (q2 + (c - q2))%Z with c in H by lia.
  rewrite (reflect_id n r Hr), (reflect_id m c Hc) in H.
  apply H. apply in_offsets_disk in Hd; [| lia]. cbn [fst snd] in Hd.
  apply in_offsets_disk; [lia |]. cbn [fst snd].
  replace (r - (r - d1))%Z with d1 in Hc1 by lia.
  replace (c - (c - d2))%Z with d2 in Hc2 by lia.
  assert ((r - q1) * (r - q1) <= d1 * d1)%Z by nia.
  assert ((c - q2) * (c - q2) <= d2 * d2)%Z by nia.
  lia.
Qed.

End SkimageFacts.

(** ** The no-op property of the resolver *)

Lemma forall_pixels (sh : shape) (P : Z -> Z -> bool) :
  forallb (fun p => P (fst p) (snd p)) (pixels sh) = true ->
  forall r c, in_bounds sh r c = true -> P r c = true.
Proof.
  intros H r c Hb. rewrite forallb_forall in H.
  apply (H (r, c)). apply in_pixels. exact Hb.
Qed.

Lemma no_sentinel_check_sound (mask_shapes_overlap : ndarray Z) :
  no_sentinel_check mask_shapes_overlap = true -> no_sentinel mask_shapes_overlap.
Proof.
  intros H r c Hb. unfold no_sentinel_check in H.
  pose proof (forall_pixels _ (fun r c => negb (item 0%Z mask_shapes_overlap r c =? 255)%Z)
                H r c Hb) as Hp.
  cbn beta in Hp. apply negb_true_iff in Hp. apply Z.eqb_neq. exact Hp.
Qed.

Lemma no_narrow_gaps_check_sound (M : morphology) (mask_shapes_overlap : ndarray Z) :
  no_narrow_gaps_check M mask_shapes_overlap = true ->
  no_narrow_gaps M mask_shapes_overlap.
Proof.
  unfold no_narrow_gaps_check, no_narrow_gaps. cbv zeta.
  intros H n Hn small r c Hin Hb Hnz. rewrite Hn in H.
  rewrite forallb_forall in H. specialize (H small Hin).
  pose proof (forall_pixels _
                (fun r c =>
                   (item 0%Z small r c =? 0)%Z
                   || (item 0%Z
                         (sum_axis0 (shape_of mask_shapes_overlap)
                            (snd (ring_lists M (shape_of mask_shapes_overlap)
                                    (update_where (shape_of mask_shapes_overlap)
                                       (eq_scalar (shape_of mask_shapes_overlap)
                                          (copy mask_shapes_overlap) 255)
                                       (fun _ => 0%Z) (copy mask_shapes_overlap))
                                    (Z.to_nat n)))) r c <=? 1)%Z)
                H r c Hb) as Hp.
  cbn beta in Hp. apply orb_true_iff in Hp. destruct Hp as [Hp | Hp].
  - apply Z.eqb_eq in Hp. contradiction.
  - apply Z.leb_le. exact Hp.
Qed.

(** C2 as the specification states it fails: a single region
    with a one-pixel hole has no sentinel pixel and no narrow gap, yet the
    closing of radius 2 fills the hole and the hole comes back labelled 1. *)
Lemma hole_is_corrected :
  no_sentinel mask_with_hole /\
  no_narrow_gaps Skimage.model mask_with_hole /\
  exists im_divided,
    fill_gaps_between_cells Skimage.model mask_with_hole = Ok im_divided /\
    item 0%Z im_divided 2 2 = 1%Z /\
    im_divided <> zeros (5, 5)%nat.
Proof.
  split; [| split].
  - apply no_sentinel_check_sound. vm_compute. reflexivity.
  - apply no_narrow_gaps_check_sound. vm_compute. reflexivity.
  - eexists. split; [vm_compute; reflexivity |].
    split; [reflexivity | vm_compute; discriminate].
Qed.

(** C2, amended: every pixel that carried a clean single label in the input
    is 0 in the returned correction grid.  For a mask with no sentinel
    pixel and no narrow gap, and morphological operators that only remove
    pixels where the library's do, a pixel of the returned grid is non-zero
    only if it is a background pixel that the closing of radius 2 adds to
    the foreground; so the grid is all zero when that closing adds
    nothing. *)
Theorem fill_gaps_no_op (M : morphology) (mask_shapes_overlap : ndarray Z) :
  (forall r c : Z,
      in_bounds (shape_of mask_shapes_overlap) r c = true ->
      (0 < item 0%Z mask_shapes_overlap r c)%Z ->
      item 0%Z mask_shapes_overlap r c <> 255%Z ->
      exists im_divided,
        fill_gaps_between_cells M mask_shapes_overlap = Ok im_divided /\
        item 0%Z im_divided r c = 0%Z) /\
  (anti_extensive (fun image => opening M image (disk M 10)) ->
   anti_extensive (fun image => binary_erosion M image (disk M 5)) ->
   pixels (shape_of mask_shapes_overlap) <> [] ->
   no_sentinel mask_shapes_overlap ->
   no_narrow_gaps M mask_shapes_overlap ->
   exists im_divided,
     fill_gaps_between_cells M mask_shapes_overlap = Ok im_divided /\
     (forall r c,
         in_bounds (shape_of mask_shapes_overlap) r c = true ->
         item 0%Z im_divided r c <> 0%Z ->
         item 0%Z mask_shapes_overlap r c = 0%Z /\
         item false (closing M (foreground mask_shapes_overlap) (disk M 2)) r c = true) /\
     ((forall r c,
          in_bounds (shape_of mask_shapes_overlap) r c = true ->
          item false (closing M (foreground mask_shapes_overlap) (disk M 2)) r c = true ->
          (0 < item 0%Z mask_shapes_overlap r c)%Z) ->
      im_divided = zeros (shape_of mask_shapes_overlap))).
Proof.
  split.
  - intros r c. apply clean_label_not_corrected.
  - apply no_gap_mask_corrections.
Qed.

Lemma fill_gaps_no_op_witness :
  (exists im_divided,
      fill_gaps_between_cells Skimage.model two_cells = Ok im_divided /\
      item 0%Z im_divided 1 2 = 0%Z) /\
  (exists im_divided,
      fill_gaps_between_cells Skimage.model two_cells = Ok im_divided /\
      im_divided = zeros (3, 4)%nat).
Proof.
  split.
  - apply (proj1 (fill_gaps_no_op Skimage.model two_cells) 1%Z 2%Z).
    + reflexivity.
    + vm_compute. reflexivity.
    + vm_compute. discriminate.
  - destruct (proj2 (fill_gaps_no_op Skimage.model two_cells))
      as [im_divided [Hrun [_ Hzero]]].
    + exact SkimageFacts.opening_anti_extensive.
    + exact SkimageFacts.binary_erosion_anti_extensive.
    + vm_compute. discriminate.
    + apply no_sentinel_check_sound. vm_compute. reflexivity.
    + apply no_narrow_gaps_check_sound. vm_compute. reflexivity.
    + exists im_divided. split; [exact Hrun |]. apply Hzero.
      intros r c Hb _.
      apply Z.ltb_lt.
      apply (forall_pixels (shape_of two_cells)
               (fun r c => (0 <? item 0%Z two_cells r c)%Z)); [| exact Hb].
      vm_compute. reflexivity.
Defined.

(** ** Angular Ring Partitioner *)

Lemma map_result_ok {A B : Type} (f : A -> result B) (P : A -> B -> Prop) (l : list A) :
  (forall a, In a l -> exists b, f a = Ok b /\ P a b) ->
  exists bs, map_result f l = Ok bs /\ Forall2 P l bs.
Proof.
  induction l as [| a l IH]; intros H; cbn.
  - exists []. split; [reflexivity | constructor].
  - destruct (H a (or_introl eq_refl)) as [b [Hb HP]].
    destruct IH as [bs [Hbs HF]]; [intros a' Ha'; apply H; right; exact Ha' |].
    rewrite Hb, Hbs. cbn. exists (b :: bs). split; [reflexivity | now constructor].
Qed.

Lemma Forall2_combine_in {A B : Type} (P : A -> B -> Prop) (l : list A) (l' : list B)
    (a : A) (b : B) :
  Forall2 P l l' -> In (a, b) (combine l l') -> P a b.
Proof.
  induction 1 as [| x y l l' Hxy _ IH]; cbn; [contradiction |].
  intros [Heq | Hin]; [inversion Heq; subst; exact Hxy | auto].
Qed.

Lemma Forall2_length_eq {A B : Type} (P : A -> B -> Prop) (l : list A) (l' : list B) :
  Forall2 P l l' -> length l = length l'.
Proof. induction 1; cbn; congruence. Qed.

Lemma map_fst_combine {A B : Type} (l : list A) (l' : list B) :
  length l = length l' -> map fst (combine l l') = l.
Proof.
  revert l'. induction l as [| a l IH]; intros [| b l'] H; cbn in *;
    try discriminate; [reflexivity |].
  f_equal. apply IH. lia.
Qed.

(** *** [np.argmin] *)

Lemma first_nan_bound (l : list sample) (i j : nat) :
  first_nan l i = Some j -> (j < i + length l)%nat.
Proof.
  revert i. induction l as [| [v |] l IH]; intros i H; cbn in *.
  - discriminate.
  - apply IH in H. lia.
  - injection H as <-. lia.
Qed.

Lemma first_nan_none (l : list sample) (i : nat) :
  first_nan l i = None -> length (defined_values l) = length l.
Proof.
  revert i. induction l as [| [v |] l IH]; intros i H; cbn in *.
  - reflexivity.
  - f_equal. eapply IH. exact H.
  - discriminate.
Qed.

Lemma first_min_bound (l : list R) (i best : nat) (vbest : R) :
  (best < i)%nat -> (first_min l i best vbest < i + length l)%nat.
Proof.
  revert i best vbest. induction l as [| v l IH]; intros i best vbest H; cbn.
  - lia.
  - destruct (Rlt_dec v vbest).
    + specialize (IH (S i) i v). lia.
    + specialize (IH (S i) best vbest). lia.
Qed.

Lemma np_argmin_ok (l : list sample) :
  l <> [] -> exists i, np_argmin l = Ok i /\ (i < length l)%nat.
Proof.
  intros Hne. unfold np_argmin. destruct l as [| a l]; [contradiction |].
  destruct (first_nan (a :: l) 0) as [i |] eqn:Hnan.
  - exists i. split; [reflexivity |]. apply first_nan_bound in Hnan. exact Hnan.
  - pose proof (first_nan_none _ _ Hnan) as Hlen.
    destruct (defined_values (a :: l)) as [| v vs]; [discriminate |].
    eexists. split; [reflexivity |].
    pose proof (first_min_bound vs 1 0 v ltac:(lia)) as Hb.
    cbn [length] in Hlen |- *. lia.
Qed.

(** *** [sort_values] *)

Lemma angle_leb_total (a b : centroid) : angle_leb a b = false -> angle_leb b a = true.
Proof.
  unfold angle_leb.
  destruct (centroid_angle a) as [u |], (centroid_angle b) as [v |]; try discriminate; auto.
  destruct (Rle_dec u v); [discriminate |]. intros _.
  destruct (Rle_dec v u); [reflexivity | lra].
Qed.

Lemma angle_le_trans (a b c : centroid) : angle_le a b -> angle_le b c -> angle_le a c.
Proof.
  unfold angle_le, angle_leb.
  destruct (centroid_angle a) as [u |], (centroid_angle b) as [v |],
    (centroid_angle c) as [w |]; try discriminate; auto.
  destruct (Rle_dec u v); [| discriminate].
  destruct (Rle_dec v w); [| discriminate].
  destruct (Rle_dec u w); [reflexivity | lra].
Qed.

Lemma insert_sorted_perm (a : centroid) (l : list centroid) :
  Permutation (a :: l) (insert_sorted a l).
Proof.
  induction l as [| b l IH]; cbn.
  - apply Permutation_refl.
  - destruct (angle_leb a b).
    + apply Permutation_refl.
    + eapply perm_trans; [apply perm_swap |]. apply perm_skip. exact IH.
Qed.

Lemma sort_values_perm (l : list centroid) : Permutation l (sort_values l).
Proof.
  induction l as [| a l IH]; cbn.
  - constructor.
  - eapply perm_trans; [apply perm_skip; exact IH |]. apply insert_sorted_perm.
Qed.

Lemma insert_sorted_sorted (a : centroid) (l : list centroid) :
  StronglySorted angle_le l -> StronglySorted angle_le (insert_sorted a l).
Proof.
  induction 1 as [| b l Hs IH Hb]; cbn.
  - constructor; constructor.
  - destruct (angle_leb a b) eqn:Hab.
    + constructor; [constructor; assumption |].
      constructor; [exact Hab |].
      eapply Forall_impl; [| exact Hb]. intros c Hc.
      eapply angle_le_trans; [exact Hab | exact Hc].
    + constructor; [exact IH |].
      apply angle_leb_total in Hab.
      apply (Permutation_Forall (insert_sorted_perm a l)).
      constructor; assumption.
Qed.

Lemma sort_values_sorted (l : list centroid) : StronglySorted angle_le (sort_values l).
Proof.
  induction l as [| a l IH]; cbn; [constructor | apply insert_sorted_sorted, IH].
Qed.

Lemma strongly_sorted_nth (l : list centroid) (i j : nat) (a b : centroid) :
  StronglySorted angle_le l ->
  (i < j)%nat -> nth_error l i = Some a -> nth_error l j = Some b -> angle_le a b.
Proof.
  intros Hs. revert i j. induction Hs as [| c l Hs IH Hc]; intros i j Hij Ha Hb.
  - destruct i; discriminate.
  - destruct j as [| j]; [lia |]. cbn in Hb. destruct i as [| i]; cbn in Ha.
    + injection Ha as <-. rewrite Forall_forall in Hc. apply Hc.
      eapply nth_error_In. exact Hb.
    + apply (IH i j); [lia | assumption | assumption].
Qed.

(** *** Looking up a segment in the sorted table *)

Lemma index_of_set_found (l : list centroid) (v : R) (i : Z) :
  (exists c, In c l /\ col_set c = Some v) ->
  exists n : nat,
    index_of_set l v i = Ok (i + Z.of_nat n)%Z /\
    (exists c, nth_error l n = Some c /\ col_set c = Some v).
Proof.
  revert i. induction l as [| a l IH]; intros i [c [Hin Hc]]; [contradiction |].
  cbn [index_of_set].
  destruct (col_set a) as [s |] eqn:Ha.
  - destruct (Req_dec_T s v) as [-> | Hne].
    + exists 0%nat. split; [f_equal; lia |]. exists a. split; [reflexivity | exact Ha].
    + destruct Hin as [-> | Hin]; [congruence |].
      destruct (IH (i + 1)%Z) as [n [Hn Hnth]]; [exists c; auto |].
      exists (S n). split; [rewrite Hn; f_equal; lia | exact Hnth].
  - destruct Hin as [-> | Hin]; [congruence |].
    destruct (IH (i + 1)%Z) as [n [Hn Hnth]]; [exists c; auto |].
    exists (S n). split; [rewrite Hn; f_equal; lia | exact Hnth].
Qed.

(** *** The range of [np.arctan2] and of the shifted angle *)

Lemma atan_nonpos (t : R) : (t <= 0)%R -> (atan t <= 0)%R.
Proof.
  intros [Hlt | ->]; [| rewrite atan_0; lra].
  pose proof (atan_increasing _ _ Hlt) as H. rewrite atan_0 in H. lra.
Qed.

Lemma atan_pos (t : R) : (0 < t)%R -> (0 < atan t)%R.
Proof.
  intros Hlt. pose proof (atan_increasing _ _ Hlt) as H. rewrite atan_0 in H. exact H.
Qed.

Lemma arctan2_range (b a : R) : (- PI < arctan2 b a <= PI)%R.
Proof.
  pose proof PI_RGT_0 as Hpi. unfold arctan2.
  destruct (Rlt_dec 0 a) as [Ha | Ha].
  - pose proof (atan_bound (b / a)). lra.
  - destruct (Rlt_dec a 0) as [Ha' | Ha'].
    + pose proof (atan_bound (b / a)) as Hb.
      assert (Hinv : (/ a < 0)%R) by (apply Rinv_lt_0_compat; exact Ha').
      destruct (Rle_dec 0 b) as [Hb0 | Hb0].
      * assert (b / a <= 0)%R by (unfold Rdiv; nra).
        pose proof (atan_nonpos _ H). lra.
      * assert (0 < b / a)%R by (unfold Rdiv; nra).
        pose proof (atan_pos _ H). lra.
    + destruct (Rlt_dec 0 b); [lra |]. destruct (Rlt_dec b 0); lra.
Qed.

(** *** Means *)

Lemma Rsum_const (A : Type) (l : list A) (v : R) :
  Rsum (map (fun _ => v) l) = (INR (length l) * v)%R.
Proof.
  induction l as [| a l IH].
  - cbn. lra.
  - cbn [map length]. unfold Rsum in *. cbn [fold_right]. rewrite IH, S_INR. lra.
Qed.

Lemma np_mean_const (A : Type) (l : list A) (v : R) :
  l <> [] -> np_mean (map (fun _ => v) l) = Some v.
Proof.
  intros Hne. destruct l as [| a l]; [contradiction |].
  unfold np_mean. cbn [map]. f_equal.
  change (v :: map (fun _ => v) l) with (map (fun _ : A => v) (a :: l)).
  rewrite Rsum_const, length_map.
  assert (INR (length (a :: l)) <> 0%R).
  { apply not_0_INR. cbn. lia. }
  field. assumption.
Qed.

Lemma np_mean_some (l : list R) : l <> [] -> exists v, np_mean l = Some v.
Proof. destruct l; [contradiction | intros _; eexists; reflexivity]. Qed.

Lemma np_mean_none (l : list R) : np_mean l = None -> l = [].
Proof. destruct l; [reflexivity | discriminate]. Qed.

(** *** Centroids of segments *)

Lemma centroid_of_set (points_array : list row3) (cell_center : point) (x0 : Z) :
  rows_of points_array x0 <> [] ->
  col_set (centroid_of points_array cell_center x0) = Some (IZR x0).
Proof.
  intros Hne. unfold centroid_of. cbn [col_set]. fold (rows_of points_array x0).
  rewrite (map_ext_in _ (fun _ => IZR x0)).
  - apply np_mean_const. exact Hne.
  - intros row Hrow. apply filter_In in Hrow. destruct Hrow as [_ Hid].
    apply Z.eqb_eq in Hid. now rewrite Hid.
Qed.

Lemma centroid_of_set_inv (points_array : list row3) (cell_center : point) (x0 : Z) (v : R) :
  col_set (centroid_of points_array cell_center x0) = Some v ->
  rows_of points_array x0 <> [] /\ v = IZR x0.
Proof.
  intros H.
  assert (Hne : rows_of points_array x0 <> []).
  { intros Hnil. unfold centroid_of in H. cbn [col_set] in H.
    fold (rows_of points_array x0) in H. rewrite Hnil in H. discriminate. }
  split; [exact Hne |].
  rewrite centroid_of_set in H by exact Hne. now injection H.
Qed.

Lemma centroid_of_angle (points_array : list row3) (cell_center : point) (x0 : Z) :
  rows_of points_array x0 <> [] ->
  exists a : R,
    centroid_angle (centroid_of points_array cell_center x0) = Some a /\
    (0 <= a < 2 * PI)%R.
Proof.
  intros Hne. unfold centroid_of. cbn [centroid_angle]. fold (rows_of points_array x0).
  destruct (np_mean_some (map (fun row => IZR (fst (row_coords row))) (rows_of points_array x0)))
    as [vx Hx].
  { destruct (rows_of points_array x0); [contradiction | discriminate]. }
  destruct (np_mean_some (map (fun row => IZR (snd (row_coords row))) (rows_of points_array x0)))
    as [vy Hy].
  { destruct (rows_of points_array x0); [contradiction | discriminate]. }
  rewrite Hx, Hy.
  pose proof (arctan2_range (vx - snd cell_center) (vy - fst cell_center)) as Hr.
  pose proof PI_RGT_0 as Hpi.
  destruct (Rlt_dec (arctan2 (vx - snd cell_center) (vy - fst cell_center)) 0).
  - eexists. split; [reflexivity |]. lra.
  - eexists. split; [reflexivity |]. lra.
Qed.

Lemma centroid_of_angle_coords (rows points_array : list row3) (cell_center : point)
    (j x0 : Z) :
  map row_coords (rows_of rows j) = map row_coords (rows_of points_array x0) ->
  centroid_angle (centroid_of rows cell_center j)
  = centroid_angle (centroid_of points_array cell_center x0).
Proof.
  intros H. unfold centroid_of. cbn [centroid_angle].
  fold (rows_of rows j). fold (rows_of points_array x0).
  rewrite <- (map_map row_coords (fun p => IZR (fst p)) (rows_of rows j)).
  rewrite <- (map_map row_coords (fun p => IZR (snd p)) (rows_of rows j)).
  rewrite <- (map_map row_coords (fun p => IZR (fst p)) (rows_of points_array x0)).
  rewrite <- (map_map row_coords (fun p => IZR (snd p)) (rows_of points_array x0)).
  rewrite H. reflexivity.
Qed.

Lemma rows_of_relabel (l : list (row3 * Z)) (j x0 : Z) :
  (forall row j', In (row, j') l -> (j' = j <-> row_id row = x0)) ->
  map row_coords (rows_of (map (fun pi => (row_coords (fst pi), snd pi)) l) j)
  = map row_coords (rows_of (map fst l) x0).
Proof.
  induction l as [| [row j'] l IH]; intros H; [reflexivity |].
  cbn [map rows_of filter fst snd]. unfold rows_of in IH.
  assert (Hhead : (row_id (row_coords row, j') =? j)%Z = (row_id row =? x0)%Z).
  { specialize (H row j' (or_introl eq_refl)). unfold row_id at 1. cbn [snd].
    destruct (Z.eqb_spec j' j), (Z.eqb_spec (row_id row) x0); tauto. }
  rewrite Hhead. destruct (row_id row =? x0)%Z; cbn [map].
  - f_equal. apply IH. intros r0 j0 Hin. apply H. right. exact Hin.
  - apply IH. intros r0 j0 Hin. apply H. right. exact Hin.
Qed.

(** *** A set value names one row of the table *)

Lemma has_set_true (v : R) (c : centroid) : has_set v c = true <-> col_set c = Some v.
Proof.
  unfold has_set. destruct (col_set c) as [s |]; [| split; discriminate].
  destruct (Req_dec_T s v) as [-> | Hne]; split; auto; try discriminate.
  intros H. injection H as H. contradiction.
Qed.

Lemma length_filter_perm {A : Type} (p : A -> bool) (l l' : list A) :
  Permutation l l' -> length (filter p l) = length (filter p l').
Proof.
  induction 1 as [| a l l' _ IH | a b l | l l' l'' _ IH1 _ IH2]; cbn.
  - reflexivity.
  - destruct (p a); cbn; congruence.
  - destruct (p a), (p b); reflexivity.
  - congruence.
Qed.

Lemma length_filter_map {A B : Type} (p : B -> bool) (f : A -> B) (l : list A) :
  length (filter p (map f l)) = length (filter (fun a => p (f a)) l).
Proof.
  induction l as [| a l IH]; cbn; [reflexivity |].
  destruct (p (f a)); cbn; congruence.
Qed.

Lemma length_filter_unique {A : Type} (g : A -> bool) (l : list A) :
  NoDup l ->
  (forall a b, In a l -> In b l -> g a = true -> g b = true -> a = b) ->
  (length (filter g l) <= 1)%nat.
Proof.
  induction 1 as [| a l Hnotin Hnd IH]; intros Huniq; cbn; [lia |].
  destruct (g a) eqn:Ha.
  - assert (Hnil : filter g l = []).
    { destruct (filter g l) as [| b t] eqn:Hf; [reflexivity |].
      assert (Hb : In b (filter g l)) by (rewrite Hf; left; reflexivity).
      apply filter_In in Hb. destruct Hb as [Hb Hgb].
      assert (a = b) by (apply Huniq; cbn; auto).
      subst b. contradiction. }
    rewrite Hnil. cbn. lia.
  - apply IH. intros x z Hx Hz. apply Huniq; right; assumption.
Qed.

Lemma length_filter_two {A : Type} (p : A -> bool) (l : list A) (n m : nat) (a b : A) :
  nth_error l n = Some a -> nth_error l m = Some b -> n <> m ->
  p a = true -> p b = true -> (2 <= length (filter p l))%nat.
Proof.
  revert n m. induction l as [| c l IH]; intros n m Hn Hm Hne Ha Hb.
  - destruct n; discriminate.
  - assert (Hone : forall k d, nth_error l k = Some d -> p d = true ->
                               (1 <= length (filter p l))%nat).
    { intros k d Hk Hd. assert (Hin : In d (filter p l)).
      { apply filter_In. split; [eapply nth_error_In; exact Hk | exact Hd]. }
      destruct (filter p l); [contradiction | cbn; lia]. }
    destruct n as [| n], m as [| m]; cbn in Hn, Hm; cbn [filter].
    + contradiction.
    + injection Hn as ->. rewrite Ha. cbn. specialize (Hone m b Hm Hb). lia.
    + injection Hm as ->. rewrite Hb. cbn. specialize (Hone n a Hn Ha). lia.
    + assert (2 <= length (filter p l))%nat by (apply (IH n m); auto).
      destruct (p c); cbn; lia.
Qed.

Lemma in_combine_exists {A B : Type} (l : list A) (l' : list B) (a : A) :
  length l = length l' -> In a l -> exists b, In (a, b) (combine l l').
Proof.
  revert l'. induction l as [| x l IH]; intros [| y l'] Hlen Hin; cbn in *;
    try discriminate; try contradiction.
  destruct Hin as [-> | Hin].
  - exists y. left. reflexivity.
  - destruct (IH l' ltac:(lia) Hin) as [b Hb]. exists b. right. exact Hb.
Qed.

Lemma centroid_angle_some (points_array : list row3) (cell_center : point) (x0 : Z) (a : R) :
  centroid_angle (centroid_of points_array cell_center x0) = Some a ->
  rows_of points_array x0 <> [].
Proof.
  intros H Hnil. unfold centroid_of in H. cbn [centroid_angle] in H.
  fold (rows_of points_array x0) in H. rewrite Hnil in H. discriminate.
Qed.

Lemma table_position_unique (points_array : list row3) (cell_center : point) (k : nat)
    (v : R) (n m : nat) (c c' : centroid) :
  let table :=
    sort_values
      (map (fun x0 => centroid_of points_array cell_center (Z.of_nat x0)) (seq 0 k)) in
  nth_error table n = Some c -> nth_error table m = Some c' ->
  col_set c = Some v -> col_set c' = Some v -> n = m.
Proof.
  intros table Hn Hm Hc Hc'.
  destruct (Nat.eq_dec n m) as [Heq | Hne]; [exact Heq | exfalso].
  pose proof (length_filter_two (has_set v) table n m c c' Hn Hm Hne
                (proj2 (has_set_true v c) Hc) (proj2 (has_set_true v c') Hc')) as Htwo.
  unfold table in Htwo.
  rewrite <- (length_filter_perm (has_set v) _ _ (sort_values_perm _)) in Htwo.
  rewrite length_filter_map in Htwo.
  pose proof (length_filter_unique
                (fun x0 => has_set v (centroid_of points_array cell_center (Z.of_nat x0)))
                (seq 0 k) (seq_NoDup k 0)) as Hone.
  assert (length (filter (fun x0 => has_set v (centroid_of points_array cell_center (Z.of_nat x0)))
                    (seq 0 k)) <= 1)%nat; [| lia].
  apply Hone. intros x z _ _ Hx Hz.
  apply has_set_true in Hx. apply has_set_true in Hz.
  apply centroid_of_set_inv in Hx. apply centroid_of_set_inv in Hz.
  destruct Hx as [_ Hx], Hz as [_ Hz]. rewrite Hx in Hz. apply eq_IZR in Hz. lia.
Qed.

(** *** The nearest centre *)

Lemma first_min_spec (d : R) (l done : list R) (best : nat) (vbest : R) :
  (best < length done)%nat ->
  nth best done d = vbest ->
  (forall j, (j < length done)%nat -> (vbest <= nth j done d)%R) ->
  (forall j, (j < best)%nat -> (vbest < nth j done d)%R) ->
  let b := first_min l (length done) best vbest in
  (b < length (done ++ l))%nat /\
  (forall j, (j < length (done ++ l))%nat ->
             (nth b (done ++ l) d <= nth j (done ++ l) d)%R) /\
  (forall j, (j < b)%nat -> (nth b (done ++ l) d < nth j (done ++ l) d)%R).
Proof.
  revert done best vbest. induction l as [| v l IH]; intros done best vbest Hb Hv Hle Hlt.
  - cbn [first_min]. rewrite app_nil_r. rewrite Hv. auto.
  - cbn [first_min].
    replace (done ++ v :: l) with ((done ++ [v]) ++ l) by (rewrite <- app_assoc; reflexivity).
    replace (S (length done)) with (length (done ++ [v]))
      by (rewrite length_app; cbn; lia).
    destruct (Rlt_dec v vbest) as [Hlow | Hhigh].
    + apply IH.
      * rewrite length_app. cbn. lia.
      * rewrite app_nth2 by lia. rewrite Nat.sub_diag. reflexivity.
      * intros j Hj. rewrite length_app in Hj. cbn in Hj.
        destruct (Nat.eq_dec j (length done)) as [-> | Hne].
        -- rewrite app_nth2 by lia. rewrite Nat.sub_diag. cbn. lra.
        -- rewrite app_nth1 by lia. specialize (Hle j ltac:(lia)). lra.
      * intros j Hj. rewrite app_nth1 by lia. specialize (Hle j Hj). lra.
    + apply IH.
      * rewrite length_app. cbn. lia.
      * rewrite app_nth1 by lia. exact Hv.
      * intros j Hj. rewrite length_app in Hj. cbn in Hj.
        destruct (Nat.eq_dec j (length done)) as [-> | Hne].
        -- rewrite app_nth2 by lia. rewrite Nat.sub_diag. cbn. lra.
        -- rewrite app_nth1 by lia. apply Hle. lia.
      * intros j Hj. rewrite app_nth1 by lia. apply Hlt. exact Hj.
Qed.

Lemma first_nan_defined (vals : list R) (i : nat) : first_nan (map Some vals) i = None.
Proof. revert i. induction vals as [| v vals IH]; intros i; cbn; auto. Qed.

Lemma defined_values_defined (vals : list R) : defined_values (map Some vals) = vals.
Proof. induction vals as [| v vals IH]; cbn; [reflexivity | now rewrite IH]. Qed.

(** [np.argmin] of distances that are all defined: the first smallest. *)
Lemma np_argmin_first_smallest (vals : list R) (i : nat) :
  np_argmin (map Some vals) = Ok i ->
  (i < length vals)%nat /\
  (forall j, (j < length vals)%nat -> (nth i vals 0 <= nth j vals 0)%R) /\
  (forall j, (j < i)%nat -> (nth i vals 0 < nth j vals 0)%R).
Proof.
  unfold np_argmin. destruct vals as [| v vs]; [discriminate |].
  change (map Some (v :: vs)) with (Some v :: map Some vs).
  change (first_nan (Some v :: map Some vs) 0) with (first_nan (map Some vs) 1).
  rewrite first_nan_defined.
  change (defined_values (Some v :: map Some vs)) with (v :: defined_values (map Some vs)).
  rewrite defined_values_defined. intros H. injection H as <-.
  apply (first_min_spec 0%R vs [v] 0%nat v).
  - cbn. lia.
  - reflexivity.
  - intros j Hj. cbn in Hj. replace j with 0%nat by lia. cbn. lra.
  - intros j Hj. lia.
Qed.

Lemma nearest_centre_unique (centre : nat -> point) (k : nat) (p : Z * Z) (i i' : nat) :
  nearest_centre centre k p i -> nearest_centre centre k p i' -> i = i'.
Proof.
  intros [Hi [Hle Hlt]] [Hi' [Hle' Hlt']].
  destruct (Nat.lt_trichotomy i i') as [H | [H | H]]; [| exact H |].
  - specialize (Hlt' i H). specialize (Hle i' Hi'). lra.
  - specialize (Hlt i' H). specialize (Hle' i Hi). lra.
Qed.

Lemma np_mean_value (l : list R) : l <> [] -> np_mean l = Some (Rsum l / INR (length l))%R.
Proof. destruct l; [contradiction | reflexivity]. Qed.

Lemma mean_point_mean_of (pixels : list (Z * Z)) :
  pixels <> [] ->
  (np_mean (map (fun p => IZR (fst p)) pixels), np_mean (map (fun p => IZR (snd p)) pixels))
  = (Some (fst (mean_of pixels)), Some (snd (mean_of pixels))).
Proof.
  intros Hne. rewrite !np_mean_value by (destruct pixels; [contradiction | discriminate]).
  unfold mean_of. cbn [fst snd]. rewrite !length_map. reflexivity.
Qed.

(** The angle of the data frame is the angle of the specification. *)
Lemma centroid_angle_segment (rows : list row3) (cell_center : point) (j : Z) (a : R) :
  centroid_angle (centroid_of rows cell_center j) = Some a ->
  a = segment_angle (segment_pixels rows j) cell_center.
Proof.
  unfold centroid_of, segment_angle, segment_pixels, mean_of. cbn [centroid_angle fst snd].
  set (members := filter (fun row => (row_id row =? j)%Z) rows).
  destruct members as [| m members'] eqn:Hm; [discriminate |].
  rewrite <- Hm. rewrite !np_mean_value by (rewrite Hm; discriminate).
  rewrite !map_map, !length_map.
  destruct (Rlt_dec _ 0); intros H; injection H as <-; reflexivity.
Qed.

Section RingPartitionerFacts.

Variable footprint_t : Type.
Variable disk_fp : Z -> footprint_t.
Variable grey_erosion : ndarray Z -> footprint_t -> ndarray Z.
Variable KMeans_fit_labels : nat -> list (Z * Z) -> result (list nat).

Local Abbreviation divide :=
  (divide_cell_outside_ring disk_fp grey_erosion KMeans_fit_labels).

Lemma NoDup_nonzero (sh : shape) (a : ndarray Z) : NoDup (nonzero sh a).
Proof. unfold nonzero. apply NoDup_filter, NoDup_pixels. Qed.

Lemma in_nonzero (sh : shape) (a : ndarray Z) (p : Z * Z) :
  In p (nonzero sh a) <->
  in_bounds sh (fst p) (snd p) = true /\ item 0%Z a (fst p) (snd p) <> 0%Z.
Proof.
  unfold nonzero. rewrite filter_In. destruct p as [r c]. cbn [fst snd].
  rewrite in_pixels, negb_true_iff, Z.eqb_neq. reflexivity.
Qed.

Lemma table_entry (points_array : list row3) (cell_center : point) (k : nat)
    (c : centroid) (v : R) :
  In c (sort_values
          (map (fun x0 => centroid_of points_array cell_center (Z.of_nat x0)) (seq 0 k))) ->
  col_set c = Some v ->
  exists x0 : Z,
    c = centroid_of points_array cell_center x0 /\ v = IZR x0 /\
    rows_of points_array x0 <> [].
Proof.
  intros Hin Hset.
  apply (Permutation_in _ (Permutation_sym (sort_values_perm _))) in Hin.
  apply in_map_iff in Hin. destruct Hin as [x0 [<- _]].
  apply centroid_of_set_inv in Hset. destruct Hset as [Hne ->].
  exists (Z.of_nat x0). auto.
Qed.

Lemma relabel_all (points_array : list row3) (cell_center : point) (k : nat) :
  (forall row, In row points_array ->
               exists ci : nat, row_id row = Z.of_nat ci /\ (ci < k)%nat) ->
  let table :=
    sort_values
      (map (fun x0 => centroid_of points_array cell_center (Z.of_nat x0)) (seq 0 k)) in
  exists ids,
    map_result (fun row => index_of_set table (IZR (row_id row)) 0) points_array = Ok ids /\
    Forall2 (relabelled table) points_array ids.
Proof.
  intros Hids table. apply map_result_ok. intros row Hrow.
  destruct (Hids row Hrow) as [ci [Hci Hlt]].
  assert (Hne : rows_of points_array (row_id row) <> []).
  { intros Hnil. assert (Hin : In row (rows_of points_array (row_id row))).
    { apply filter_In. split; [exact Hrow | apply Z.eqb_refl]. }
    rewrite Hnil in Hin. contradiction. }
  destruct (index_of_set_found table (IZR (row_id row)) 0) as [n [Hn Hnth]].
  { exists (centroid_of points_array cell_center (row_id row)). split.
    - apply (Permutation_in _ (sort_values_perm _)).
      apply in_map_iff. exists ci. split; [now rewrite Hci | apply in_seq; lia].
    - apply centroid_of_set. exact Hne. }
  exists (0 + Z.of_nat n)%Z. split; [exact Hn |]. split; [exact Hn |].
  destruct Hnth as [c [Hc Hset]]. exists n, c. repeat split; auto.
Qed.

Lemma ring_partition_core (cell_image : ndarray Z) (cell_center : point)
    (ring_thickness : Z) (segment_number : nat) (labels : list nat) :
  let seed_centres := fun labels : list nat =>
    map (fun i => mean_point
                    (select_rows labels i
                       (seed_points disk_fp grey_erosion cell_image ring_thickness)))
        (seq 0 segment_number) in
  (0 < segment_number)%nat ->
  KMeans_fit_labels segment_number (seed_points disk_fp grey_erosion cell_image ring_thickness)
  = Ok labels ->
  exists rows : list row3,
    divide cell_image cell_center ring_thickness segment_number = Ok rows /\
    map row_coords rows = ring_band disk_fp grey_erosion cell_image ring_thickness /\
    NoDup (map row_coords rows) /\
    (forall row, In row rows -> (0 <= row_id row < Z.of_nat segment_number)%Z) /\
    (forall row1 row2,
        In row1 rows -> In row2 rows -> (row_id row1 <= row_id row2)%Z ->
        exists a1 a2 : R,
          centroid_angle (centroid_of rows cell_center (row_id row1)) = Some a1 /\
          centroid_angle (centroid_of rows cell_center (row_id row2)) = Some a2 /\
          (0 <= a1 <= a2)%R /\ (a2 < 2 * PI)%R) /\
    (forall row j,
        In row rows -> (0 <= j <= row_id row)%Z ->
        exists row', In row' rows /\ row_id row' = j) /\
    (forall row, In row rows ->
        exists ci, np_argmin (distance_row (row_coords row) (seed_centres labels)) = Ok ci) /\
    (forall row1 row2 ci1 ci2,
        In row1 rows -> In row2 rows ->
        np_argmin (distance_row (row_coords row1) (seed_centres labels)) = Ok ci1 ->
        np_argmin (distance_row (row_coords row2) (seed_centres labels)) = Ok ci2 ->
        (row_id row1 = row_id row2 <-> ci1 = ci2)).
Proof.
  intros seed_centres Hk HK. unfold divide_cell_outside_ring.
  unfold seed_points in HK. cbv zeta in HK. cbv zeta. rewrite HK. cbn [bind].
  fold (ring_band disk_fp grey_erosion cell_image ring_thickness).
  set (pts := ring_band disk_fp grey_erosion cell_image ring_thickness).
  change (map (fun i => mean_point
                          (select_rows labels i
                             (nonzero (shape_of cell_image)
                                (nd_sub (shape_of cell_image)
                                   (grey_erosion cell_image (disk_fp ring_thickness))
                                   (grey_erosion (grey_erosion cell_image (disk_fp ring_thickness))
                                      (disk_fp 1))))))
                (seq 0 segment_number))
    with (seed_centres labels).
  set (centers := seed_centres labels).
  (* the initial assignment *)
  destruct (map_result_ok (fun p => np_argmin (distance_row p centers))
              (fun p ci => np_argmin (distance_row p centers) = Ok ci /\
                           (ci < segment_number)%nat) pts) as [cis [Hcis Hlt]].
  { intros p _. destruct (np_argmin_ok (distance_row p centers)) as [i [Hi Hb]].
    - unfold distance_row, centers, seed_centres. intros Hnil.
      apply (f_equal (@length _)) in Hnil. rewrite !length_map, length_seq in Hnil.
      cbn in Hnil. lia.
    - exists i. split; [exact Hi |]. split; [exact Hi |].
      unfold distance_row, centers, seed_centres in Hb.
      now rewrite !length_map, length_seq in Hb. }
  rewrite Hcis. cbn [bind].
  set (pa := map (fun pc : Z * Z * nat => (fst pc, Z.of_nat (snd pc))) (combine pts cis)).
  pose proof (Forall2_length_eq _ _ _ Hlt) as Hlen1.
  assert (Hpa : forall row, In row pa ->
                  exists ci : nat, row_id row = Z.of_nat ci /\ (ci < segment_number)%nat).
  { intros row Hrow. apply in_map_iff in Hrow. destruct Hrow as [[p ci] [<- Hin]].
    exists ci. split; [reflexivity |]. apply (Forall2_combine_in _ _ _ _ _ Hlt Hin). }
  assert (Hsrc : forall r0, In r0 pa ->
                   exists ci : nat,
                     row_id r0 = Z.of_nat ci /\
                     np_argmin (distance_row (row_coords r0) centers) = Ok ci).
  { intros r0 Hr0. apply in_map_iff in Hr0. destruct Hr0 as [[p ci] [<- Hin]].
    exists ci. split; [reflexivity |].
    apply (Forall2_combine_in _ _ _ _ _ Hlt Hin). }
  destruct (relabel_all pa cell_center segment_number Hpa) as [ids [Hids Hrel]].
  cbv zeta in Hids, Hrel.
  set (table := sort_values _) in *.
  rewrite Hids. cbn [bind]. eexists. split; [reflexivity |].
  pose proof (Forall2_length_eq _ _ _ Hrel) as Hlen2.
  set (rows := map (fun pi : row3 * Z => (row_coords (fst pi), snd pi)) (combine pa ids)).
  assert (Hcoords : map row_coords rows = pts).
  { unfold rows. rewrite map_map. cbn [row_coords fst].
    rewrite <- (map_map fst row_coords), map_fst_combine by exact Hlen2.
    unfold pa. rewrite map_map. cbn [row_coords fst].
    apply map_fst_combine. exact Hlen1. }
  assert (Hrow : forall row, In row rows ->
                   exists r0 j, row = (row_coords r0, j) /\ In (r0, j) (combine pa ids) /\
                                relabelled table r0 j).
  { intros row Hin. apply in_map_iff in Hin. destruct Hin as [[r0 j] [<- Hin]].
    exists r0, j. split; [reflexivity |]. split; [exact Hin |].
    apply (Forall2_combine_in _ _ _ _ _ Hrel Hin). }
  assert (Hangle : forall r0 j n c,
             In (r0, j) (combine pa ids) -> relabelled table r0 j ->
             j = Z.of_nat n -> nth_error table n = Some c ->
             exists a, centroid_angle (centroid_of rows cell_center j) = Some a /\
                       centroid_angle c = Some a /\ (0 <= a < 2 * PI)%R).
  { intros r0 j n c Hin [Hidx [n' [c' [Hj [Hnth Hset]]]]] Hjn Hc.
    assert (n' = n) by lia. subst n'. rewrite Hc in Hnth. injection Hnth as <-.
    destruct (table_entry pa cell_center segment_number c _
                (nth_error_In _ _ Hc) Hset) as [x0 [Hcx [Hx Hne]]].
    apply eq_IZR in Hx.
    assert (Hsame : map row_coords (rows_of rows j) = map row_coords (rows_of pa (row_id r0))).
    { unfold rows.
      rewrite <- (map_fst_combine pa ids Hlen2) at 2.
      apply rows_of_relabel. intros r1 j1 Hin1.
      pose proof (Forall2_combine_in _ _ _ _ _ Hrel Hin1) as [Hidx1 [n1 [c1 [Hj1 [Hnth1 Hset1]]]]].
      split.
      - intros ->. assert (n1 = n) by lia. subst n1.
        rewrite Hc in Hnth1. injection Hnth1 as <-.
        rewrite Hset in Hset1. injection Hset1 as Heq. apply eq_IZR in Heq. now symmetry.
      - intros Heq. rewrite Heq in Hidx1. rewrite Hidx in Hidx1. now injection Hidx1. }
    rewrite (centroid_of_angle_coords rows pa cell_center j (row_id r0) Hsame).
    rewrite Hx, <- Hcx.
    destruct (centroid_of_angle pa cell_center x0 Hne) as [a [Ha Hr]].
    rewrite <- Hcx in Ha. exists a. auto. }
  split; [exact Hcoords |].
  split; [rewrite Hcoords; apply NoDup_nonzero |].
  split; [intros row H; split |].
  - destruct (Hrow row H) as [r0 [j [-> [_ [_ [n [c [Hj [Hnth _]]]]]]]]].
    unfold row_id. cbn [snd]. lia.
  - destruct (Hrow row H) as [r0 [j [-> [_ [_ [n [c [Hj [Hnth _]]]]]]]]].
    unfold row_id. cbn [snd].
    assert (n < length table)%nat by (apply nth_error_Some; congruence).
    unfold table in H0.
    rewrite <- (Permutation_length (sort_values_perm _)), length_map, length_seq in H0.
    lia.
  - split; [| split; [| split]].
    2: {
      intros row j Hin [Hj0 Hj].
      destruct (Hrow row Hin) as [r0 [j0 [-> [Hin0 Hrel0]]]].
      unfold row_id in Hj. cbn [snd] in Hj.
      pose proof Hrel0 as [Hidx0 [n0 [c0 [Hjn0 [Hnth0 Hset0]]]]].
      destruct (Z.eq_dec j j0) as [-> | Hneq].
      { exists (row_coords r0, j0). split; [exact Hin | reflexivity]. }
      set (n := Z.to_nat j).
      assert (Hn : (n < n0)%nat) by lia.
      destruct (nth_error table n) as [c |] eqn:Hnth.
      2: { apply nth_error_None in Hnth.
           assert (n0 < length table)%nat by (apply nth_error_Some; congruence). lia. }
      destruct (Hangle r0 j0 n0 c0 Hin0 Hrel0 Hjn0 Hnth0) as [a0 [_ [Hc0 _]]].
      pose proof (strongly_sorted_nth table n n0 c c0 (sort_values_sorted _)
                    Hn Hnth Hnth0) as Hs.
      unfold angle_le, angle_leb in Hs. rewrite Hc0 in Hs.
      destruct (centroid_angle c) as [a |] eqn:Hca; [| discriminate].
      pose proof (nth_error_In _ _ Hnth) as Hct.
      unfold table in Hct.
      apply (Permutation_in _ (Permutation_sym (sort_values_perm _))) in Hct.
      apply in_map_iff in Hct. destruct Hct as [x0 [Hcx _]].
      rewrite <- Hcx in Hca. pose proof (centroid_angle_some _ _ _ _ Hca) as Hne.
      destruct (rows_of pa (Z.of_nat x0)) as [| r1 t] eqn:Hrows; [contradiction |].
      assert (Hr1 : In r1 (rows_of pa (Z.of_nat x0))) by (rewrite Hrows; left; reflexivity).
      apply filter_In in Hr1. destruct Hr1 as [Hr1 Hid1]. apply Z.eqb_eq in Hid1.
      destruct (in_combine_exists pa ids r1 Hlen2 Hr1) as [j1 Hin1].
      pose proof (Forall2_combine_in _ _ _ _ _ Hrel Hin1)
        as [Hidx1 [n1 [c1 [Hjn1 [Hnth1 Hset1]]]]].
      assert (Hsetc : col_set c = Some (IZR (row_id r1))).
      { rewrite <- Hcx, Hid1. apply centroid_of_set. rewrite Hrows. discriminate. }
      assert (n1 = n).
      { apply (table_position_unique pa cell_center segment_number
                 (IZR (row_id r1)) n1 n c1 c); assumption. }
      exists (row_coords r1, j1). split.
      - unfold rows. apply in_map_iff. exists (r1, j1). split; [reflexivity | exact Hin1].
      - unfold row_id at 1. cbn [snd]. lia. }
    2: {
      intros row Hin. destruct (Hrow row Hin) as [r0 [j [-> [Hin0 _]]]].
      destruct (Hsrc r0 (in_combine_l _ _ _ _ Hin0)) as [ci [_ Hci]].
      exists ci. exact Hci. }
    2: {
      intros row1 row2 ci1 ci2 H1 H2 Hc1 Hc2.
      destruct (Hrow row1 H1) as [r1 [j1 [-> [Hin1 Hrel1]]]].
      destruct (Hrow row2 H2) as [r2 [j2 [-> [Hin2 Hrel2]]]].
      destruct (Hsrc r1 (in_combine_l _ _ _ _ Hin1)) as [d1 [Hid1 Hd1]].
      destruct (Hsrc r2 (in_combine_l _ _ _ _ Hin2)) as [d2 [Hid2 Hd2]].
      change (row_coords (row_coords r1, j1)) with (row_coords r1) in Hc1.
      change (row_coords (row_coords r2, j2)) with (row_coords r2) in Hc2.
      rewrite Hd1 in Hc1. rewrite Hd2 in Hc2.
      injection Hc1 as <-. injection Hc2 as <-.
      unfold row_id at 1 2. cbn [snd].
      destruct Hrel1 as [Hidx1 [n1 [c1 [Hj1 [Hnth1 Hset1]]]]].
      destruct Hrel2 as [Hidx2 [n2 [c2 [Hj2 [Hnth2 Hset2]]]]].
      split.
      - intros Hj. assert (n1 = n2) by lia. subst n2.
        rewrite Hnth1 in Hnth2. injection Hnth2 as <-.
        rewrite Hset1 in Hset2. injection Hset2 as Heq. apply eq_IZR in Heq. lia.
      - intros Hd. subst d2. rewrite <- Hid1 in Hid2. rewrite Hid2 in Hidx2.
        rewrite Hidx1 in Hidx2. now injection Hidx2. }
    intros row1 row2 H1 H2 Hle.
    destruct (Hrow row1 H1) as [r1 [j1 [-> [Hin1 Hrel1]]]].
    destruct (Hrow row2 H2) as [r2 [j2 [-> [Hin2 Hrel2]]]].
    unfold row_id in Hle |- *. cbn [snd] in Hle |- *.
    destruct Hrel1 as [Hidx1 [n1 [c1 [Hj1 [Hnth1 Hset1]]]]].
    destruct Hrel2 as [Hidx2 [n2 [c2 [Hj2 [Hnth2 Hset2]]]]].
    destruct (Hangle r1 j1 n1 c1 Hin1) as [a1 [Ha1 [Hc1 Hr1]]]; auto.
    { split; [exact Hidx1 |]. exists n1, c1. auto. }
    destruct (Hangle r2 j2 n2 c2 Hin2) as [a2 [Ha2 [Hc2 Hr2]]]; auto.
    { split; [exact Hidx2 |]. exists n2, c2. auto. }
    exists a1, a2. repeat split; try lra; auto.
    destruct (Nat.eq_dec n1 n2) as [Heq | Hne].
    + subst n2. rewrite Hnth1 in Hnth2. injection Hnth2 as <-.
      rewrite Hc1 in Hc2. injection Hc2 as <-. lra.
    + pose proof (strongly_sorted_nth table n1 n2 c1 c2 (sort_values_sorted _)
                    ltac:(lia) Hnth1 Hnth2) as Hs.
      unfold angle_le, angle_leb in Hs. rewrite Hc1, Hc2 in Hs.
      destruct (Rle_dec a1 a2); [assumption | discriminate].
Qed.


Lemma first_nan_found (l : list sample) (n : nat) :
  In None l -> exists i, first_nan l n = Some i.
Proof.
  revert n. induction l as [| [v |] l IH]; intros n Hin; [contradiction | |].
  - cbn [first_nan]. apply IH. destruct Hin as [H | H]; [discriminate | exact H].
  - exists n. reflexivity.
Qed.

Lemma first_nan_distance_row (p p' : Z * Z) (centers : list (sample * sample)) (n : nat) :
  first_nan (distance_row p centers) n = first_nan (distance_row p' centers) n.
Proof.
  revert n. induction centers as [| [[cr |] [cc |]] centers IH]; intros n;
    cbn [distance_row map fst snd first_nan]; auto.
Qed.

(** With a K-means cluster that has no seed point, a centre is NaN and
    [np.argmin] gives every pixel the first such centre. *)
Lemma np_argmin_empty_cluster (labels : list nat) (seeds : list (Z * Z)) (k : nat)
    (p p' : Z * Z) (ci ci' : nat) :
  (exists i, (i < k)%nat /\ cluster_members labels seeds i = []) ->
  np_argmin (distance_row p (map (fun i => mean_point (select_rows labels i seeds))
                               (seq 0 k))) = Ok ci ->
  np_argmin (distance_row p' (map (fun i => mean_point (select_rows labels i seeds))
                                (seq 0 k))) = Ok ci' ->
  ci = ci'.
Proof.
  intros [i [Hi Hnil]].
  set (centers := map (fun i => mean_point (select_rows labels i seeds)) (seq 0 k)).
  assert (Hin : forall q, In None (distance_row q centers)).
  { intros q. unfold distance_row. apply in_map_iff.
    exists (mean_point (select_rows labels i seeds)). split.
    - change (select_rows labels i seeds) with (cluster_members labels seeds i).
      rewrite Hnil. reflexivity.
    - unfold centers. apply in_map_iff. exists i. split; [reflexivity |].
      apply in_seq. lia. }
  destruct (first_nan_found _ 0 (Hin p)) as [n Hn].
  pose proof (first_nan_distance_row p p' centers 0) as Hsame.
  unfold np_argmin.
  destruct (distance_row p centers) as [| a l] eqn:Hp; [discriminate |].
  destruct (distance_row p' centers) as [| a' l'] eqn:Hp'; [discriminate |].
  rewrite <- Hsame, Hn. congruence.
Qed.

Lemma distance_row_defined (labels : list nat) (seeds : list (Z * Z)) (k : nat)
    (p : Z * Z) :
  (forall i, (i < k)%nat -> cluster_members labels seeds i <> []) ->
  distance_row p (map (fun i => mean_point (select_rows labels i seeds)) (seq 0 k))
  = map Some
      (map (fun i => euclidean p (mean_of (cluster_members labels seeds i))) (seq 0 k)).
Proof.
  intros Hne. unfold distance_row. rewrite !map_map. apply map_ext_in.
  intros i Hi. apply in_seq in Hi.
  change (select_rows labels i seeds) with (cluster_members labels seeds i).
  unfold mean_point. rewrite mean_point_mean_of by (apply Hne; lia).
  cbn [fst snd]. reflexivity.
Qed.

Lemma np_argmin_nearest (labels : list nat) (seeds : list (Z * Z)) (k : nat)
    (p : Z * Z) (ci : nat) :
  (forall i, (i < k)%nat -> cluster_members labels seeds i <> []) ->
  np_argmin (distance_row p (map (fun i => mean_point (select_rows labels i seeds))
                               (seq 0 k))) = Ok ci ->
  nearest_centre (fun i => mean_of (cluster_members labels seeds i)) k p ci.
Proof.
  intros Hne H. rewrite (distance_row_defined labels seeds k p Hne) in H.
  apply np_argmin_first_smallest in H. rewrite length_map, length_seq in H.
  destruct H as [Hci [Hle Hlt]].
  set (f := fun i => euclidean p (mean_of (cluster_members labels seeds i))) in *.
  assert (Hnth : forall j, (j < k)%nat -> nth j (map f (seq 0 k)) 0%R = f j).
  { intros j Hj. rewrite (nth_indep _ 0%R (f 0%nat)) by (rewrite length_map, length_seq; exact Hj).
    rewrite (map_nth f (seq 0 k) 0%nat j), seq_nth by exact Hj. reflexivity. }
  split; [exact Hci |]. split.
  - intros j Hj. specialize (Hle j Hj). rewrite !Hnth in Hle by assumption. exact Hle.
  - intros j Hj. specialize (Hlt j Hj). rewrite !Hnth in Hlt by lia. exact Hlt.
Qed.


End RingPartitionerFacts.


(** * Further properties of the module *)

(** ** Mask Builder: what a pixel ends as *)

Lemma pixel_step_range (i : Z) (b : bool) (v : Z) :
  (0 <= v <= 255)%Z -> (0 <= pixel_step i b v <= 255)%Z.
Proof.
  intros Hv. unfold pixel_step, uint8.
  pose proof (Z.mod_pos_bound (v + (i + 1)) 256 ltac:(lia)) as Hm.
  destruct b; destruct (_ <? _)%Z; lia.
Qed.

Section MaskBuilderMore.

Variable Polygon : Type.
Variable ndim : Polygon -> nat.
Variable second_axis : Polygon -> nat.
Variable polygon2mask : shape -> Polygon -> ndarray bool.
Variable polygon : Polygon -> shape -> result (list (Z * Z)).

Local Abbreviation body := (loop_body ndim second_axis polygon2mask polygon).
Local Abbreviation run := (loop ndim second_axis polygon2mask polygon).
Local Abbreviation build := (create_mask_from_shapes ndim second_axis polygon2mask polygon).
Local Abbreviation covers sh r c := (fun p => item false (polygon2mask sh p) r c).

(** X1: A pixel under exactly one polygon, all polygons being two-dimensional,
    carries that polygon's label (its index plus one) in both masks, as long
    as the label is below the sentinel 255. *)
Theorem single_polygon_label (pre post : list Polygon) (p : Polygon)
    (sh : shape) (r c : Z) :
  Forall (fun q => (ndim q <= 2)%nat) (pre ++ p :: post) ->
  in_bounds sh r c = true ->
  (forall q, In q (pre ++ post) -> item false (polygon2mask sh q) r c = false) ->
  item false (polygon2mask sh p) r c = true ->
  (Z.of_nat (length pre) + 1 < 255)%Z ->
  exists mask_shapes_overlap mask_shapes : ndarray Z,
    build (pre ++ p :: post) sh = Ok (mask_shapes_overlap, mask_shapes) /\
    item 0%Z mask_shapes_overlap r c = (Z.of_nat (length pre) + 1)%Z /\
    item 0%Z mask_shapes r c = (Z.of_nat (length pre) + 1)%Z.
Proof.
  intros H2d Hb Hothers Hp Hlabel.
  destruct (build_2d_pixel Polygon ndim second_axis polygon2mask polygon _ sh r c H2d Hb)
    as [ov [free [Hrun [Hov Hfree]]]].
  exists ov, free. split; [exact Hrun |].
  assert (Hval : item 0%Z ov r c = (Z.of_nat (length pre) + 1)%Z).
  { rewrite Hov, map_app. cbn [map]. rewrite Hp.
    rewrite (map_all_false (covers sh r c) pre)
      by (intros q Hq; apply Hothers, in_or_app; left; exact Hq).
    rewrite (map_all_false (covers sh r c) post)
      by (intros q Hq; apply Hothers, in_or_app; right; exact Hq).
    apply pixel_fold_single. exact Hlabel. }
  split; [exact Hval |]. rewrite Hfree, Hval.
  destruct (Z.eqb_spec (Z.of_nat (length pre) + 1) 255); [lia | reflexivity].
Qed.

(** X2: A pixel under exactly two polygons, all polygons being two-dimensional,
    is the sentinel 255 in the overlap-aware mask and 0 in the overlap-free
    mask, as long as the two labels add up to at most 255. *)
Theorem two_polygons_sentinel (pre mid post : list Polygon) (p q : Polygon)
    (sh : shape) (r c : Z) :
  Forall (fun x => (ndim x <= 2)%nat) (pre ++ p :: mid ++ q :: post) ->
  in_bounds sh r c = true ->
  (forall x, In x (pre ++ mid ++ post) -> item false (polygon2mask sh x) r c = false) ->
  item false (polygon2mask sh p) r c = true ->
  item false (polygon2mask sh q) r c = true ->
  (2 * Z.of_nat (length pre) + Z.of_nat (length mid) + 3 <= 255)%Z ->
  exists mask_shapes_overlap mask_shapes : ndarray Z,
    build (pre ++ p :: mid ++ q :: post) sh = Ok (mask_shapes_overlap, mask_shapes) /\
    item 0%Z mask_shapes_overlap r c = 255%Z /\
    item 0%Z mask_shapes r c = 0%Z.
Proof.
  intros H2d Hb Hothers Hp Hq Hsum.
  destruct (build_2d_pixel Polygon ndim second_axis polygon2mask polygon _ sh r c H2d Hb)
    as [ov [free [Hrun [Hov Hfree]]]].
  exists ov, free. split; [exact Hrun |].
  assert (Hval : item 0%Z ov r c = 255%Z).
  { rewrite Hov, map_app. cbn [map]. rewrite map_app. cbn [map]. rewrite Hp, Hq.
    rewrite (map_all_false (covers sh r c) pre)
      by (intros x Hx; apply Hothers, in_or_app; left; exact Hx).
    rewrite (map_all_false (covers sh r c) mid)
      by (intros x Hx; apply Hothers, in_or_app; right; apply in_or_app; left; exact Hx).
    rewrite (map_all_false (covers sh r c) post)
      by (intros x Hx; apply Hothers, in_or_app; right; apply in_or_app; right; exact Hx).
    apply pixel_fold_double. exact Hsum. }
  split; [exact Hval |]. rewrite Hfree, Hval. reflexivity.
Qed.

(** X3: A pixel that no polygon covers is 0 in both masks; in particular both
    masks are 0 everywhere when there is no polygon. *)
Theorem uncovered_pixel_background (polys : list Polygon) (sh : shape) (r c : Z) :
  Forall (fun q => (ndim q <= 2)%nat) polys ->
  in_bounds sh r c = true ->
  (forall q, In q polys -> item false (polygon2mask sh q) r c = false) ->
  exists mask_shapes_overlap mask_shapes : ndarray Z,
    build polys sh = Ok (mask_shapes_overlap, mask_shapes) /\
    item 0%Z mask_shapes_overlap r c = 0%Z /\
    item 0%Z mask_shapes r c = 0%Z.
Proof.
  intros H2d Hb Hnone.
  destruct (build_2d_pixel Polygon ndim second_axis polygon2mask polygon _ sh r c H2d Hb)
    as [ov [free [Hrun [Hov Hfree]]]].
  exists ov, free. split; [exact Hrun |].
  assert (Hval : item 0%Z ov r c = 0%Z).
  { rewrite Hov, (map_all_false (covers sh r c) polys) by exact Hnone.
    apply pixel_fold_uncovered. lia. }
  split; [exact Hval |]. rewrite Hfree, Hval. reflexivity.
Qed.

Lemma body_mask (sh : shape) (i : Z) (p : Polygon) (st st' : locals) :
  body sh i p st = Ok st' ->
  exists ms, mask st' = accumulate sh i ms (mask st).
Proof.
  unfold loop_body. destruct (2 <? ndim p)%nat.
  - destruct (second_axis p <? 3)%nat; [discriminate |].
    destruct (polygon p sh) as [coords | e]; [| discriminate].
    cbn [bind mask mask_single mask_coord].
    destruct (mask_single st) as [ms |]; [| discriminate].
    intros H. injection H as <-. exists ms. reflexivity.
  - cbn [bind mask mask_single mask_coord].
    intros H. injection H as <-. eexists. reflexivity.
Qed.

Lemma run_range (sh : shape) (polys : list Polygon) (i : Z) (st st' : locals) :
  (forall r c, in_bounds sh r c = true -> (0 <= item 0%Z (mask st) r c <= 255)%Z) ->
  run sh i polys st = Ok st' ->
  forall r c, in_bounds sh r c = true -> (0 <= item 0%Z (mask st') r c <= 255)%Z.
Proof.
  revert i st. induction polys as [| p polys IH]; intros i st Hst Hrun; cbn [loop] in Hrun.
  - injection Hrun as <-. exact Hst.
  - destruct (body sh i p st) as [s1 |] eqn:Hbody; [| discriminate]. cbn [bind] in Hrun.
    apply (IH (i + 1)%Z s1); [| exact Hrun].
    destruct (body_mask _ _ _ _ _ Hbody) as [ms Hms].
    intros r c Hb. rewrite Hms, item_accumulate by exact Hb.
    apply pixel_step_range, Hst, Hb.
Qed.

(** X4: Whatever the polygons, when the function returns: every pixel of the
    overlap-aware mask is a uint8 value, the overlap-free mask has no
    sentinel pixel, and the overlap-free mask agrees with the overlap-aware
    mask wherever it is not 0. *)
Theorem masks_invariant (polys : list Polygon) (sh : shape)
    (mask_shapes_overlap mask_shapes : ndarray Z) (r c : Z) :
  build polys sh = Ok (mask_shapes_overlap, mask_shapes) ->
  in_bounds sh r c = true ->
  (0 <= item 0%Z mask_shapes_overlap r c <= 255)%Z /\
  item 0%Z mask_shapes r c <> 255%Z /\
  (item 0%Z mask_shapes r c = 0%Z \/
   item 0%Z mask_shapes r c = item 0%Z mask_shapes_overlap r c).
Proof.
  unfold create_mask_from_shapes.
  destruct (run sh 0 polys _) as [st' |] eqn:Hrun; [| discriminate].
  cbn [bind]. intros H Hb. injection H as <- <-.
  assert (Hrange : (0 <= item 0%Z (mask st') r c <= 255)%Z).
  { apply (run_range sh polys 0 _ st' ) with (r := r) (c := c) in Hrun; auto.
    intros r0 c0 Hb0. cbn [mask]. unfold zeros. rewrite item_tabulate by exact Hb0. lia. }
  split; [exact Hrange |].
  unfold update_where, eq_scalar, copy. rewrite !item_tabulate by exact Hb.
  destruct (Z.eqb_spec (item 0%Z (mask st') r c) 255) as [He | Hne].
  - split; [lia | left; reflexivity].
  - split; [exact Hne | right; reflexivity].
Qed.

End MaskBuilderMore.

Lemma single_polygon_label_witness :
  exists mask_shapes_overlap mask_shapes : ndarray Z,
    create_mask_from_shapes rect_ndim rect_second_axis rect_fill rect_rasterizer
      ([square_2d] ++ row_2d :: []) (3, 3)%nat
    = Ok (mask_shapes_overlap, mask_shapes) /\
    item 0%Z mask_shapes_overlap 2 1 = (Z.of_nat (length [square_2d]) + 1)%Z /\
    item 0%Z mask_shapes 2 1 = (Z.of_nat (length [square_2d]) + 1)%Z.
Proof.
  apply (single_polygon_label rect_polygon rect_ndim rect_second_axis rect_fill rect_rasterizer
           [square_2d] [] row_2d (3, 3)%nat 2 1).
  - repeat constructor.
  - reflexivity.
  - intros q [<- | []]. reflexivity.
  - reflexivity.
  - cbn. lia.
Defined.

Lemma two_polygons_sentinel_witness :
  exists mask_shapes_overlap mask_shapes : ndarray Z,
    create_mask_from_shapes rect_ndim rect_second_axis rect_fill rect_rasterizer
      ([] ++ square_2d :: [row_2d] ++ square_2d :: []) (3, 3)%nat
    = Ok (mask_shapes_overlap, mask_shapes) /\
    item 0%Z mask_shapes_overlap 0 0 = 255%Z /\
    item 0%Z mask_shapes 0 0 = 0%Z.
Proof.
  apply (two_polygons_sentinel rect_polygon rect_ndim rect_second_axis rect_fill rect_rasterizer
           [] [row_2d] [] square_2d square_2d (3, 3)%nat 0 0).
  - repeat constructor.
  - reflexivity.
  - intros q [<- | []]. reflexivity.
  - reflexivity.
  - reflexivity.
  - cbn. lia.
Defined.

Lemma uncovered_pixel_background_witness :
  exists mask_shapes_overlap mask_shapes : ndarray Z,
    create_mask_from_shapes rect_ndim rect_second_axis rect_fill rect_rasterizer [square_2d; row_2d] (3, 3)%nat
    = Ok (mask_shapes_overlap, mask_shapes) /\
    item 0%Z mask_shapes_overlap 0 2 = 0%Z /\
    item 0%Z mask_shapes 0 2 = 0%Z.
Proof.
  apply (uncovered_pixel_background rect_polygon rect_ndim rect_second_axis rect_fill rect_rasterizer
           [square_2d; row_2d] (3, 3)%nat 0 2).
  - repeat constructor.
  - reflexivity.
  - intros q [<- | [<- | []]]; reflexivity.
Defined.

Lemma masks_invariant_witness :
  (0 <= item 0%Z [[2; 2; 0]; [2; 2; 0]; [0; 0; 0]]%Z 0 0 <= 255)%Z /\
  item 0%Z [[2; 2; 0]; [2; 2; 0]; [0; 0; 0]]%Z 0 0 <> 255%Z /\
  (item 0%Z [[2; 2; 0]; [2; 2; 0]; [0; 0; 0]]%Z 0 0 = 0%Z \/
   item 0%Z [[2; 2; 0]; [2; 2; 0]; [0; 0; 0]]%Z 0 0
   = item 0%Z [[2; 2; 0]; [2; 2; 0]; [0; 0; 0]]%Z 0 0).
Proof.
  apply (masks_invariant rect_polygon rect_ndim rect_second_axis rect_fill rect_rasterizer
           [square_2d; square_2d; square_2d] (3, 3)%nat).
  - vm_compute. reflexivity.
  - reflexivity.
Defined.

(** ** Mask Builder: polygons that do not overlap *)

Lemma tabulate_normal (sh : shape) (f : Z -> Z -> Z) :
  tabulate sh f = tabulate sh (fun r c => item 0%Z (tabulate sh f) r c).
Proof.
  apply tabulate_ext. intros r c Hb. now rewrite item_tabulate by exact Hb.
Qed.

Lemma at_most_one_true (l : list bool) :
  (forall i j, nth_error l i = Some true -> nth_error l j = Some true -> i = j) ->
  l = repeat false (length l) \/
  exists k m : nat, l = repeat false k ++ true :: repeat false m /\ (k < length l)%nat.
Proof.
  induction l as [| b l IH]; intros H; [left; reflexivity |].
  destruct b.
  - right. exists 0%nat, (length l). split; [| cbn; lia]. cbn. f_equal.
    assert (Hfalse : forall b, In b l -> (fun x : bool => x) b = false).
    { intros b Hb. destruct b; [| reflexivity].
      apply In_nth_error in Hb. destruct Hb as [n Hn].
      specialize (H 0%nat (S n) eq_refl Hn). discriminate. }
    rewrite <- (map_all_false (fun x : bool => x) l Hfalse). now rewrite map_id.
  - destruct IH as [Hall | [k [m [Hl Hk]]]].
    + intros i j Hi Hj. specialize (H (S i) (S j) Hi Hj). lia.
    + left. cbn. f_equal. exact Hall.
    + right. exists (S k), m. split; [cbn; f_equal; exact Hl | cbn; lia].
Qed.

Section MaskBuilderDisjoint.

Variable Polygon : Type.
Variable ndim : Polygon -> nat.
Variable second_axis : Polygon -> nat.
Variable polygon2mask : shape -> Polygon -> ndarray bool.
Variable polygon : Polygon -> shape -> result (list (Z * Z)).

Local Abbreviation run := (loop ndim second_axis polygon2mask polygon).
Local Abbreviation build := (create_mask_from_shapes ndim second_axis polygon2mask polygon).

Lemma run_mask_normal (sh : shape) (polys : list Polygon) (i : Z) (st st' : locals) :
  mask st = tabulate sh (fun r c => item 0%Z (mask st) r c) ->
  run sh i polys st = Ok st' ->
  mask st' = tabulate sh (fun r c => item 0%Z (mask st') r c).
Proof.
  revert i st. induction polys as [| p polys IH]; intros i st Hst Hrun; cbn [loop] in Hrun.
  - injection Hrun as <-. exact Hst.
  - destruct (loop_body ndim second_axis polygon2mask polygon sh i p st) as [s1 |] eqn:Hbody;
      [| discriminate].
    cbn [bind] in Hrun. apply (IH (i + 1)%Z s1); [| exact Hrun].
    destruct (body_mask _ _ _ _ _ _ _ _ _ _ Hbody) as [ms Hms].
    rewrite Hms. unfold accumulate, update_where at 1. apply tabulate_normal.
Qed.

(** X5: Polygons that do not overlap: when every pixel lies under at most one
    of fewer than 255 two-dimensional polygons, the overlap-aware and the
    overlap-free mask are the same array. *)
Theorem disjoint_polygons_same_masks (polys : list Polygon) (sh : shape) :
  Forall (fun q => (ndim q <= 2)%nat) polys ->
  (length polys < 255)%nat ->
  (forall r c i j p q,
      in_bounds sh r c = true ->
      nth_error polys i = Some p -> nth_error polys j = Some q ->
      item false (polygon2mask sh p) r c = true ->
      item false (polygon2mask sh q) r c = true ->
      i = j) ->
  exists mask_shapes : ndarray Z, build polys sh = Ok (mask_shapes, mask_shapes).
Proof.
  intros H2d Hlen Hdisj. unfold create_mask_from_shapes.
  destruct (run_2d_pixel Polygon ndim second_axis polygon2mask polygon sh polys 0
              (mk_locals (zeros sh) None None) H2d) as [st' [Hrun Hpix]].
  rewrite Hrun. cbn [bind]. exists (mask st'). f_equal. f_equal.
  assert (Hnorm : mask st' = tabulate sh (fun r c => item 0%Z (mask st') r c)).
  { apply (run_mask_normal sh polys 0 (mk_locals (zeros sh) None None)); [| exact Hrun].
    cbn [mask]. unfold zeros. apply tabulate_normal. }
  rewrite Hnorm at 3. unfold update_where, eq_scalar, copy.
  apply tabulate_ext. intros r c Hb. rewrite item_tabulate by exact Hb.
  destruct (Z.eqb_spec (item 0%Z (mask st') r c) 255) as [He | Hne]; [exfalso | reflexivity].
  rewrite Hpix in He by exact Hb. cbn [mask] in He. unfold zeros in He.
  rewrite item_tabulate in He by exact Hb.
  set (l := map (fun p => item false (polygon2mask sh p) r c) polys) in *.
  assert (Hl : length l = length polys) by (unfold l; apply length_map).
  destruct (at_most_one_true l) as [Hall | [k [m [Hkm Hk]]]].
  - intros i j Hi Hj. unfold l in Hi, Hj. rewrite nth_error_map in Hi, Hj.
    destruct (nth_error polys i) as [p |] eqn:Hp; [| discriminate].
    destruct (nth_error polys j) as [q |] eqn:Hq; [| discriminate].
    cbn in Hi, Hj. injection Hi as Hi. injection Hj as Hj.
    apply (Hdisj r c i j p q Hb Hp Hq Hi Hj).
  - rewrite Hall, pixel_fold_uncovered in He by lia. discriminate.
  - rewrite Hkm, pixel_fold_single in He by lia. lia.
Qed.

End MaskBuilderDisjoint.

Lemma disjoint_polygons_same_masks_witness :
  exists mask_shapes : ndarray Z,
    create_mask_from_shapes rect_ndim rect_second_axis rect_fill rect_rasterizer [square_2d; row_2d] (3, 3)%nat
    = Ok (mask_shapes, mask_shapes).
Proof.
  apply (disjoint_polygons_same_masks rect_polygon rect_ndim rect_second_axis rect_fill rect_rasterizer).
  - repeat constructor.
  - cbn. lia.
  - intros r c i j p q Hb Hi Hj Hp Hq.
    apply in_pixels in Hb.
    destruct i as [| [| i]], j as [| [| j]]; cbn in Hi, Hj; try reflexivity;
      try (destruct i; discriminate); try (destruct j; discriminate);
      injection Hi as <-; injection Hj as <-;
      vm_compute in Hb;
      repeat (destruct Hb as [Hb | Hb];
              [injection Hb as <- <-; vm_compute in Hp, Hq; discriminate |]);
      contradiction.
Defined.

(** ** Perpendicularity Scorer: invariances and the two extremes *)

(** X6: The score only depends on the difference of the two angles: turning
    both by the same amount, or mirroring both, leaves it unchanged. *)
Theorem perpendicular_index_invariant (alpha beta t : R) :
  calculate_perpendicular_index (alpha + t) (beta + t)
  = calculate_perpendicular_index alpha beta /\
  calculate_perpendicular_index (- alpha) (- beta)
  = calculate_perpendicular_index alpha beta.
Proof.
  unfold calculate_perpendicular_index. split.
  - replace (alpha + t - (beta + t))%R with (alpha - beta)%R by lra. reflexivity.
  - replace (- alpha - - beta)%R with (- (alpha - beta))%R by lra.
    rewrite Rabs_Ropp. reflexivity.
Qed.

Lemma div_half_pi_eq (d v : R) : (d / (PI / 2))%R = v <-> d = (v * (PI / 2))%R.
Proof.
  pose proof half_pi_pos as Hp. split; intros H.
  - rewrite <- H. field. lra.
  - rewrite H. field. lra.
Qed.

(** X7: For two angles at most half a turn apart, the score is 0 exactly when
    they are equal or half a turn apart (parallel lines), and 1 exactly when
    they are a quarter turn apart (perpendicular lines). *)
Theorem perpendicular_index_extremes (alpha beta : R) :
  (Rabs (alpha - beta) <= PI)%R ->
  (calculate_perpendicular_index alpha beta = 0%R
   <-> alpha = beta \/ Rabs (alpha - beta) = PI) /\
  (calculate_perpendicular_index alpha beta = 1%R
   <-> Rabs (alpha - beta) = (PI / 2)%R).
Proof.
  intros Hd. pose proof PI_RGT_0 as Hpi.
  pose proof (Rabs_pos (alpha - beta)) as Hpos.
  assert (Hzero : Rabs (alpha - beta) = 0%R <-> alpha = beta).
  { split; intros H.
    - destruct (Req_dec (alpha - beta) 0) as [He | Hne]; [lra |].
      apply Rabs_no_R0 in Hne. contradiction.
    - subst. replace (beta - beta)%R with 0%R by lra. apply Rabs_R0. }
  unfold calculate_perpendicular_index.
  set (d := Rabs (alpha - beta)) in *.
  destruct (Rlt_dec PI d); [lra |].
  destruct (Rlt_dec (PI / 2) d); rewrite !div_half_pi_eq; split; split; intros H;
    try lra;
    try (destruct H as [H | H]; [apply Hzero in H; lra | lra]);
    try (right; lra);
    try (left; apply Hzero; lra).
Qed.

Lemma perpendicular_index_extremes_witness :
  calculate_perpendicular_index (PI / 4) (- (PI / 4)) = 1%R
  <-> Rabs (PI / 4 - - (PI / 4)) = (PI / 2)%R.
Proof.
  assert (H : (Rabs (PI / 4 - - (PI / 4)) <= PI)%R).
  { pose proof PI_RGT_0. unfold Rabs. destruct (Rcase_abs _); lra. }
  exact (proj2 (perpendicular_index_extremes (PI / 4) (- (PI / 4)) H)).
Defined.

(** ** Orientation: range, degenerate edges, reversal *)

Lemma arctan2_origin : arctan2 0 0 = 0%R.
Proof.
  unfold arctan2. destruct (Rlt_dec 0 0); [lra |]. reflexivity.
Qed.

(** Turning a direction around turns its angle by half a turn, towards the
    side that keeps it in (-pi, pi]. *)
Lemma arctan2_opposite (b a : R) :
  a <> 0%R \/ b <> 0%R ->
  arctan2 (- b) (- a)
  = if Rlt_dec 0 (arctan2 b a) then (arctan2 b a - PI)%R else (arctan2 b a + PI)%R.
Proof.
  intros Hne. pose proof PI_RGT_0 as Hpi. unfold arctan2.
  destruct (Rlt_dec 0 a) as [Ha | Ha].
  - assert (Hq : (- b / - a)%R = (b / a)%R) by (field; lra).
    destruct (Rlt_dec 0 (- a)); [lra |]. destruct (Rlt_dec (- a) 0); [| lra].
    rewrite Hq. pose proof (atan_bound (b / a)) as Hb.
    assert (Hinv : (0 < / a)%R) by (apply Rinv_0_lt_compat; exact Ha).
    destruct (Rle_dec 0 (- b)) as [Hb0 | Hb0].
    + assert (b / a <= 0)%R by (unfold Rdiv; nra).
      pose proof (atan_nonpos _ H). destruct (Rlt_dec 0 (atan (b / a))); lra.
    + assert (0 < b / a)%R by (unfold Rdiv; nra).
      pose proof (atan_pos _ H). destruct (Rlt_dec 0 (atan (b / a))); lra.
  - destruct (Rlt_dec a 0) as [Ha' | Ha'].
    + assert (Hq : (- b / - a)%R = (b / a)%R) by (field; lra).
      destruct (Rlt_dec 0 (- a)); [| lra]. rewrite Hq.
      pose proof (atan_bound (b / a)) as Hb.
      destruct (Rle_dec 0 b).
      * destruct (Rlt_dec 0 (atan (b / a) + PI)); lra.
      * destruct (Rlt_dec 0 (atan (b / a) - PI)); lra.
    + assert (a = 0%R) by lra. subst a.
      destruct (Rlt_dec 0 (- 0)); [lra |]. destruct (Rlt_dec (- 0) 0); [lra |].
      destruct (Rlt_dec 0 b) as [Hb | Hb].
      * destruct (Rlt_dec 0 (- b)); [lra |]. destruct (Rlt_dec (- b) 0); [| lra].
        destruct (Rlt_dec 0 (PI / 2)); lra.
      * destruct (Rlt_dec b 0) as [Hb' | Hb']; [| lra].
        destruct (Rlt_dec 0 (- b)); [| lra].
        destruct (Rlt_dec 0 (- (PI / 2))); lra.
Qed.

(** X8: The orientation of a segment lies in (-pi, pi]; it is 0 for a segment
    of length zero. *)
Theorem calculate_orientation_range (point1 point2 : point) :
  (- PI < calculate_orientation point1 point2 <= PI)%R /\
  calculate_orientation point1 point1 = 0%R.
Proof.
  unfold calculate_orientation. split; [apply arctan2_range |].
  replace (fst point1 - fst point1)%R with 0%R by lra.
  replace (snd point1 - snd point1)%R with 0%R by lra.
  apply arctan2_origin.
Qed.

(** X9: Swapping the two end points of a segment of non-zero length turns its
    orientation by half a turn: by -pi when it is positive, by +pi
    otherwise. *)
Theorem calculate_orientation_swap (point1 point2 : point) :
  point1 <> point2 ->
  calculate_orientation point2 point1
  = if Rlt_dec 0 (calculate_orientation point1 point2)
    then (calculate_orientation point1 point2 - PI)%R
    else (calculate_orientation point1 point2 + PI)%R.
Proof.
  intros Hne. unfold calculate_orientation.
  replace (snd point1 - snd point2)%R with (- (snd point2 - snd point1))%R by lra.
  replace (fst point1 - fst point2)%R with (- (fst point2 - fst point1))%R by lra.
  apply arctan2_opposite.
  destruct (Req_dec (fst point2 - fst point1) 0) as [Hx | Hx]; [| left; exact Hx].
  right. intros Hy. apply Hne. destruct point1, point2. cbn in *. f_equal; lra.
Qed.

Lemma calculate_orientation_swap_witness :
  calculate_orientation (1, 0)%R (0, 0)%R
  = if Rlt_dec 0 (calculate_orientation (0, 0)%R (1, 0)%R)
    then (calculate_orientation (0, 0)%R (1, 0)%R - PI)%R
    else (calculate_orientation (0, 0)%R (1, 0)%R + PI)%R.
Proof.
  apply (calculate_orientation_swap (0, 0)%R (1, 0)%R).
  intros H. injection H as H. lra.
Defined.

(** ** Orientation Estimator, vertex mode: invariance and degenerate input *)

Lemma arctan2_scale (k b a : R) :
  (0 < k)%R -> arctan2 (k * b) (k * a) = arctan2 b a.
Proof.
  intros Hk. unfold arctan2.
  destruct (Rlt_dec 0 a) as [Ha | Ha].
  - destruct (Rlt_dec 0 (k * a)); [| nra]. f_equal. field. lra.
  - destruct (Rlt_dec 0 (k * a)); [nra |].
    destruct (Rlt_dec a 0) as [Ha' | Ha'].
    + destruct (Rlt_dec (k * a) 0); [| nra].
      assert (Hq : (k * b / (k * a))%R = (b / a)%R) by (field; lra). rewrite Hq.
      destruct (Rle_dec 0 b), (Rle_dec 0 (k * b)); try reflexivity; nra.
    + destruct (Rlt_dec (k * a) 0); [nra |].
      destruct (Rlt_dec 0 b), (Rlt_dec 0 (k * b)); try reflexivity; try nra.
      destruct (Rlt_dec b 0), (Rlt_dec (k * b) 0); try reflexivity; nra.
Qed.

Lemma nth_map_any {A B : Type} (f : A -> B) (l : list A) (i : nat) (d : B) (d' : A) :
  (i < length l)%nat -> nth i (map f l) d = f (nth i l d').
Proof.
  intros Hi. rewrite (nth_indep _ d (f d')) by (rewrite length_map; exact Hi).
  apply map_nth.
Qed.

(** X10: The orientations of the edges do not change when the polygon is moved
    or enlarged: they are the same for the vertices [k*v + (dr, dc)],
    [k > 0], as for the vertices [v]. *)
Theorem orientations_similarity_invariant (vert : list point) (k dr dc : R) :
  (0 < k)%R ->
  orientations_from_vertices
    (map (fun v => (k * fst v + dr, k * snd v + dc)%R) vert)
  = orientations_from_vertices vert.
Proof.
  intros Hk. rewrite !orientations_from_vertices_map, length_map.
  apply map_ext_in. intros i Hi. apply in_seq in Hi.
  assert (Hi' : (i < length vert)%nat) by (unfold point in *; lia).
  rewrite (edge_orientation_backward vert i) by exact Hi'.
  rewrite edge_orientation_backward by (rewrite length_map; exact Hi').
  unfold backward_edge_angle. rewrite length_map.
  assert (Hnext : ((i + 1) mod length vert < length vert)%nat)
    by (apply Nat.mod_upper_bound; intros Hz; rewrite Hz in Hi'; inversion Hi').
  set (f := fun v : point => (k * fst v + dr, k * snd v + dc)%R).
  rewrite (nth_map_any f vert i _ (0, 0)%R) by exact Hi'.
  rewrite (nth_map_any f vert _ _ (0, 0)%R) by exact Hnext.
  etransitivity; [| apply (arctan2_scale k _ _ Hk)].
  f_equal; unfold f, point; cbn [fst snd]; lra.
Qed.

Lemma orientations_similarity_invariant_witness :
  orientations_from_vertices
    (map (fun v => (2 * fst v + 5, 2 * snd v + 7)%R) unit_square)
  = orientations_from_vertices unit_square.
Proof.
  apply (orientations_similarity_invariant unit_square 2 5 7). lra.
Defined.

(** X11: Degenerate polygons and the range of the result: no vertex gives no
    angle, a single vertex gives the angle 0 of its zero-length edge, and
    every angle returned lies in (-pi, pi]. *)
Theorem orientations_degenerate_and_range :
  orientations_from_vertices [] = [] /\
  (forall v : point, orientations_from_vertices [v] = [0%R]) /\
  (forall (vert : list point) (a : R),
      In a (orientations_from_vertices vert) -> (- PI < a <= PI)%R).
Proof.
  split; [reflexivity |]. split.
  - intros v. cbn. unfold edge_orientation, calculate_orientation. cbn.
    replace (fst v - fst v)%R with 0%R by lra.
    replace (snd v - snd v)%R with 0%R by lra.
    now rewrite arctan2_origin.
  - intros vert a Ha. rewrite orientations_from_vertices_map in Ha.
    apply in_map_iff in Ha. destruct Ha as [i [<- _]].
    unfold edge_orientation, calculate_orientation. apply arctan2_range.
Qed.

(** X12: For an edge of non-zero length, the orientation returned is the angle
    of the edge as traversed (from vertex i to the next vertex) turned by
    half a turn. *)
Theorem orientation_is_forward_turned (vert : list point) (i : nat) :
  (i < length vert)%nat ->
  nth i vert (0, 0)%R <> nth ((i + 1) mod length vert) vert (0, 0)%R ->
  nth i (orientations_from_vertices vert) 0%R
  = if Rlt_dec 0 (forward_edge_angle vert i)
    then (forward_edge_angle vert i - PI)%R
    else (forward_edge_angle vert i + PI)%R.
Proof.
  intros Hi Hne.
  rewrite orientations_from_vertices_map.
  rewrite (nth_map_any (edge_orientation vert) (seq 0 (length vert)) i 0%R 0%nat)
    by (rewrite length_seq; exact Hi).
  rewrite seq_nth by exact Hi. cbn [Nat.add].
  rewrite edge_orientation_backward by exact Hi.
  unfold backward_edge_angle, forward_edge_angle.
  set (p0 := nth i vert (0, 0)%R) in *.
  set (p1 := nth ((i + 1) mod length vert) vert (0, 0)%R) in *.
  replace (fst p0 - fst p1)%R with (- (fst p1 - fst p0))%R by lra.
  replace (snd p0 - snd p1)%R with (- (snd p1 - snd p0))%R by lra.
  apply arctan2_opposite.
  destruct (Req_dec (snd p1 - snd p0) 0) as [Hx | Hx]; [| left; exact Hx].
  right. intros Hy. apply Hne. destruct p0, p1. cbn in *. f_equal; lra.
Qed.

Lemma orientation_is_forward_turned_witness :
  nth 0 (orientations_from_vertices unit_square) 0%R
  = if Rlt_dec 0 (forward_edge_angle unit_square 0)
    then (forward_edge_angle unit_square 0 - PI)%R
    else (forward_edge_angle unit_square 0 + PI)%R.
Proof.
  apply (orientation_is_forward_turned unit_square 0).
  - cbn. lia.
  - cbn. intros H. injection H as H. lra.
Defined.

(** ** Signal Interpolator: errors, the values written, idempotence *)

Lemma argwhere_from_length0 (m : list bool) (i : Z) :
  length (argwhere_from i m) = 0%nat -> argwhere_from i m = [].
Proof. destruct (argwhere_from i m); [reflexivity | discriminate]. Qed.

Lemma no_sample_point_raises (signal : ref) (h : heap (list sample)) :
  defined_values (store h signal) = [] ->
  interpolate_and_fill signal h = Raise ValueError.
Proof.
  intros Hnone. unfold interpolate_and_fill, argwhere.
  rewrite (argwhere_from_length0 (map (fun v => negb (isnan v)) (store h signal)) 0)
    by (rewrite length_argwhere_defined, Hnone; reflexivity).
  rewrite Hnone. reflexivity.
Qed.

(** X13: A signal without any defined entry, the empty signal included, makes
    [np.interp] raise: there is no sample point to interpolate from. *)
Theorem interpolate_no_defined_raises (signal : ref) (h : heap (list sample)) :
  defined_values (store h signal) = [] ->
  interpolate_and_fill signal h = Raise ValueError.
Proof. apply no_sample_point_raises. Qed.

Lemma interpolate_no_defined_raises_witness :
  interpolate_and_fill 0 (heap_of [None; None]) = Raise ValueError /\
  interpolate_and_fill 0 (heap_of (@nil sample)) = Raise ValueError.
Proof.
  split; apply interpolate_no_defined_raises; reflexivity.
Defined.

Lemma interpolate_returns_two_defined (signal l' : ref) (h h' : heap (list sample)) :
  interpolate_and_fill signal h = Ok (l', h') ->
  (2 <= length (defined_values (store h signal)))%nat.
Proof.
  intros Hrun.
  destruct (length (defined_values (store h signal))) as [| [| n]] eqn:Hlen; [| | lia].
  - rewrite no_sample_point_raises in Hrun; [discriminate |].
    destruct (defined_values (store h signal)); [reflexivity | discriminate].
  - unfold interpolate_and_fill, argwhere in Hrun.
    destruct (squeeze_singleton
                (argwhere_from 0 (map (fun v => negb (isnan v)) (store h signal))))
      as [a Ha].
    { rewrite length_argwhere_defined. exact Hlen. }
    rewrite Ha in Hrun. discriminate Hrun.
Qed.

Lemma length_defined_all (l : list sample) :
  Forall (fun v => isnan v = false) l -> length (defined_values l) = length l.
Proof.
  induction 1 as [| [v |] l Hv _ IH]; cbn; [reflexivity | congruence | discriminate].
Qed.

Lemma length_defined_le (l : list sample) : (length (defined_values l) <= length l)%nat.
Proof. induction l as [| [v |] l IH]; cbn; lia. Qed.

Lemma returned_signal_defined (signal l' : ref) (h h' : heap (list sample)) :
  interpolate_and_fill signal h = Ok (l', h') ->
  Forall (fun v => isnan v = false) (store h' l').
Proof.
  intros Hrun.
  destruct (interpolate_and_fill_writes signal l' h h' Hrun)
    as [-> [_ [Hlen [Hkeep Hfill]]]].
  apply Forall_forall. intros v Hv. apply In_nth_error in Hv. destruct Hv as [i Hi].
  assert (Hlt : (i < length (store h signal))%nat).
  { rewrite <- Hlen. apply nth_error_Some. congruence. }
  destruct (nth_error (store h signal) i) as [[w |] |] eqn:Hold.
  - rewrite (Hkeep i w Hold) in Hi. injection Hi as <-. reflexivity.
  - destruct (Hfill i Hold) as [w Hw]. rewrite Hw in Hi. injection Hi as <-. reflexivity.
  - apply nth_error_None in Hold. lia.
Qed.

(** X14: When the call returns, the signal it returns has no NaN entry left. *)
Theorem interpolate_leaves_no_nan (signal l' : ref) (h h' : heap (list sample)) :
  interpolate_and_fill signal h = Ok (l', h') ->
  Forall (fun v => isnan v = false) (store h' l').
Proof. apply returned_signal_defined. Qed.

Lemma interpolate_leaves_no_nan_witness :
  match interpolate_and_fill 0 (heap_of [None; Some 1%R; None; Some 3%R]) with
  | Ok (l', h') => Forall (fun v => isnan v = false) (store h' l')
  | Raise _ => False
  end.
Proof.
  destruct (interpolate_and_fill 0 (heap_of [None; Some 1%R; None; Some 3%R]))
    as [[l' h'] | e] eqn:Hrun.
  - apply (interpolate_leaves_no_nan 0%nat l' _ h' Hrun).
  - cbn in Hrun. discriminate Hrun.
Defined.

(** X15: Filling is idempotent: a second call on the array a first call has
    returned also returns, and leaves the array as it is. *)
Theorem interpolate_idempotent (signal l' : ref) (h h' : heap (list sample)) :
  interpolate_and_fill signal h = Ok (l', h') ->
  exists h'',
    interpolate_and_fill l' h' = Ok (l', h'') /\
    store h'' l' = store h' l'.
Proof.
  intros Hrun.
  pose proof (returned_signal_defined signal l' h h' Hrun) as Hdef.
  pose proof (interpolate_returns_two_defined signal l' h h' Hrun) as Htwo.
  destruct (interpolate_and_fill_writes signal l' h h' Hrun) as [-> [_ [Hlen _]]].
  apply interpolate_no_nan_unchanged.
  - intros v Hv. rewrite Forall_forall in Hdef. apply Hdef, Hv.
  - rewrite length_defined_all by exact Hdef. rewrite Hlen.
    pose proof (length_defined_le (store h signal)). lia.
Qed.

Lemma interpolate_idempotent_witness :
  match interpolate_and_fill 0 (heap_of [Some 1%R; None; Some 3%R]) with
  | Ok (l', h') =>
      exists h'', interpolate_and_fill l' h' = Ok (l', h'') /\ store h'' l' = store h' l'
  | Raise _ => False
  end.
Proof.
  destruct (interpolate_and_fill 0 (heap_of [Some 1%R; None; Some 3%R]))
    as [[l' h'] | e] eqn:Hrun.
  - apply (interpolate_idempotent 0%nat l' _ h' Hrun).
  - cbn in Hrun. discriminate Hrun.
Defined.

(** *** The value written at a NaN entry *)

Lemma assign_all_keeps_value (B : Type) (g : B -> nat * R) (F : nat -> R)
    (l : list B) (s : list sample) (j : nat) :
  (forall b, In b l -> snd (g b) = F (fst (g b))) ->
  nth_error s j = Some (Some (F j)) ->
  nth_error (assign_all g l s) j = Some (Some (F j)).
Proof.
  revert s. induction l as [| b l IH]; intros s Hg H; cbn; [exact H |].
  apply IH; [intros b' Hb'; apply Hg; right; exact Hb' |].
  destruct (Nat.eq_dec j (fst (g b))) as [-> | Hne].
  - rewrite (Hg b (or_introl eq_refl)). apply nth_error_set_index_same.
    apply nth_error_Some. rewrite H. discriminate.
  - rewrite nth_error_set_index_other by exact Hne. exact H.
Qed.

Lemma assign_all_value (B : Type) (g : B -> nat * R) (F : nat -> R)
    (l : list B) (s : list sample) (j : nat) :
  (forall b, In b l -> snd (g b) = F (fst (g b))) ->
  In j (map (fun b => fst (g b)) l) -> (j < length s)%nat ->
  nth_error (assign_all g l s) j = Some (Some (F j)).
Proof.
  revert s. induction l as [| b l IH]; intros s Hg Hin Hj; cbn in *; [contradiction |].
  destruct (Nat.eq_dec (fst (g b)) j) as [Heq | Hne].
  - apply assign_all_keeps_value; [intros b' Hb'; apply Hg; right; exact Hb' |].
    rewrite (Hg b (or_introl eq_refl)), Heq.
    apply nth_error_set_index_same. exact Hj.
  - apply IH; [intros b' Hb'; apply Hg; right; exact Hb' | tauto |
               now rewrite length_set_index].
Qed.

Lemma in_combine_map {A C : Type} (f : A -> C) (l : list A) (a : A) (v : C) :
  In (a, v) (combine l (map f l)) -> v = f a.
Proof.
  induction l as [| x l IH]; cbn; [contradiction |].
  intros [H | H]; [inversion H; reflexivity | auto].
Qed.

Lemma argwhere_nonneg (m : list bool) (i : Z) :
  In i (argwhere m) -> (0 <= i)%Z.
Proof.
  unfold argwhere. intros H. apply in_argwhere_from in H. destruct H as [n [-> _]]. lia.
Qed.

(** Every NaN entry receives what [np.interp] computes at its index from
    the defined entries. *)
Lemma interpolate_value (signal l' : ref) (h h' : heap (list sample)) (i : nat) :
  interpolate_and_fill signal h = Ok (l', h') ->
  nth_error (store h signal) i = Some None ->
  nth_error (store h' signal) i
  = Some (Some (interp_at (argwhere (map (fun v => negb (isnan v)) (store h signal)))
                  (defined_values (store h signal)) (Z.of_nat i))).
Proof.
  intros Hrun Hnan.
  pose proof (interpolate_returns_two_defined signal l' h h' Hrun) as Htwo.
  unfold interpolate_and_fill in Hrun.
  set (arr := store h signal) in *.
  set (xp := argwhere (map (fun v => negb (isnan v)) arr)) in *.
  set (fp := defined_values arr) in *.
  assert (Hxp : squeeze xp = Array1 xp).
  { apply squeeze_many. unfold xp, argwhere. rewrite length_argwhere_defined.
    fold fp. lia. }
  assert (Hfp : squeeze fp = Array1 fp) by (apply squeeze_many; lia).
  rewrite Hxp, Hfp in Hrun. unfold np_interp in Hrun.
  destruct (length xp =? 0)%nat; [discriminate |].
  destruct (negb (length fp =? length xp)%nat); [discriminate |].
  assert (Hin : In i (map Z.to_nat (argwhere (map isnan arr))))
    by (apply in_argwhere_isnan; exact Hnan).
  assert (Hlt : (i < length arr)%nat) by (apply nth_error_Some; rewrite Hnan; discriminate).
  pose proof (indices_squeeze (argwhere (map isnan arr))) as Hidx.
  destruct (squeeze (argwhere (map isnan arr))) as [x0 | xs]; cbn [indices] in Hidx;
    cbn [bind setitem] in Hrun.
  - injection Hrun as _ <-. cbn [store heap_write]. rewrite Nat.eqb_refl.
    rewrite <- Hidx in Hin. cbn in Hin. destruct Hin as [<- | []].
    assert (0 <= x0)%Z
      by (apply (argwhere_nonneg (map isnan arr)); rewrite <- Hidx; left; reflexivity).
    rewrite Z2Nat.id by assumption.
    apply nth_error_set_index_same. exact Hlt.
  - subst xs. rewrite length_map, Nat.eqb_refl in Hrun. cbn [bind] in Hrun.
    injection Hrun as _ <-. cbn [store heap_write]. rewrite Nat.eqb_refl.
    set (gg := fun iv : Z * R => (Z.to_nat (fst iv), snd iv)).
    change (fold_left _ ?l arr) with (assign_all gg l arr).
    apply (assign_all_value (Z * R) gg (fun j => interp_at xp fp (Z.of_nat j))).
    + intros [x v] Hb. unfold gg. cbn [fst snd].
      pose proof (in_combine_l _ _ _ _ Hb) as Hx.
      apply argwhere_nonneg in Hx. rewrite Z2Nat.id by exact Hx.
      apply (in_combine_map (interp_at xp fp) _ x v Hb).
    + replace (map (fun b => fst (gg b))
                 (combine (argwhere (map isnan arr))
                    (map (interp_at xp fp) (argwhere (map isnan arr)))))
        with (map Z.to_nat (argwhere (map isnan arr))); [exact Hin |].
      rewrite <- (map_fst_combine_map (interp_at xp fp) (argwhere (map isnan arr))) at 1.
      rewrite map_map. reflexivity.
    + exact Hlt.
Qed.

(** *** [np.interp] between, before and after the sample points *)

Lemma interp_after_between (x x0 x1 y : Z) (f0 f1 fy : R)
    (ys xs' : list Z) (gs fs' : list R) :
  Forall (fun z => (z < x)%Z) ys -> length ys = length gs ->
  (x0 < x < x1)%Z ->
  interp_after x y fy (ys ++ x0 :: x1 :: xs') (gs ++ f0 :: f1 :: fs')
  = ((f1 - f0) / (IZR x1 - IZR x0) * (IZR x - IZR x0) + f0)%R.
Proof.
  intros Hys. revert y fy gs. induction Hys as [| z ys Hz _ IH]; intros y fy gs Hlen Hx.
  - destruct gs; [| discriminate]. cbn.
    replace (x <? x0)%Z with false by (symmetry; apply Z.ltb_ge; lia).
    replace (x <? x1)%Z with true by (symmetry; apply Z.ltb_lt; lia).
    reflexivity.
  - destruct gs as [| g gs]; [discriminate |]. cbn.
    replace (x <? z)%Z with false by (symmetry; apply Z.ltb_ge; lia).
    apply IH; [cbn in Hlen; lia | exact Hx].
Qed.

Lemma interp_at_between (x x0 x1 : Z) (f0 f1 : R)
    (ys xs' : list Z) (gs fs' : list R) :
  Forall (fun z => (z < x)%Z) ys -> length ys = length gs ->
  (x0 < x < x1)%Z ->
  interp_at (ys ++ x0 :: x1 :: xs') (gs ++ f0 :: f1 :: fs') x
  = ((f1 - f0) / (IZR x1 - IZR x0) * (IZR x - IZR x0) + f0)%R.
Proof.
  intros Hys Hlen Hx. destruct Hys as [| z ys Hz Hys].
  - destruct gs; [| discriminate]. cbn.
    replace (x <=? x0)%Z with false by (symmetry; apply Z.leb_gt; lia).
    replace (x <? x1)%Z with true by (symmetry; apply Z.ltb_lt; lia).
    reflexivity.
  - destruct gs as [| g gs]; [discriminate |]. cbn [app interp_at].
    replace (x <=? z)%Z with false by (symmetry; apply Z.leb_gt; lia).
    apply interp_after_between; [exact Hys | cbn in Hlen; lia | exact Hx].
Qed.

Lemma last_indep {A : Type} (l : list A) (d d' : A) :
  l <> [] -> last l d = last l d'.
Proof.
  induction l as [| a l IH]; intros H; [contradiction |].
  destruct l as [| b l]; [reflexivity |]. cbn [last] in *. apply IH. discriminate.
Qed.

Lemma interp_after_beyond (x y : Z) (fy : R) (ys : list Z) (gs : list R) :
  Forall (fun z => (z < x)%Z) ys -> length ys = length gs ->
  interp_after x y fy ys gs = last gs fy.
Proof.
  intros Hys. revert y fy gs. induction Hys as [| z ys Hz _ IH]; intros y fy gs Hlen.
  - destruct gs; [reflexivity | discriminate].
  - destruct gs as [| g gs]; [discriminate |]. cbn [interp_after].
    replace (x <? z)%Z with false by (symmetry; apply Z.ltb_ge; lia).
    rewrite IH by (cbn in Hlen; lia).
    destruct gs as [| r gs]; [reflexivity |].
    change (last (g :: r :: gs) fy) with (last (r :: gs) fy).
    apply last_indep. discriminate.
Qed.

Lemma argwhere_from_app (m1 m2 : list bool) (i : Z) :
  argwhere_from i (m1 ++ m2)
  = argwhere_from i m1 ++ argwhere_from (i + Z.of_nat (length m1)) m2.
Proof.
  revert i. induction m1 as [| b m1 IH]; intros i; cbn [app argwhere_from length].
  - cbn. now rewrite Z.add_0_r.
  - rewrite IH. replace (i + 1 + Z.of_nat (length m1))%Z
      with (i + Z.of_nat (S (length m1)))%Z by lia.
    destruct b; reflexivity.
Qed.

Lemma defined_values_app (l1 l2 : list sample) :
  defined_values (l1 ++ l2) = defined_values l1 ++ defined_values l2.
Proof.
  induction l1 as [| [v |] l1 IH]; cbn; [reflexivity | now rewrite IH | exact IH].
Qed.

Lemma argwhere_from_nan (m : nat) (i : Z) :
  argwhere_from i (map notnan (repeat None m)) = [].
Proof. revert i. induction m as [| m IH]; intros i; cbn; [reflexivity | apply IH]. Qed.

Lemma defined_values_nan (m : nat) : defined_values (repeat None m) = [].
Proof. induction m as [| m IH]; cbn; [reflexivity | exact IH]. Qed.

Lemma argwhere_from_below (m : list bool) (i : Z) :
  Forall (fun z => (z < i + Z.of_nat (length m))%Z) (argwhere_from i m).
Proof.
  apply Forall_forall. intros z Hz. apply in_argwhere_from in Hz.
  destruct Hz as [n [-> Hn]].
  assert (n < length m)%nat by (apply nth_error_Some; congruence). lia.
Qed.

Lemma length_argwhere_notnan (l : list sample) (i : Z) :
  length (argwhere_from i (map notnan l)) = length (defined_values l).
Proof. apply length_argwhere_defined. Qed.

Lemma neighbours_sample_points (pre post : list sample) (a b : R) (m : nat) :
  argwhere (map (fun v => negb (isnan v))
              (pre ++ Some a :: repeat None m ++ Some b :: post))
  = argwhere_from 0 (map notnan pre)
    ++ Z.of_nat (length pre)
    :: (Z.of_nat (length pre) + 1 + Z.of_nat m)%Z
    :: argwhere_from (Z.of_nat (length pre) + 1 + Z.of_nat m + 1) (map notnan post) /\
  defined_values (pre ++ Some a :: repeat None m ++ Some b :: post)
  = defined_values pre ++ a :: b :: defined_values post.
Proof.
  split.
  - unfold argwhere. change (fun v : sample => negb (isnan v)) with notnan.
    rewrite map_app, argwhere_from_app, length_map. cbn [map argwhere_from notnan isnan negb].
    rewrite map_app, argwhere_from_app, argwhere_from_nan, length_map, repeat_length.
    cbn [app map argwhere_from notnan isnan negb]. rewrite Z.add_0_l. reflexivity.
  - rewrite defined_values_app. cbn [defined_values].
    rewrite defined_values_app, defined_values_nan. reflexivity.
Qed.

Lemma nth_error_gap (pre post : list sample) (a b : R) (m t : nat) :
  (t < m)%nat ->
  nth_error (pre ++ Some a :: repeat None m ++ Some b :: post) (length pre + 1 + t)
  = Some None.
Proof.
  intros Ht. rewrite nth_error_app2 by lia.
  replace (length pre + 1 + t - length pre)%nat with (S t) by lia. cbn [nth_error].
  rewrite nth_error_app1 by (rewrite repeat_length; exact Ht).
  apply nth_error_repeat. exact Ht.
Qed.

(** X16: A run of NaN entries between two defined entries [a] and [b] is filled
    with the straight line from [a] to [b]: the entry [t+1] places after
    [a], in a run of [m] NaN, becomes a + (b - a) * (t+1)/(m+1). *)
Theorem interpolate_between_neighbours (signal : ref) (h : heap (list sample))
    (pre post : list sample) (a b : R) (m t : nat) :
  store h signal = pre ++ Some a :: repeat None m ++ Some b :: post ->
  (t < m)%nat ->
  exists h',
    interpolate_and_fill signal h = Ok (signal, h') /\
    nth_error (store h' signal) (length pre + 1 + t)
    = Some (Some (a + (b - a) * (INR (t + 1) / INR (m + 1)))%R).
Proof.
  intros Harr Ht.
  destruct (neighbours_sample_points pre post a b m) as [Hxp Hfp].
  destruct (interpolate_two_defined_returns signal h) as [h' Hrun].
  { rewrite Harr, Hfp, length_app. cbn. lia. }
  exists h'. split; [exact Hrun |].
  rewrite (interpolate_value signal signal h h' (length pre + 1 + t) Hrun)
    by (rewrite Harr; apply nth_error_gap; exact Ht).
  rewrite Harr, Hxp, Hfp. do 2 f_equal.
  rewrite interp_at_between.
  - assert (Hm : INR (m + 1) <> 0%R) by (apply not_0_INR; lia).
    replace (IZR (Z.of_nat (length pre) + 1 + Z.of_nat m) - IZR (Z.of_nat (length pre)))%R
      with (INR (m + 1)).
    2: { rewrite <- minus_IZR, INR_IZR_INZ. f_equal. lia. }
    replace (IZR (Z.of_nat (length pre + 1 + t)) - IZR (Z.of_nat (length pre)))%R
      with (INR (t + 1)).
    2: { rewrite <- minus_IZR, INR_IZR_INZ. f_equal. lia. }
    field. exact Hm.
  - eapply Forall_impl; [| apply argwhere_from_below].
    intros z Hz. cbn beta in Hz. rewrite length_map in Hz. lia.
  - apply length_argwhere_notnan.
  - lia.
Qed.

Lemma interpolate_between_neighbours_witness :
  exists h',
    interpolate_and_fill 0 (heap_of ([] ++ Some 1%R :: repeat None 3 ++ Some 9%R :: []))
    = Ok (0%nat, h') /\
    nth_error (store h' 0%nat) (length (@nil sample) + 1 + 1)
    = Some (Some (1 + (9 - 1) * (INR (1 + 1) / INR (3 + 1)))%R).
Proof.
  apply (interpolate_between_neighbours 0%nat _ [] [] 1 9 3 1).
  - reflexivity.
  - lia.
Defined.

(** X17: NaN entries before the first defined entry take its value, and NaN
    entries after the last defined entry take the value of that one. *)
Theorem interpolate_edges (signal : ref) (h : heap (list sample))
    (inner : list sample) (a b : R) (m n : nat) :
  store h signal = repeat None m ++ Some a :: inner ++ Some b :: repeat None n ->
  exists h',
    interpolate_and_fill signal h = Ok (signal, h') /\
    (forall t, (t < m)%nat -> nth_error (store h' signal) t = Some (Some a)) /\
    (forall t, (t < n)%nat ->
               nth_error (store h' signal) (m + 1 + length inner + 1 + t) = Some (Some b)).
Proof.
  intros Harr.
  assert (Hfp : defined_values (store h signal)
                = a :: defined_values inner ++ [b]).
  { rewrite Harr, defined_values_app, defined_values_nan. cbn [app defined_values].
    rewrite defined_values_app. cbn [defined_values]. now rewrite defined_values_nan. }
  assert (Hxp : argwhere (map (fun v => negb (isnan v)) (store h signal))
                = Z.of_nat m
                  :: argwhere_from (Z.of_nat m + 1) (map notnan inner)
                  ++ [(Z.of_nat m + 1 + Z.of_nat (length inner))%Z]).
  { rewrite Harr. unfold argwhere. change (fun v : sample => negb (isnan v)) with notnan.
    rewrite map_app, argwhere_from_app, argwhere_from_nan, length_map, repeat_length.
    cbn [app map argwhere_from notnan isnan negb]. rewrite Z.add_0_l. f_equal.
    rewrite map_app, argwhere_from_app, length_map.
    cbn [map argwhere_from notnan isnan negb]. now rewrite argwhere_from_nan. }
  destruct (interpolate_two_defined_returns signal h) as [h' Hrun].
  { rewrite Hfp. cbn. rewrite length_app. cbn. lia. }
  exists h'. split; [exact Hrun |]. split.
  - intros t Ht.
    rewrite (interpolate_value signal signal h h' t Hrun).
    2: { rewrite Harr, nth_error_app1 by (rewrite repeat_length; exact Ht).
         apply nth_error_repeat. exact Ht. }
    rewrite Hxp, Hfp. cbn [interp_at].
    replace (Z.of_nat t <=? Z.of_nat m)%Z with true by (symmetry; apply Z.leb_le; lia).
    reflexivity.
  - intros t Ht.
    rewrite (interpolate_value signal signal h h' _ Hrun).
    2: { rewrite Harr, nth_error_app2 by (rewrite repeat_length; lia).
         rewrite repeat_length.
         replace (m + 1 + length inner + 1 + t - m)%nat with (S (length inner + 1 + t)) by lia.
         cbn [nth_error]. rewrite nth_error_app2 by lia.
         replace (length inner + 1 + t - length inner)%nat with (S t) by lia.
         cbn [nth_error]. apply nth_error_repeat. exact Ht. }
    rewrite Hxp, Hfp. cbn [interp_at].
    replace (Z.of_nat (m + 1 + length inner + 1 + t) <=? Z.of_nat m)%Z with false
      by (symmetry; apply Z.leb_gt; lia).
    rewrite interp_after_beyond.
    + rewrite last_last. reflexivity.
    + apply Forall_app. split.
      * eapply Forall_impl; [| apply argwhere_from_below].
        intros z Hz. cbn beta in Hz. rewrite length_map in Hz. lia.
      * constructor; [lia | constructor].
    + rewrite !length_app, length_argwhere_notnan. reflexivity.
Qed.

Lemma interpolate_edges_witness :
  exists h',
    interpolate_and_fill 0
      (heap_of (repeat None 2 ++ Some 4%R :: [None] ++ Some 6%R :: repeat None 1))
    = Ok (0%nat, h') /\
    (forall t, (t < 2)%nat -> nth_error (store h' 0%nat) t = Some (Some 4%R)) /\
    (forall t, (t < 1)%nat ->
               nth_error (store h' 0%nat) (2 + 1 + length [@None R] + 1 + t)
               = Some (Some 6%R)).
Proof.
  apply (interpolate_edges 0%nat _ [None] 4 6 2 1). reflexivity.
Defined.

(** ** Gap/Overlap Resolver: what the correction grid holds *)

Lemma pixels_empty (sh : shape) : pixels sh = [] -> fst sh = 0%nat \/ snd sh = 0%nat.
Proof.
  destruct sh as [[| n] [| m]]; cbn [fst snd]; auto. intros H. discriminate H.
Qed.

Lemma pixels_of_empty (sh : shape) : fst sh = 0%nat \/ snd sh = 0%nat -> pixels sh = [].
Proof.
  destruct sh as [n m]. cbn [fst snd]. intros [-> | ->]; [reflexivity |].
  unfold pixels. cbn [fst snd range seq map]. induction (map Z.of_nat (seq 0 n)); auto.
Qed.

Lemma pixels_tabulate_empty {A : Type} (sh : shape) (f : Z -> Z -> A) :
  pixels sh = [] -> pixels (shape_of (tabulate sh f)) = [].
Proof.
  intros H. apply pixels_of_empty. apply pixels_empty in H.
  destruct sh as [n m]. cbn [fst snd] in H. unfold shape_of, tabulate. cbn [fst snd].
  destruct H as [-> | ->]; [left; reflexivity |].
  destruct n as [| n]; [left; reflexivity |]. right. reflexivity.
Qed.

Section GapResolverMore.

Variable M : morphology.

(** X18: On an image without pixels the resolver raises [ValueError]: the
    maximum of a zero-size array does not exist. *)
Theorem fill_gaps_zero_size (mask_shapes_overlap : ndarray Z) :
  pixels (shape_of mask_shapes_overlap) = [] ->
  fill_gaps_between_cells M mask_shapes_overlap = Raise ValueError.
Proof.
  intros Hempty. unfold fill_gaps_between_cells, divide_contested, np_max.
  unfold update_where at 1 2. rewrite pixels_tabulate_empty by exact Hempty.
  reflexivity.
Qed.

(** X19: The correction grid only holds labels that [expand_labels] proposes for
    the overlap-free mask: every pixel of the grid is 0 or the expanded
    label of that pixel, and a sentinel pixel always gets the expanded
    label. *)
Theorem correction_values (mask_shapes_overlap : ndarray Z) (r c : Z) :
  in_bounds (shape_of mask_shapes_overlap) r c = true ->
  exists im_divided,
    fill_gaps_between_cells M mask_shapes_overlap = Ok im_divided /\
    (item 0%Z im_divided r c = 0%Z \/
     item 0%Z im_divided r c
     = item 0%Z (expand_labels M (overlap_free mask_shapes_overlap) 250) r c) /\
    (item 0%Z mask_shapes_overlap r c = 255%Z ->
     item 0%Z im_divided r c
     = item 0%Z (expand_labels M (overlap_free mask_shapes_overlap) 250) r c).
Proof.
  intros Hb. unfold fill_gaps_between_cells, divide_contested, overlap_free.
  set (sh := shape_of mask_shapes_overlap) in *.
  set (ms := update_where sh (eq_scalar sh (copy mask_shapes_overlap) 255)
               (fun _ => 0%Z) (copy mask_shapes_overlap)).
  destruct (np_max_ok ms) as [n Hn].
  { unfold ms, update_where. rewrite shape_of_tabulate by (eapply in_bounds_rows; eauto).
    eapply pixels_nonempty; eauto. }
  rewrite Hn. cbn [bind]. eexists. split; [reflexivity |].
  rewrite item_tabulate by exact Hb.
  rewrite (item_tabulate 0%Z sh _ r c Hb).
  rewrite or_positive_item by exact Hb.
  set (e := item 0%Z (expand_labels M ms 250) r c).
  destruct (Z.ltb_spec 0 (item 0%Z mask_shapes_overlap r c)) as [Hpos | Hnpos].
  - destruct (Z.eqb_spec (item 0%Z mask_shapes_overlap r c) 255) as [H255 | Hn255];
      cbn [b2z]; split.
    + right. lia.
    + intros _. lia.
    + left. lia.
    + intros H. contradiction.
  - destruct (Z.eqb_spec (item 0%Z mask_shapes_overlap r c) 255) as [H255 | Hn255]; [lia |].
    split; [| intros H; contradiction].
    destruct (item 0%Z mask_shapes_overlap r c =? 0)%Z;
      [destruct (item false _ r c) |]; cbn [b2z]; (left; lia) || (right; lia).
Qed.

(** X20: Without any region, the resolver has nothing to hand out: if
    [expand_labels] gives an image without labels back without labels, an
    all-zero mask gets the all-zero correction grid. *)
Theorem fill_gaps_no_region (mask_shapes_overlap : ndarray Z) :
  (forall (label_image : ndarray Z) (distance r c : Z),
      (forall r' c',
          in_bounds (shape_of label_image) r' c' = true ->
          item 0%Z label_image r' c' = 0%Z) ->
      item 0%Z (expand_labels M label_image distance) r c = 0%Z) ->
  pixels (shape_of mask_shapes_overlap) <> [] ->
  (forall r c,
      in_bounds (shape_of mask_shapes_overlap) r c = true ->
      item 0%Z mask_shapes_overlap r c = 0%Z) ->
  fill_gaps_between_cells M mask_shapes_overlap
  = Ok (zeros (shape_of mask_shapes_overlap)).
Proof.
  intros Hexpand Hne Hzero. unfold fill_gaps_between_cells, divide_contested.
  set (sh := shape_of mask_shapes_overlap) in *.
  set (ms := update_where sh (eq_scalar sh (copy mask_shapes_overlap) 255)
               (fun _ => 0%Z) (copy mask_shapes_overlap)).
  assert (Hrows : (0 < fst sh)%nat).
  { destruct (pixels sh) as [| [r c] l] eqn:Hp; [contradiction |].
    apply (in_bounds_rows sh r c). apply in_pixels. rewrite Hp. left. reflexivity. }
  assert (Hsh : shape_of ms = sh).
  { unfold ms, update_where. apply shape_of_tabulate. exact Hrows. }
  destruct (np_max_ok ms) as [n Hn]; [rewrite Hsh; exact Hne |].
  rewrite Hn. cbn [bind]. f_equal. unfold zeros. apply tabulate_ext.
  intros r c Hb. rewrite Hexpand; [reflexivity |].
  intros r' c' Hb'. rewrite Hsh in Hb'. unfold ms, update_where, copy.
  rewrite item_tabulate by exact Hb'. rewrite Hzero by exact Hb'.
  destruct (item false _ r' c'); reflexivity.
Qed.

End GapResolverMore.

Lemma item_tabulate_outside {A : Type} (d : A) (sh : shape) (f : Z -> Z -> A) (r c : Z) :
  in_bounds sh r c = false -> item d (tabulate sh f) r c = d.
Proof.
  intros Hb. unfold item.
  destruct (Z.ltb_spec r 0) as [Hr | Hr]; [reflexivity |].
  destruct (Z.ltb_spec c 0) as [Hc | Hc]; [reflexivity |]. cbn [orb].
  unfold in_bounds in Hb.
  replace (0 <=? r)%Z with true in Hb by (symmetry; apply Z.leb_le; lia).
  replace (0 <=? c)%Z with true in Hb by (symmetry; apply Z.leb_le; lia).
  cbn [andb] in Hb.
  destruct (Z.ltb_spec r (Z.of_nat (fst sh))) as [Hr' | Hr'].
  - cbn [andb] in Hb. apply Z.ltb_ge in Hb.
    unfold tabulate. rewrite nth_map_range by lia.
    apply nth_overflow. rewrite length_map, length_range. lia.
  - unfold tabulate. rewrite (nth_overflow _ []).
    + destruct (Z.to_nat c); reflexivity.
    + rewrite length_map, length_range. lia.
Qed.

Lemma skimage_expand_labels_blank (label_image : ndarray Z) (distance r c : Z) :
  (forall r' c',
      in_bounds (shape_of label_image) r' c' = true ->
      item 0%Z label_image r' c' = 0%Z) ->
  item 0%Z (Skimage.expand_labels label_image distance) r c = 0%Z.
Proof.
  intros Hblank. unfold Skimage.expand_labels.
  destruct (in_bounds (shape_of label_image) r c) eqn:Hb;
    [| apply item_tabulate_outside; exact Hb].
  rewrite item_tabulate by exact Hb.
  assert (Hnone : Skimage.nearest_labelled label_image (r, c) = None).
  { unfold Skimage.nearest_labelled.
    assert (Hall : forall q, In q (pixels (shape_of label_image)) ->
                             item 0%Z label_image (fst q) (snd q) = 0%Z).
    { intros [qr qc] Hq. apply Hblank. apply in_pixels. exact Hq. }
    induction (pixels (shape_of label_image)) as [| q l IH]; [reflexivity |].
    cbn [fold_left]. rewrite (Hall q (or_introl eq_refl)). cbn.
    apply IH. intros q' Hq'. apply Hall. right. exact Hq'. }
  rewrite Hnone. reflexivity.
Qed.

Lemma fill_gaps_zero_size_witness :
  fill_gaps_between_cells Skimage.model (@nil (list Z)) = Raise ValueError /\
  fill_gaps_between_cells Skimage.model [[]; []] = Raise ValueError.
Proof.
  split; apply fill_gaps_zero_size; reflexivity.
Defined.

Lemma correction_values_witness :
  exists im_divided,
    fill_gaps_between_cells Skimage.model [[1; 255; 2]]%Z = Ok im_divided /\
    (item 0%Z im_divided 0 1 = 0%Z \/
     item 0%Z im_divided 0 1
     = item 0%Z (expand_labels Skimage.model (overlap_free [[1; 255; 2]]%Z) 250) 0 1) /\
    (item 0%Z [[1; 255; 2]]%Z 0 1 = 255%Z ->
     item 0%Z im_divided 0 1
     = item 0%Z (expand_labels Skimage.model (overlap_free [[1; 255; 2]]%Z) 250) 0 1).
Proof.
  apply (correction_values Skimage.model [[1; 255; 2]]%Z 0 1). reflexivity.
Defined.

Lemma fill_gaps_no_region_witness :
  fill_gaps_between_cells Skimage.model [[0; 0; 0]; [0; 0; 0]]%Z
  = Ok (zeros (shape_of [[0; 0; 0]; [0; 0; 0]]%Z)).
Proof.
  apply (fill_gaps_no_region Skimage.model).
  - exact skimage_expand_labels_blank.
  - vm_compute. discriminate.
  - intros r c Hb. apply Z.eqb_eq.
    apply (forall_pixels (shape_of [[0; 0; 0]; [0; 0; 0]]%Z)
             (fun r c => (item 0%Z [[0; 0; 0]; [0; 0; 0]]%Z r c =? 0)%Z)); [| exact Hb].
    vm_compute. reflexivity.
Defined.

(** ** Orientation Estimator, image mode *)

Lemma Rsum_bounds (l : list R) (lo hi : R) :
  (forall a, In a l -> (lo <= a <= hi)%R) ->
  (INR (length l) * lo <= Rsum l <= INR (length l) * hi)%R.
Proof.
  induction l as [| a l IH]; intros H.
  - cbn. lra.
  - cbn [length]. rewrite S_INR. unfold Rsum in *. cbn [fold_right].
    pose proof (H a (or_introl eq_refl)).
    assert (Hl : forall b, In b l -> (lo <= b <= hi)%R) by (intros b Hb; apply H; right; exact Hb).
    specialize (IH Hl). lra.
Qed.

Lemma np_mean_bounds (l : list R) (lo hi : R) :
  (forall a, In a l -> (lo <= a <= hi)%R) ->
  match np_mean l with
  | Some v => (lo <= v <= hi)%R
  | None => l = []
  end.
Proof.
  intros H. destruct l as [| a l]; [reflexivity |]. unfold np_mean.
  pose proof (Rsum_bounds (a :: l) lo hi H) as Hs.
  assert (Hn : (0 < INR (length (a :: l)))%R) by (apply lt_0_INR; cbn; lia).
  set (n := INR (length (a :: l))) in *. set (t := Rsum (a :: l)) in *.
  assert (Hinv : (0 < / n)%R) by (apply Rinv_0_lt_compat; exact Hn).
  assert (Hlo : (lo = n * lo * / n)%R) by (field; lra).
  assert (Hhi : (hi = n * hi * / n)%R) by (field; lra).
  unfold Rdiv. split.
  - rewrite Hlo. apply Rmult_le_compat_r; lra.
  - rewrite Hhi. apply Rmult_le_compat_r; lra.
Qed.

Lemma tested_angles_range (a : R) :
  In a (linspace_open (- PI / 2) (PI / 2) 360) ->
  (- PI / 2 <= a <= PI / 2 - PI / 360)%R.
Proof.
  unfold linspace_open. intros H. apply in_map_iff in H. destruct H as [k [<- Hk]].
  apply in_seq in Hk. pose proof PI_RGT_0 as Hpi.
  assert (H0 : (0 <= INR k)%R) by apply pos_INR.
  assert (H1 : (INR k <= 359)%R).
  { replace 359%R with (INR 359) by (rewrite INR_IZR_INZ; reflexivity).
    apply le_INR. lia. }
  replace (INR 360) with 360%R by (rewrite INR_IZR_INZ; reflexivity).
  replace ((PI / 2 - - PI / 2) / 360)%R with (PI / 360)%R by (field; lra).
  assert (0 <= INR k * (PI / 360) <= 359 * (PI / 360))%R by nra.
  lra.
Qed.

Lemma in_firstn_list {A : Type} (n : nat) (l : list A) (a : A) :
  In a (firstn n l) -> In a l.
Proof.
  revert l. induction n as [| n IH]; intros [| b l]; cbn; try contradiction.
  intros [-> | H]; [left; reflexivity | right; apply IH; exact H].
Qed.

(** X21: The dominant flow is the mean of the angles of at most four peaks.
    When the peaks' angles are among the angles handed to the transform, it
    lies in [-pi/2, pi/2); it is NaN exactly when no peak is found. *)
Theorem dominant_flow_range (Image Accumulator : Type)
    (hough_line : Image -> list R -> Accumulator * list R * list R)
    (hough_line_peaks : Accumulator -> list R -> list R -> list R * list R * list R)
    (image_actin_mask_2D : Image) :
  (forall im theta, snd (fst (hough_line im theta)) = theta) ->
  (forall h theta d a, In a (snd (fst (hough_line_peaks h theta d))) -> In a theta) ->
  match find_fibers_orientation hough_line hough_line_peaks image_actin_mask_2D with
  | Some dominant_flow => (- PI / 2 <= dominant_flow < PI / 2)%R
  | None =>
      forall h theta d,
        hough_line image_actin_mask_2D (linspace_open (- PI / 2) (PI / 2) 360)
        = (h, theta, d) ->
        snd (fst (hough_line_peaks h theta d)) = []
  end.
Proof.
  intros Htheta Hpeaks. unfold find_fibers_orientation.
  pose proof (Htheta image_actin_mask_2D (linspace_open (- PI / 2) (PI / 2) 360)) as Hth.
  destruct (hough_line image_actin_mask_2D _) as [[h theta] d] eqn:Hh.
  cbn [fst snd] in Hth. subst theta.
  pose proof (Hpeaks h (linspace_open (- PI / 2) (PI / 2) 360) d) as Hp.
  destruct (hough_line_peaks h _ d) as [[heights angle_array] dist_array] eqn:Hpk.
  cbn [fst snd] in Hp.
  pose proof (np_mean_bounds (firstn 4 angle_array) (- PI / 2) (PI / 2 - PI / 360)) as Hm.
  destruct (np_mean (firstn 4 angle_array)) as [v |].
  - pose proof PI_RGT_0. destruct Hm as [H1 H2]; [| lra].
    intros a Ha. apply tested_angles_range, Hp. apply (in_firstn_list _ _ _ Ha).
  - intros h' theta' d' Heq. injection Heq as <- <- <-. rewrite Hpk. cbn [fst snd].
    assert (Hnil : firstn 4 angle_array = []).
    { apply Hm. intros a Ha. apply tested_angles_range, Hp. apply (in_firstn_list _ _ _ Ha). }
    destruct angle_array; [reflexivity | discriminate].
Qed.

Lemma dominant_flow_range_witness :
  match find_fibers_orientation
          (fun (_ : unit) theta => (tt, theta, @nil R))
          (fun (_ : unit) theta _ => (@nil R, firstn 2 theta, @nil R)) tt with
  | Some dominant_flow => (- PI / 2 <= dominant_flow < PI / 2)%R
  | None =>
      forall h theta d,
        (tt, linspace_open (- PI / 2) (PI / 2) 360, @nil R) = (h, theta, d) ->
        snd (fst (@nil R, firstn 2 theta, @nil R)) = []
  end.
Proof.
  apply (dominant_flow_range unit unit
           (fun _ theta => (tt, theta, []))
           (fun _ theta _ => ([], firstn 2 theta, []))).
  - reflexivity.
  - intros h theta d a Ha. cbn [fst snd] in Ha. apply (in_firstn_list 2 theta a Ha).
Defined.

(** X22: The angle of a detected segment follows the convention of the vertex
    mode: every segment gets one angle, in order and in (-pi, pi], and it is
    the orientation the vertex mode gives to the edge between the same two
    end points written as (row, col) = (y, x). *)
Theorem segment_orientation_matches_vertex_mode
    (meijering : ndarray R -> ndarray R)
    (probabilistic_hough_line : ndarray R -> list segment)
    (actin_im : ndarray R) :
  let lines := fst (find_fibers_orientation_v2 meijering probabilistic_hough_line actin_im) in
  let rad_list := snd (find_fibers_orientation_v2 meijering probabilistic_hough_line actin_im) in
  Forall2
    (fun (line : segment) (actin_rad : R) =>
       let p0 := fst line in
       let p1 := snd line in
       (- PI < actin_rad <= PI)%R /\
       actin_rad
       = nth 0 (orientations_from_vertices
                  [(IZR (snd p0), IZR (fst p0)); (IZR (snd p1), IZR (fst p1))]) 0%R)
    lines rad_list.
Proof.
  unfold find_fibers_orientation_v2. cbv zeta. cbn [fst snd].
  set (lines := probabilistic_hough_line _).
  rewrite (fold_left_snoc
             (fun line : Z * Z * (Z * Z) =>
                calculate_orientation (to_point (snd line)) (to_point (fst line)))
             lines []).
  cbn [app]. clearbody lines. induction lines as [| line lines IH]; cbn [map].
  - constructor.
  - constructor; [| exact IH]. split; [apply arctan2_range | reflexivity].
Qed.

(** ** Scan-line coordinates: the geometry of the sample points *)

Lemma linspace_closed_form (start stop : R) (num : nat) :
  linspace start stop num
  = map (fun k => (start + INR k * ((stop - start) / INR (num - 1)))%R) (seq 0 num).
Proof.
  unfold linspace. destruct num as [| [| m]].
  - reflexivity.
  - cbn. f_equal. lra.
  - change (1 <? S (S m))%nat with true. cbv iota.
    replace (S (S m) - 1)%nat with (S m) by lia.
    change (0 <? S m)%nat with true. cbv iota.
    rewrite (seq_S (S m) 0). rewrite !map_app. cbn [map].
    rewrite removelast_last. f_equal.
    + apply map_ext. intros k. lra.
    + f_equal. cbn [Nat.add].
      assert (H : INR (S m) <> 0%R) by (apply not_0_INR; lia).
      field. exact H.
Qed.

Lemma linspace_length (start stop : R) (num : nat) :
  length (linspace start stop num) = num.
Proof. rewrite linspace_closed_form, length_map, length_seq. reflexivity. Qed.

Lemma cos_atan_pos (x : R) : (0 < cos (atan x))%R.
Proof. pose proof (atan_bound x). apply cos_gt_0; lra. Qed.

Lemma sin_atan_tan (x : R) : sin (atan x) = (x * cos (atan x))%R.
Proof.
  pose proof (cos_atan_pos x) as Hc.
  rewrite <- (tan_atan x) at 2. unfold tan. field. lra.
Qed.

(** The direction [(cos t, - sin t)] is at a right angle to [(y, x)] when
    [t] is [arctan2 y x]. *)
Lemma arctan2_normal (y x : R) :
  (cos (arctan2 y x) * y - sin (arctan2 y x) * x = 0)%R.
Proof.
  unfold arctan2.
  destruct (Rlt_dec 0 x) as [Hx | Hx].
  - rewrite sin_atan_tan. field. lra.
  - destruct (Rlt_dec x 0) as [Hx' | Hx'].
    + destruct (Rle_dec 0 y) as [Hy | Hy].
      * rewrite neg_cos, neg_sin, sin_atan_tan. field. lra.
      * unfold Rminus at 2 3. rewrite cos_plus, sin_plus, cos_neg, sin_neg, cos_PI, sin_PI.
        rewrite sin_atan_tan. field. lra.
    + assert (x = 0%R) by lra. subst x.
      destruct (Rlt_dec 0 y) as [Hy | Hy]; [rewrite cos_PI2; lra |].
      destruct (Rlt_dec y 0) as [Hy' | Hy']; [rewrite cos_neg, cos_PI2; lra |].
      assert (y = 0%R) by lra. subst y. lra.
Qed.

Lemma hypot_nonneg (a b : R) : (0 <= hypot a b)%R.
Proof. apply sqrt_pos. Qed.

Lemma hypot_zero (a b : R) : hypot a b = 0%R -> a = 0%R /\ b = 0%R.
Proof.
  unfold hypot. intros H. apply sqrt_eq_0 in H; [| nra].
  split; nra.
Qed.

(** The number of points of a scan line. *)
Lemma profile_length_bounds (h : R) :
  (0 <= h)%R ->
  let N := Z.to_nat (Zceil (h + 1)) in
  (1 <= N)%nat /\ (h + 1 <= INR N < h + 2)%R.
Proof.
  intros Hh N. pose proof (Zceil_bound (h + 1)) as [Hlo Hhi].
  assert (Hz : (1 <= Zceil (h + 1))%Z).
  { assert (H : (0 < IZR (Zceil (h + 1)))%R) by lra.
    apply lt_IZR in H. lia. }
  assert (HN : INR N = IZR (Zceil (h + 1))).
  { unfold N. rewrite INR_IZR_INZ, Z2Nat.id by lia. reflexivity. }
  split; [unfold N; lia |]. rewrite HN. lra.
Qed.

Lemma perpendicular_linspace (centre unit : R) (linewidth : nat) :
  linspace (centre - (INR linewidth - 1) * unit / 2)
           (centre + (INR linewidth - 1) * unit / 2) linewidth
  = map (fun j => (centre + (INR j - (INR linewidth - 1) / 2) * unit)%R)
        (seq 0 linewidth).
Proof.
  rewrite linspace_closed_form. destruct linewidth as [| [| m]].
  - reflexivity.
  - cbn. f_equal. lra.
  - apply map_ext. intros j.
    replace (S (S m) - 1)%nat with (S m) by lia.
    rewrite (S_INR (S m)).
    assert (H : INR (S m) <> 0%R) by (apply not_0_INR; lia).
    field. exact H.
Qed.

Lemma sk_line_profile_closed_form (src dst : point) (linewidth : nat) :
  let d_row := (fst dst - fst src)%R in
  let d_col := (snd dst - snd src)%R in
  let theta := arctan2 d_row d_col in
  let N := Z.to_nat (Zceil (hypot d_row d_col + 1)) in
  sk_line_profile_coordinates src dst linewidth
  = (map (fun k =>
            map (fun j =>
                   (fst src + INR k * (d_row / INR (N - 1))
                    + (INR j - (INR linewidth - 1) / 2) * cos theta)%R)
                (seq 0 linewidth))
         (seq 0 N),
     map (fun k =>
            map (fun j =>
                   (snd src + INR k * (d_col / INR (N - 1))
                    - (INR j - (INR linewidth - 1) / 2) * sin theta)%R)
                (seq 0 linewidth))
         (seq 0 N)).
Proof.
  intros d_row d_col theta N.
  unfold sk_line_profile_coordinates. cbv zeta.
  fold d_row d_col. fold theta. fold N.
  rewrite !linspace_closed_form, !map_map. f_equal.
  - apply map_ext. intros k. rewrite perpendicular_linspace. reflexivity.
  - apply map_ext. intros k. rewrite sin_neg.
    replace ((INR linewidth - 1) * - sin theta / 2)%R
      with ((INR linewidth - 1) * (- sin theta) / 2)%R by lra.
    rewrite perpendicular_linspace. apply map_ext. intros j.
    unfold d_col, Rdiv. ring.
Qed.

(** X23: The sample points of a scan line: point [k] of layer [j] is point [k]
    of the straight line from [src] to [dst], moved by [j - (linewidth-1)/2]
    steps of length one along the direction [(cos theta, - sin theta)] (row,
    column), which is at a right angle to the line.  The line has
    N = ceil(hypot + 1) points, both ends included. *)
Theorem profile_layers_are_parallel (src dst : point) (linewidth : nat) :
  let d_row := (fst dst - fst src)%R in
  let d_col := (snd dst - snd src)%R in
  let theta := arctan2 d_row d_col in
  let N := Z.to_nat (Zceil (hypot d_row d_col + 1)) in
  sk_line_profile_coordinates src dst linewidth
  = (map (fun k =>
            map (fun j =>
                   (fst src + INR k * (d_row / INR (N - 1))
                    + (INR j - (INR linewidth - 1) / 2) * cos theta)%R)
                (seq 0 linewidth))
         (seq 0 N),
     map (fun k =>
            map (fun j =>
                   (snd src + INR k * (d_col / INR (N - 1))
                    - (INR j - (INR linewidth - 1) / 2) * sin theta)%R)
                (seq 0 linewidth))
         (seq 0 N)) /\
  (cos theta * d_row - sin theta * d_col = 0)%R /\
  (cos theta * cos theta + sin theta * sin theta = 1)%R.
Proof.
  intros d_row d_col theta N. split; [| split].
  - apply sk_line_profile_closed_form.
  - apply arctan2_normal.
  - pose proof (sin2_cos2 theta) as H. unfold Rsqr in H. lra.
Qed.

(** X24: With an odd line width the middle layer is the line itself: it starts
    at [src] and ends at [dst], and its N points are at most one pixel apart. *)
Theorem profile_middle_layer (src dst : point) (m : nat) :
  let d_row := (fst dst - fst src)%R in
  let d_col := (snd dst - snd src)%R in
  let N := Z.to_nat (Zceil (hypot d_row d_col + 1)) in
  let perp_rows := fst (sk_line_profile_coordinates src dst (2 * m + 1)) in
  let perp_cols := snd (sk_line_profile_coordinates src dst (2 * m + 1)) in
  length perp_rows = N /\ length perp_cols = N /\
  (nth m (nth 0 perp_rows []) 0%R, nth m (nth 0 perp_cols []) 0%R) = src /\
  (nth m (nth (N - 1) perp_rows []) 0%R, nth m (nth (N - 1) perp_cols []) 0%R) = dst /\
  (hypot d_row d_col <= INR (N - 1) < hypot d_row d_col + 1)%R.
Proof.
  intros d_row d_col N perp_rows perp_cols.
  pose proof (sk_line_profile_closed_form src dst (2 * m + 1)) as Heq.
  cbv zeta in Heq. fold d_row d_col N in Heq.
  unfold perp_rows, perp_cols. rewrite Heq. cbn [fst snd].
  pose proof (profile_length_bounds (hypot d_row d_col) (hypot_nonneg _ _)) as [HN Hb].
  cbv zeta in HN, Hb. fold N in HN, Hb.
  assert (HN1 : INR (N - 1) = (INR N - 1)%R).
  { rewrite minus_INR by lia. reflexivity. }
  assert (Hmid : (INR m - (INR (2 * m + 1) - 1) / 2 = 0)%R).
  { rewrite plus_INR, mult_INR. cbn [INR]. lra. }
  assert (Hm : (m < 2 * m + 1)%nat) by lia.
  rewrite !length_map, !length_seq.
  split; [reflexivity |]. split; [reflexivity |].
  assert (Hnth : forall (f : nat -> nat -> R) (k : nat),
             (k < N)%nat ->
             nth m (nth k (map (fun k => map (f k) (seq 0 (2 * m + 1))) (seq 0 N)) []) 0%R
             = f k m).
  { intros f k Hk.
    rewrite (nth_indep _ [] (map (f 0%nat) (seq 0 (2 * m + 1))))
      by (rewrite length_map, length_seq; exact Hk).
    rewrite (map_nth (fun k => map (f k) (seq 0 (2 * m + 1))) (seq 0 N) 0%nat k).
    rewrite seq_nth by exact Hk. cbn [Nat.add].
    rewrite (nth_indep _ 0%R (f k 0%nat)) by (rewrite length_map, length_seq; exact Hm).
    rewrite (map_nth (f k) (seq 0 (2 * m + 1)) 0%nat m).
    rewrite seq_nth by exact Hm. reflexivity. }
  rewrite !Hnth by lia. rewrite Hmid.
  split; [| split].
  - destruct src as [sr sc]. cbn [fst snd INR]. f_equal; lra.
  - destruct dst as [dr dc]. destruct src as [sr sc]. cbn [fst snd] in *.
    destruct (Nat.eq_dec N 1) as [H1 | H1].
    + assert (Hh : hypot d_row d_col = 0%R).
      { pose proof (hypot_nonneg d_row d_col). rewrite H1 in Hb. cbn [INR] in Hb. lra. }
      apply hypot_zero in Hh. destruct Hh as [Hr Hc]. unfold d_row, d_col in Hr, Hc.
      rewrite H1. cbn [Nat.sub INR]. f_equal; lra.
    + assert (Hne : INR (N - 1) <> 0%R) by (apply not_0_INR; lia).
      f_equal; unfold d_row, d_col; cbn [fst snd]; field; exact Hne.
  - rewrite HN1. lra.
Qed.

(** ** Interior-point sampling: the table that is returned *)

Lemma map_result_map {A B : Type} (f : A -> result B) (g : A -> B) (l : list A) :
  (forall a, In a l -> f a = Ok (g a)) -> map_result f l = Ok (map g l).
Proof.
  induction l as [| a l IH]; intros H; cbn; [reflexivity |].
  rewrite (H a (or_introl eq_refl)). cbn [bind].
  rewrite IH by (intros a' Ha'; apply H; right; exact Ha'). reflexivity.
Qed.

Lemma fold_left_pair_app {A B C : Type} (f : A -> list B) (g : A -> list C)
    (l : list A) (acc : list B * list C) :
  fold_left (fun acc i => (fst acc ++ f i, snd acc ++ g i)) l acc
  = (fst acc ++ concat (map f l), snd acc ++ concat (map g l)).
Proof.
  revert acc. induction l as [| a l IH]; intros acc; cbn.
  - rewrite !app_nil_r. destruct acc; reflexivity.
  - rewrite IH. cbn [fst snd]. rewrite <- !app_assoc. reflexivity.
Qed.

Lemma edge_profile_closed_form (vert : list point) (line_width i : nat) :
  let p0 := nth i vert (0, 0)%R in
  let p1 := next_vertex vert i in
  let d_row := (fst p1 - fst p0)%R in
  let d_col := (snd p1 - snd p0)%R in
  let theta := arctan2 d_row d_col in
  let N := edge_points vert i in
  edge_profile sk_line_profile_coordinates vert line_width i
  = (map (fun k =>
            map (fun j =>
                   (fst p0 + INR k * (d_row / INR (N - 1))
                    + (INR j - (INR line_width - 1) / 2) * cos theta)%R)
                (seq 0 line_width))
         (seq 0 N),
     map (fun k =>
            map (fun j =>
                   (snd p0 + INR k * (d_col / INR (N - 1))
                    - (INR j - (INR line_width - 1) / 2) * sin theta)%R)
                (seq 0 line_width))
         (seq 0 N)).
Proof. apply sk_line_profile_closed_form. Qed.

Lemma edge_points_pos (vert : list point) (i : nat) : (1 <= edge_points vert i)%nat.
Proof.
  unfold edge_points. cbv zeta.
  apply (profile_length_bounds _ (hypot_nonneg _ _)).
Qed.

Lemma list_sum_ge (f : nat -> nat) (l : list nat) :
  (forall i, 1 <= f i)%nat -> (length l <= list_sum (map f l))%nat.
Proof.
  intros H. induction l as [| a l IH]; [cbn; lia |].
  change (list_sum (map f (a :: l))) with (f a + list_sum (map f l))%nat.
  cbn [length]. pose proof (H a). lia.
Qed.

Lemma length_concat_map {A : Type} (f : nat -> list A) (g : nat -> nat) (l : list nat) :
  (forall i, length (f i) = g i) ->
  length (concat (map f l)) = list_sum (map g l).
Proof.
  intros H. induction l as [| a l IH]; [reflexivity |].
  change (list_sum (map g (a :: l))) with (g a + list_sum (map g l))%nat.
  cbn [map concat]. rewrite length_app, H, IH. reflexivity.
Qed.

Lemma Forall_concat_map {A : Type} (P : A -> Prop) (f : nat -> list A) (l : list nat) :
  (forall i, Forall P (f i)) -> Forall P (concat (map f l)).
Proof.
  intros H. induction l as [| a l IH]; cbn; [constructor |].
  apply Forall_app. split; [apply H | exact IH].
Qed.

(** Entry [k] of block [e] of a concatenation. *)
Lemma nth_concat_offset {A : Type} (f : nat -> list A) (g : nat -> nat) (d : A)
    (n e k : nat) :
  (forall i, length (f i) = g i) ->
  (e < n)%nat -> (k < g e)%nat ->
  nth (list_sum (map g (seq 0 e)) + k) (concat (map f (seq 0 n))) d = nth k (f e) d.
Proof.
  intros Hlen. revert e. 
  assert (Hgen : forall s e, (e < n)%nat -> (k < g (s + e))%nat ->
            nth (list_sum (map g (seq s e)) + k) (concat (map f (seq s n))) d
            = nth k (f (s + e)%nat) d).
  { induction n as [| n IH]; intros s e He Hk; [lia |].
    destruct e as [| e].
    - cbn. rewrite Nat.add_0_r in *. rewrite app_nth1 by (rewrite Hlen; exact Hk).
      reflexivity.
    - cbn [seq map concat].
      change (list_sum (g s :: map g (seq (S s) e)))
        with (g s + list_sum (map g (seq (S s) e)))%nat.
      rewrite <- Nat.add_assoc, <- (Hlen s), app_nth2_plus.
      rewrite IH by (try lia; replace (S s + e)%nat with (s + S e)%nat by lia; exact Hk).
      f_equal. f_equal. lia. }
  intros e He Hk. apply (Hgen 0%nat e He Hk).
Qed.

Lemma exact_profile_lengths (src dst : point) (line_width : nat) :
  let N := Z.to_nat (Zceil (hypot (fst dst - fst src) (snd dst - snd src) + 1)) in
  length (fst (sk_line_profile_coordinates src dst line_width)) = N /\
  length (snd (sk_line_profile_coordinates src dst line_width)) = N /\
  Forall (fun row => length row = line_width)
    (fst (sk_line_profile_coordinates src dst line_width)) /\
  Forall (fun row => length row = line_width)
    (snd (sk_line_profile_coordinates src dst line_width)).
Proof.
  pose proof (sk_line_profile_closed_form src dst line_width) as H. cbv zeta in H.
  cbv zeta. rewrite H. cbn [fst snd]. rewrite !length_map, !length_seq.
  split; [reflexivity |]. split; [reflexivity |].
  split; apply Forall_forall; intros row Hrow; apply in_map_iff in Hrow;
    destruct Hrow as [k [<- _]]; rewrite length_map, length_seq; reflexivity.
Qed.

(** The exact scan lines have the shape the table needs. *)
Lemma exact_well_shaped (line_width : nat) :
  well_shaped sk_line_profile_coordinates line_width.
Proof.
  intros src dst.
  pose proof (exact_profile_lengths src dst line_width) as H. cbv zeta in H.
  destruct H as [Hx [Hy [Hrx Hry]]].
  pose proof (profile_length_bounds _ (hypot_nonneg (fst dst - fst src) (snd dst - snd src)))
    as [HN _]. cbv zeta in HN.
  split; [| split; [congruence | split; assumption]].
  intros Hnil. rewrite Hnil in Hx. cbn in Hx. lia.
Qed.

Lemma Forall2_nth_rel {A B : Type} (P : A -> B -> Prop) (l : list A) (l' : list B)
    (d : A) (d' : B) (n : nat) :
  Forall2 P l l' -> (n < length l)%nat -> P (nth n l d) (nth n l' d').
Proof.
  intros H. revert n. induction H as [| a b l l' Hab _ IH]; intros n Hn; [cbn in Hn; lia |].
  destruct n as [| n]; [exact Hab |]. cbn [nth]. apply IH. cbn in Hn. lia.
Qed.

Lemma Forall2_same {A : Type} (P : A -> A -> Prop) (l : list A) :
  (forall a, P a a) -> Forall2 P l l.
Proof. intros H. induction l; constructor; auto. Qed.

Lemma close_to_exact (a : list (list R) * list (list R)) : close_to 0 a a.
Proof.
  split; apply Forall2_same; intros row; apply Forall2_same; intros x;
    rewrite Rminus_diag, Rabs_R0; lra.
Qed.

Lemma Forall2_lengths {A B : Type} (P : A -> B -> Prop) (n : nat)
    (l : list (list A)) (l' : list (list B)) :
  Forall2 (Forall2 P) l l' ->
  Forall (fun row => length row = n) l' -> Forall (fun row => length row = n) l.
Proof.
  induction 1 as [| a b l l' Hab _ IH]; intros Hall; [constructor |].
  inversion Hall as [| ? ? Hb Hl']; subst. constructor; [| apply IH; exact Hl'].
  apply (Forall2_length_eq _ _ _ Hab).
Qed.

(** Computed scan lines that are close to the exact ones have their shape. *)
Lemma close_well_shaped
    (computed_profile : point -> point -> nat -> list (list R) * list (list R))
    (line_width : nat) (eps : R) :
  (forall src dst,
      close_to eps (computed_profile src dst line_width)
        (sk_line_profile_coordinates src dst line_width)) ->
  well_shaped computed_profile line_width.
Proof.
  intros Hclose src dst. destruct (Hclose src dst) as [Hx Hy].
  destruct (exact_well_shaped line_width src dst) as [Hne [Hlen [Hrx Hry]]].
  pose proof (Forall2_length_eq _ _ _ Hx) as Lx.
  pose proof (Forall2_length_eq _ _ _ Hy) as Ly.
  split; [| split; [congruence | split]].
  - intros Hnil. rewrite Hnil in Lx. cbn [length] in Lx. symmetry in Lx.
    apply length_zero_iff_nil in Lx. exact (Hne Lx).
  - apply (Forall2_lengths _ _ _ _ Hx Hrx).
  - apply (Forall2_lengths _ _ _ _ Hy Hry).
Qed.

Lemma astype_int_near (x : R) : (Rabs (IZR (astype_int x) - x) < 1)%R.
Proof.
  unfold astype_int. destruct (Rle_dec 0 x).
  - pose proof (Zfloor_bound x). apply Rabs_def1; lra.
  - pose proof (Zceil_bound x). apply Rabs_def1; lra.
Qed.

Lemma edge_offset_ge (vert : list point) : (length vert <= edge_offset vert (length vert))%nat.
Proof.
  unfold edge_offset.
  pose proof (list_sum_ge (edge_points vert) (seq 0 (length vert)) (edge_points_pos vert)) as H.
  rewrite length_seq in H. exact H.
Qed.

Lemma layer_at_ok (coord_line_x coord_line_y : list (list R)) (line_width i : nat) :
  coord_line_x <> [] ->
  Forall (fun row => length row = line_width) coord_line_x ->
  (i < line_width)%nat ->
  layer_at coord_line_x coord_line_y i = Ok (layer_coords coord_line_x coord_line_y i).
Proof.
  intros Hne Hall Hi. unfold layer_at. destruct coord_line_x as [| first rest]; [contradiction |].
  inversion Hall as [| ? ? Hfirst _]; subst.
  replace (i <? length first)%nat with true by (symmetry; apply Nat.ltb_lt; exact Hi).
  reflexivity.
Qed.

Lemma length_layer_coords (coord_line_x coord_line_y : list (list R)) (i : nat) :
  length coord_line_x = length coord_line_y ->
  length (layer_coords coord_line_x coord_line_y i) = length coord_line_x.
Proof.
  intros H. unfold layer_coords. rewrite length_map, length_combine. lia.
Qed.

Lemma nth_layer_coords (coord_line_x coord_line_y : list (list R)) (i n : nat) :
  length coord_line_x = length coord_line_y ->
  (n < length coord_line_x)%nat ->
  nth n (layer_coords coord_line_x coord_line_y i) (0, 0)%Z
  = (astype_int (nth i (nth n coord_line_x []) 0%R),
     astype_int (nth i (nth n coord_line_y []) 0%R)).
Proof.
  intros Hlen Hn. unfold layer_coords.
  set (f := fun xy : list R * list R =>
              (astype_int (nth i (fst xy) 0%R), astype_int (nth i (snd xy) 0%R))).
  rewrite (nth_indep (map f (combine coord_line_x coord_line_y)) (0, 0)%Z (f ([], [])))
    by (rewrite length_map, length_combine; lia).
  rewrite (map_nth f (combine coord_line_x coord_line_y) ([], []) n).
  rewrite combine_nth by exact Hlen. reflexivity.
Qed.

Lemma length_layer_frame (layer : list (Z * Z)) (l_unique : list nat) (number : Z) :
  length (layer_frame layer l_unique number) = length layer.
Proof. unfold layer_frame. rewrite length_map, length_seq. reflexivity. Qed.

Lemma nth_error_layer_frame (layer : list (Z * Z)) (l_unique : list nat) (number : Z)
    (n : nat) :
  (n < length layer)%nat ->
  nth_error (layer_frame layer l_unique number) n
  = Some (mk_frame_row (fst (nth n layer (0, 0)%Z)) (snd (nth n layer (0, 0)%Z))
            (existsb (Nat.eqb n) l_unique) number n).
Proof.
  intros Hn. unfold layer_frame. rewrite nth_error_map.
  rewrite nth_error_nth' with (d := 0%nat) by (rewrite length_seq; exact Hn).
  rewrite seq_nth by exact Hn. reflexivity.
Qed.

Lemma nth_error_concat_uniform {A : Type} (blocks : list (list A)) (n l k : nat) :
  Forall (fun b => length b = n) blocks ->
  (k < n)%nat ->
  nth_error (concat blocks) (l * n + k) = nth_error (nth l blocks []) k.
Proof.
  intros Hall Hk. revert l. induction Hall as [| b blocks Hb _ IH]; intros l.
  - destruct l; cbn; destruct k; try reflexivity; destruct (_ + _)%nat; reflexivity.
  - destruct l as [| l]; cbn [concat nth].
    + cbn. apply nth_error_app1. lia.
    + replace (S l * n + k)%nat with (length b + (l * n + k))%nat by (cbn; lia).
      rewrite nth_error_app2 by lia.
      replace (length b + (l * n + k) - length b)%nat with (l * n + k)%nat by lia.
      apply IH.
Qed.

(** *** First occurrences *)

Lemma coords_eqb_eq (p q : Z * Z) : coords_eqb p q = true <-> p = q.
Proof.
  unfold coords_eqb. destruct p as [a b], q as [c d]. cbn [fst snd].
  rewrite andb_true_iff, !Z.eqb_eq. split.
  - intros [-> ->]. reflexivity.
  - intros H. injection H as -> ->. split; reflexivity.
Qed.

Lemma in_firstn_nth {A : Type} (d x : A) (n : nat) (l : list A) :
  In x (firstn n l) <-> exists m, (m < n)%nat /\ (m < length l)%nat /\ nth m l d = x.
Proof.
  split.
  - intros H. apply (In_nth _ _ d) in H. destruct H as [m [Hm Hx]].
    rewrite length_firstn in Hm. rewrite nth_firstn in Hx.
    replace (m <? n)%nat with true in Hx by (symmetry; apply Nat.ltb_lt; lia).
    exists m. repeat split; try lia. exact Hx.
  - intros [m [Hm [Hl Hx]]]. subst x.
    replace (nth m l d) with (nth m (firstn n l) d).
    + apply nth_In. rewrite length_firstn. lia.
    + rewrite nth_firstn.
      replace (m <? n)%nat with true by (symmetry; apply Nat.ltb_lt; lia).
      reflexivity.
Qed.

Lemma in_unique_index (layer : list (Z * Z)) (n : nat) :
  In n (unique_index layer) <->
  (n < length layer)%nat /\
  forall m, (m < n)%nat -> nth m layer (0, 0)%Z <> nth n layer (0, 0)%Z.
Proof.
  unfold unique_index. rewrite filter_In, in_seq, negb_true_iff. split.
  - intros [Hn Hex]. split; [lia |]. intros m Hm Heq.
    assert (Ht : existsb (coords_eqb (nth n layer (0, 0)%Z)) (firstn n layer) = true).
    { apply existsb_exists. exists (nth m layer (0, 0)%Z). split.
      - apply (in_firstn_nth (0, 0)%Z). exists m. repeat split; try lia.
      - apply coords_eqb_eq. symmetry. exact Heq. }
    rewrite Ht in Hex. discriminate.
  - intros [Hn Hfirst]. split; [lia |].
    destruct (existsb _ (firstn n layer)) eqn:Hex; [| reflexivity].
    apply existsb_exists in Hex. destruct Hex as [x [Hx Heq]].
    apply (in_firstn_nth (0, 0)%Z) in Hx. destruct Hx as [m [Hm [_ Hx]]].
    apply coords_eqb_eq in Heq. subst x. exfalso. apply (Hfirst m Hm). symmetry. exact Heq.
Qed.

Lemma first_occurrence (layer : list (Z * Z)) (n : nat) :
  (n < length layer)%nat ->
  exists n0, (n0 <= n)%nat /\ nth n0 layer (0, 0)%Z = nth n layer (0, 0)%Z /\
             In n0 (unique_index layer).
Proof.
  induction n as [n IH] using lt_wf_ind. intros Hn.
  destruct (existsb (coords_eqb (nth n layer (0, 0)%Z)) (firstn n layer)) eqn:Hex.
  - apply existsb_exists in Hex. destruct Hex as [x [Hx Heq]].
    apply (in_firstn_nth (0, 0)%Z) in Hx. destruct Hx as [m [Hm [Hl Hx]]].
    apply coords_eqb_eq in Heq. subst x.
    destruct (IH m Hm Hl) as [n0 [Hle [Hsame Hin]]].
    exists n0. repeat split; [lia | congruence | exact Hin].
  - exists n. repeat split; [lia |].
    unfold unique_index. apply filter_In. split; [apply in_seq; lia |].
    rewrite Hex. reflexivity.
Qed.

Lemma unique_index_inj (layer : list (Z * Z)) (n1 n2 : nat) :
  In n1 (unique_index layer) -> In n2 (unique_index layer) ->
  nth n1 layer (0, 0)%Z = nth n2 layer (0, 0)%Z -> n1 = n2.
Proof.
  intros H1 H2 Heq. apply in_unique_index in H1, H2.
  destruct H1 as [_ H1], H2 as [_ H2].
  destruct (Nat.lt_trichotomy n1 n2) as [Hlt | [-> | Hlt]]; [| reflexivity |].
  - exfalso. apply (H2 n1 Hlt). exact Heq.
  - exfalso. apply (H1 n2 Hlt). symmetry. exact Heq.
Qed.

Lemma existsb_eqb_in (n : nat) (l : list nat) : existsb (Nat.eqb n) l = true <-> In n l.
Proof.
  rewrite existsb_exists. split.
  - intros [x [Hx Heq]]. apply Nat.eqb_eq in Heq. subst x. exact Hx.
  - intros H. exists n. split; [exact H | apply Nat.eqb_refl].
Qed.

(** The rows of the table: one for each layer and each sample point. *)
Lemma in_layer_frames (coord_line_x coord_line_y : list (list R)) (half : Z)
    (start count : nat) (row : frame_row) :
  In row (concat
            (map (fun i =>
                    layer_frame (layer_coords coord_line_x coord_line_y i)
                      (unique_index (layer_coords coord_line_x coord_line_y i))
                      (Z.of_nat i - half))
                 (seq start count))) <->
  exists i n,
    (start <= i < start + count)%nat /\
    (n < length (layer_coords coord_line_x coord_line_y i))%nat /\
    row = mk_frame_row
            (fst (nth n (layer_coords coord_line_x coord_line_y i) (0, 0)%Z))
            (snd (nth n (layer_coords coord_line_x coord_line_y i) (0, 0)%Z))
            (existsb (Nat.eqb n) (unique_index (layer_coords coord_line_x coord_line_y i)))
            (Z.of_nat i - half) n.
Proof.
  rewrite in_concat. split.
  - intros [block [Hblock Hrow]]. apply in_map_iff in Hblock.
    destruct Hblock as [i [<- Hi]]. apply in_seq in Hi.
    unfold layer_frame in Hrow. apply in_map_iff in Hrow.
    destruct Hrow as [n [<- Hn]]. apply in_seq in Hn.
    exists i, n. repeat split; try lia.
  - intros [i [n [Hi [Hn ->]]]]. eexists. split.
    + apply in_map_iff. exists i. split; [reflexivity | apply in_seq; lia].
    + unfold layer_frame. apply in_map_iff. exists n. split; [reflexivity |].
      apply in_seq. lia.
Qed.

Lemma nth_nth_table (f : nat -> nat -> R) (N width k j : nat) :
  (k < N)%nat -> (j < width)%nat ->
  nth j (nth k (map (fun k => map (f k) (seq 0 width)) (seq 0 N)) []) 0%R = f k j.
Proof.
  intros Hk Hj.
  rewrite (nth_indep _ [] (map (f 0%nat) (seq 0 width)))
    by (rewrite length_map, length_seq; exact Hk).
  rewrite (map_nth (fun k => map (f k) (seq 0 width)) (seq 0 N) 0%nat k).
  rewrite seq_nth by exact Hk. cbn [Nat.add].
  rewrite (nth_indep _ 0%R (f k 0%nat)) by (rewrite length_map, length_seq; exact Hj).
  rewrite (map_nth (f k) (seq 0 width) 0%nat j).
  rewrite seq_nth by exact Hj. reflexivity.
Qed.

Lemma half_width (line_width : Z) :
  (3 <= line_width)%Z ->
  (1 <= line_width / 2 < line_width)%Z /\
  line_width = (2 * (line_width / 2) + (if Z.odd line_width then 1 else 0))%Z.
Proof.
  intros H. pose proof (Z.div_mod line_width 2 ltac:(lia)) as Hdm.
  rewrite Zmod_odd in Hdm. destruct (Z.odd line_width); split; lia.
Qed.

(** The layers that are kept start at the middle of the scan line. *)
Lemma layer_shift (line_width : Z) (l : nat) :
  (3 <= line_width)%Z ->
  (INR (Z.to_nat (line_width / 2) + l) - (INR (Z.to_nat line_width) - 1) / 2
   = INR l + (if Z.odd line_width then 0 else 1 / 2))%R.
Proof.
  intros H. destruct (half_width line_width H) as [Hh Heq].
  rewrite plus_INR, !INR_IZR_INZ, !Z2Nat.id by lia.
  rewrite Heq at 2. rewrite plus_IZR, mult_IZR.
  destruct (Z.odd line_width); cbn [IZR]; lra.
Qed.

Lemma edge_offset_step (vert : list point) (e n : nat) :
  (e < n)%nat -> (edge_offset vert e + edge_points vert e <= edge_offset vert n)%nat.
Proof.
  intros H. unfold edge_offset.
  replace n with (e + (1 + (n - e - 1)))%nat by lia.
  rewrite !seq_app, !map_app, !list_sum_app. cbn [seq map Nat.add].
  change (list_sum [edge_points vert e]) with (edge_points vert e + 0)%nat. lia.
Qed.

Lemma list_sum_const (c : nat) (l : list nat) :
  list_sum (map (fun _ => c) l) = (length l * c)%nat.
Proof.
  induction l as [| a l IH]; [reflexivity |].
  change (list_sum (map (fun _ => c) (a :: l))) with (c + list_sum (map (fun _ => c) l))%nat.
  rewrite IH. cbn [length]. lia.
Qed.

Section InternalPointsFacts.

Variable computed_profile : point -> point -> nat -> list (list R) * list (list R).

Local Abbreviation profiles := (edge_profiles computed_profile).
Local Abbreviation profile_of := (edge_profile computed_profile).
Local Abbreviation frame := (internal_points_frame computed_profile).

Lemma edge_profiles_concat (vert : list point) (line_width : nat) :
  profiles vert line_width
  = (concat (map (fun i => fst (profile_of vert line_width i)) (seq 0 (length vert))),
     concat (map (fun i => snd (profile_of vert line_width i)) (seq 0 (length vert)))).
Proof.
  unfold edge_profiles.
  exact (fold_left_pair_app (fun i => fst (profile_of vert line_width i))
           (fun i => snd (profile_of vert line_width i))
           (seq 0 (length vert)) ([], [])).
Qed.

Lemma edge_profiles_shape (vert : list point) (line_width : nat) :
  well_shaped computed_profile line_width ->
  let coord_line_x := fst (profiles vert line_width) in
  let coord_line_y := snd (profiles vert line_width) in
  length coord_line_x = length coord_line_y /\
  Forall (fun row => length row = line_width) coord_line_x /\
  Forall (fun row => length row = line_width) coord_line_y /\
  (vert <> [] -> coord_line_x <> []).
Proof.
  intros Hshape. cbv zeta. rewrite edge_profiles_concat. cbn [fst snd].
  split; [| split; [| split]].
  - rewrite (length_concat_map (fun i => fst (profile_of vert line_width i))
               (fun i => length (fst (profile_of vert line_width i))))
      by reflexivity.
    rewrite (length_concat_map (fun i => snd (profile_of vert line_width i))
               (fun i => length (fst (profile_of vert line_width i)))).
    + reflexivity.
    + intros i. symmetry. apply Hshape.
  - apply Forall_concat_map. intros i. apply Hshape.
  - apply Forall_concat_map. intros i. apply Hshape.
  - intros Hne Hnil. destruct vert as [| v vert]; [contradiction |].
    cbn [length seq map concat] in Hnil. apply app_eq_nil in Hnil.
    destruct Hnil as [Hnil _]. revert Hnil. apply Hshape.
Qed.

(** The frames of the layers, one after the other. *)
Lemma internal_points_frame_value (vert : list point) (line_width : Z) :
  vert <> [] -> (3 <= line_width)%Z ->
  well_shaped computed_profile (Z.to_nat line_width) ->
  let coord_line_x := fst (profiles vert (Z.to_nat line_width)) in
  let coord_line_y := snd (profiles vert (Z.to_nat line_width)) in
  frame vert line_width
  = Ok (concat
          (map (fun i =>
                  layer_frame (layer_coords coord_line_x coord_line_y i)
                    (unique_index (layer_coords coord_line_x coord_line_y i))
                    (Z.of_nat i - line_width / 2))
               (seq (Z.to_nat (line_width / 2))
                    (Z.to_nat line_width - Z.to_nat (line_width / 2))))).
Proof.
  intros Hne Hlw Hshape coord_line_x coord_line_y. unfold internal_points_frame. cbv zeta.
  fold coord_line_x coord_line_y.
  pose proof (edge_profiles_shape vert (Z.to_nat line_width) Hshape) as Hs.
  cbv zeta in Hs. destruct Hs as [_ [Hrows [_ Hx0]]].
  fold coord_line_x in Hrows, Hx0. specialize (Hx0 Hne).
  rewrite (map_result_map _
             (fun i =>
                layer_frame (layer_coords coord_line_x coord_line_y i)
                  (unique_index (layer_coords coord_line_x coord_line_y i))
                  (Z.of_nat i - line_width / 2))).
  - reflexivity.
  - intros i Hi. apply in_seq in Hi.
    rewrite (layer_at_ok coord_line_x coord_line_y (Z.to_nat line_width) i Hx0 Hrows)
      by lia.
    reflexivity.
Qed.

(** X25: An empty polygon has no scan line, and the first layer that is asked
    for is out of range. *)
Theorem internal_points_empty_polygon (line_width : Z) :
  (3 <= line_width)%Z ->
  get_internal_points frame [] line_width = Raise IndexError.
Proof.
  intros H. unfold get_internal_points.
  replace (line_width <? 3)%Z with false by (symmetry; apply Z.ltb_ge; exact H).
  unfold internal_points_frame. cbv zeta.
  change (profiles [] (Z.to_nat line_width)) with (@nil (list R), @nil (list R)).
  cbn [fst snd].
  destruct (half_width line_width H) as [Hh _].
  assert (Hcount : exists c, (Z.to_nat line_width - Z.to_nat (line_width / 2))%nat = S c).
  { exists (Z.to_nat line_width - Z.to_nat (line_width / 2) - 1)%nat. lia. }
  destruct Hcount as [c ->]. reflexivity.
Qed.


(** X27: The column ['uniqe'] marks, in every layer, the first row of each pixel:
    every row has a marked row of its layer with the same pixel that is not
    after it, and two marked rows of one layer never have the same pixel. *)
Theorem internal_points_unique_flags (vert : list point) (line_width : Z) :
  vert <> [] -> (3 <= line_width)%Z ->
  well_shaped computed_profile (Z.to_nat line_width) ->
  exists df_all,
    get_internal_points frame vert line_width = Ok (ReturnedFrame df_all) /\
    (forall row, In row df_all ->
       exists first,
         In first df_all /\ col_layer first = col_layer row /\
         col_r first = col_r row /\ col_c first = col_c row /\
         col_uniqe first = true /\ (col_ord first <= col_ord row)%nat) /\
    (forall row1 row2, In row1 df_all -> In row2 df_all ->
       col_layer row1 = col_layer row2 ->
       col_r row1 = col_r row2 -> col_c row1 = col_c row2 ->
       col_uniqe row1 = true -> col_uniqe row2 = true ->
       row1 = row2).
Proof.
  intros Hne Hlw Hshape.
  pose proof (internal_points_frame_value vert line_width Hne Hlw Hshape) as Hval.
  cbv zeta in Hval.
  set (X := fst (profiles vert (Z.to_nat line_width))) in *.
  set (Y := snd (profiles vert (Z.to_nat line_width))) in *.
  set (s := Z.to_nat (line_width / 2)) in *.
  set (cnt := (Z.to_nat line_width - s)%nat) in *.
  eexists. split; [| split].
  - unfold get_internal_points.
    replace (line_width <? 3)%Z with false by (symmetry; apply Z.ltb_ge; exact Hlw).
    rewrite Hval. reflexivity.
  - intros row Hrow. apply in_layer_frames in Hrow.
    destruct Hrow as [i [n [Hi [Hn ->]]]]. cbn [col_layer col_r col_c col_ord].
    destruct (first_occurrence (layer_coords X Y i) n Hn) as [n0 [Hle [Hsame Hin]]].
    exists (mk_frame_row
              (fst (nth n0 (layer_coords X Y i) (0, 0)%Z))
              (snd (nth n0 (layer_coords X Y i) (0, 0)%Z))
              (existsb (Nat.eqb n0) (unique_index (layer_coords X Y i)))
              (Z.of_nat i - line_width / 2) n0).
    cbn [col_layer col_r col_c col_ord col_uniqe]. rewrite Hsame.
    split; [| repeat split; try reflexivity; [apply existsb_eqb_in; exact Hin | exact Hle]].
    apply in_layer_frames. exists i, n0. repeat split; try lia.
    rewrite Hsame. reflexivity.
  - intros row1 row2 H1 H2. apply in_layer_frames in H1, H2.
    destruct H1 as [i1 [n1 [Hi1 [Hn1 ->]]]]. destruct H2 as [i2 [n2 [Hi2 [Hn2 ->]]]].
    cbn [col_layer col_r col_c col_ord col_uniqe]. intros Hlayer Hr Hc Hu1 Hu2.
    assert (i1 = i2) by lia. subst i2.
    apply existsb_eqb_in in Hu1, Hu2.
    assert (Heq : nth n1 (layer_coords X Y i1) (0, 0)%Z = nth n2 (layer_coords X Y i1) (0, 0)%Z).
    { destruct (nth n1 _ _), (nth n2 _ _). cbn [fst snd] in Hr, Hc. congruence. }
    pose proof (unique_index_inj _ n1 n2 Hu1 Hu2 Heq). subst n2. reflexivity.
Qed.

End InternalPointsFacts.

Lemma internal_points_empty_polygon_witness :
  get_internal_points (internal_points_frame sk_line_profile_coordinates) [] 3
  = Raise IndexError.
Proof. apply (internal_points_empty_polygon sk_line_profile_coordinates 3). lia. Defined.


Lemma internal_points_unique_flags_witness :
  exists df_all,
    get_internal_points (internal_points_frame sk_line_profile_coordinates)
      [(0, 0)%R; (0, 2)%R] 3
    = Ok (ReturnedFrame df_all) /\
    (forall row, In row df_all ->
       exists first,
         In first df_all /\ col_layer first = col_layer row /\
         col_r first = col_r row /\ col_c first = col_c row /\
         col_uniqe first = true /\ (col_ord first <= col_ord row)%nat).
Proof.
  destruct (internal_points_unique_flags sk_line_profile_coordinates
              [(0, 0)%R; (0, 2)%R] 3) as [df_all [Hrun [Hfirst _]]].
  - discriminate.
  - lia.
  - apply exact_well_shaped.
  - exists df_all. split; [exact Hrun | exact Hfirst].
Defined.

(** ** Edge picture: which orientation a pixel shows *)

Lemma map_result_raise {A B : Type} (f : A -> result B) (e : exn) (l : list A) (a : A) :
  (forall x e', f x = Raise e' -> e' = e) ->
  In a l -> f a = Raise e -> map_result f l = Raise e.
Proof.
  intros Honly. induction l as [| b l IH]; intros Hin Ha; [contradiction |].
  cbn [map_result]. destruct (f b) as [v | e'] eqn:Hb.
  - cbn [bind]. destruct Hin as [-> | Hin]; [congruence |].
    rewrite (IH Hin Ha). reflexivity.
  - cbn [bind]. f_equal. apply (Honly b). exact Hb.
Qed.

Lemma setitem_points_raise (sh : shape) (a : ndarray R) (points : list (Z * Z)) (o : R)
    (p : Z * Z) :
  In p points -> wrap_point sh p = None ->
  setitem_points sh a points o = Raise IndexError.
Proof.
  intros Hin Hp. unfold setitem_points.
  rewrite (map_result_raise _ IndexError points p); [reflexivity | | exact Hin |].
  - intros x e' Hx. destruct (wrap_point sh x); [discriminate | congruence].
  - rewrite Hp. reflexivity.
Qed.

Lemma setitem_points_error (sh : shape) (a : ndarray R) (points : list (Z * Z)) (o : R)
    (e : exn) :
  setitem_points sh a points o = Raise e -> e = IndexError.
Proof.
  unfold setitem_points. intros H.
  destruct (map_result _ points) as [targets | e'] eqn:Hm; [discriminate |].
  cbn [bind] in H. injection H as <-.
  revert e' Hm. induction points as [| p points IH]; intros e' Hm; [discriminate |].
  cbn [map_result] in Hm. destruct (wrap_point sh p).
  - cbn [bind] in Hm. destruct (map_result _ points) as [t | e''] eqn:Hm'; [discriminate |].
    cbn [bind] in Hm. injection Hm as <-. apply IH. reflexivity.
  - cbn [bind] in Hm. congruence.
Qed.

Lemma setitem_points_ok (sh : shape) (a : ndarray R) (points : list (Z * Z)) (o : R) :
  (forall p, In p points -> wrap_point sh p <> None) ->
  exists image,
    setitem_points sh a points o = Ok image /\
    forall r c, in_bounds sh r c = true ->
      item 0%R image r c = if hits sh points r c then o else item 0%R a r c.
Proof.
  intros Hall. unfold setitem_points.
  rewrite (map_result_map _
             (fun p => match wrap_point sh p with Some q => q | None => (0, 0)%Z end)).
  - cbn [bind]. eexists. split; [reflexivity |]. intros r c Hb.
    rewrite item_tabulate by exact Hb.
    replace (existsb (coords_eqb (r, c)) (map _ points)) with (hits sh points r c);
      [reflexivity |].
    unfold hits. clear Hb. induction points as [| p points IH]; [reflexivity |].
    cbn [existsb map]. rewrite IH by (intros q Hq; apply Hall; right; exact Hq).
    destruct (wrap_point sh p) eqn:Hp; [reflexivity |].
    exfalso. apply (Hall p (or_introl eq_refl)). exact Hp.
  - intros p Hp. destruct (wrap_point sh p) eqn:Hw; [reflexivity |].
    exfalso. apply (Hall p Hp). exact Hw.
Qed.

Lemma in_combine_seq {A : Type} (s n j : nat) (l : list A) (a : A) :
  In (j, a) (combine (seq s n) l) ->
  (s <= j < s + n)%nat /\ nth_error l (j - s) = Some a.
Proof.
  revert s l. induction n as [| n IH]; intros s l Hin; [contradiction |].
  destruct l as [| b l]; [contradiction |]. cbn [seq combine] in Hin.
  destruct Hin as [Heq | Hin].
  - injection Heq as <- <-. rewrite Nat.sub_diag. split; [lia | reflexivity].
  - apply IH in Hin. destruct Hin as [Hj Hnth]. split; [lia |].
    replace (j - s)%nat with (S (j - S s)) by lia. exact Hnth.
Qed.

Lemma combine_seq_split {A : Type} (s n i : nat) (l : list A) (a : A) :
  (i < n)%nat -> nth_error l i = Some a ->
  exists pre post,
    combine (seq s n) l = pre ++ (s + i, a)%nat :: post /\
    forall j b, In (j, b) post -> (s + i < j < s + n)%nat /\ (j - s < length l)%nat.
Proof.
  revert s n l. induction i as [| i IH]; intros s n l Hi Hnth.
  - destruct l as [| b l]; [discriminate |]. injection Hnth as ->.
    destruct n as [| n]; [lia |]. exists [], (combine (seq (S s) n) l).
    rewrite Nat.add_0_r. split; [reflexivity |].
    intros j b Hin. apply in_combine_seq in Hin. destruct Hin as [Hj Hb].
    assert (j - S s < length l)%nat by (apply nth_error_Some; congruence).
    cbn [length]. lia.
  - destruct l as [| b l]; [discriminate |]. destruct n as [| n]; [lia |].
    cbn [nth_error] in Hnth.
    destruct (IH (S s) n l ltac:(lia) Hnth) as [pre [post [Heq Hpost]]].
    exists ((s, b) :: pre), post. cbn [seq combine]. rewrite Heq.
    replace (S s + i)%nat with (s + S i)%nat by lia. split; [reflexivity |].
    intros j b' Hin. destruct (Hpost j b' Hin) as [Hj Hl]. cbn [length]. lia.
Qed.

Section EdgeVisualFacts.

Variable footprint_t : Type.
Variable disk_fp : Z -> footprint_t.
Variable dilation : ndarray R -> footprint_t -> ndarray R.
Variable draw_line : Z -> Z -> Z -> Z -> list (Z * Z).

Local Abbreviation line_of := (edge_line draw_line).

(** The value of a pixel after the edges [edges] have been drawn over [v]. *)
Local Abbreviation paint sh vertices r c :=
  (fold_left
     (fun (v : R) (io : nat * R) => if hits sh (line_of vertices (fst io)) r c then snd io else v)).

Lemma draw_edges_ok (sh : shape) (vertices : list (Z * Z)) (edges : list (nat * R))
    (image : ndarray R) :
  (forall io p, In io edges -> In p (line_of vertices (fst io)) -> wrap_point sh p <> None) ->
  exists image',
    fold_left
      (fun acc io =>
         edge_image <- acc ;;
         setitem_points sh edge_image (line_of vertices (fst io)) (snd io))
      edges (Ok image) = Ok image' /\
    forall r c, in_bounds sh r c = true ->
      item 0%R image' r c = paint sh vertices r c edges (item 0%R image r c).
Proof.
  revert image. induction edges as [| io edges IH]; intros image Hall.
  - exists image. split; [reflexivity |]. intros r c _. reflexivity.
  - cbn [fold_left bind].
    destruct (setitem_points_ok sh image (line_of vertices (fst io)) (snd io))
      as [image1 [Hset Hpix]].
    { intros p Hp. apply (Hall io p); [left; reflexivity | exact Hp]. }
    rewrite Hset.
    destruct (IH image1) as [image' [Hfold Hpix']].
    { intros io' p Hio Hp. apply (Hall io' p); [right; exact Hio | exact Hp]. }
    exists image'. split; [exact Hfold |].
    intros r c Hb. rewrite (Hpix' r c Hb), (Hpix r c Hb). reflexivity.
Qed.

Lemma draw_edges_raised (sh : shape) (vertices : list (Z * Z)) (edges : list (nat * R))
    (e : exn) :
  fold_left
    (fun acc io =>
       edge_image <- acc ;;
       setitem_points sh edge_image (line_of vertices (fst io)) (snd io))
    edges (Raise e) = Raise e.
Proof. induction edges as [| io edges IH]; [reflexivity | exact IH]. Qed.

Lemma draw_edges_raise (sh : shape) (vertices : list (Z * Z)) (edges : list (nat * R))
    (image : ndarray R) (io : nat * R) (p : Z * Z) :
  In io edges -> In p (line_of vertices (fst io)) -> wrap_point sh p = None ->
  fold_left
    (fun acc io =>
       edge_image <- acc ;;
       setitem_points sh edge_image (line_of vertices (fst io)) (snd io))
    edges (Ok image) = Raise IndexError.
Proof.
  revert image. induction edges as [| io' edges IH]; intros image Hio Hp Hw; [contradiction |].
  cbn [fold_left bind].
  destruct (setitem_points sh image (line_of vertices (fst io')) (snd io'))
    as [image1 | e] eqn:Hset.
  - destruct Hio as [-> | Hio].
    + rewrite (setitem_points_raise sh image _ (snd io) p Hp Hw) in Hset. discriminate.
    + apply IH; assumption.
  - apply setitem_points_error in Hset. subst e. apply draw_edges_raised.
Qed.

Lemma paint_none (sh : shape) (vertices : list (Z * Z)) (r c : Z) (edges : list (nat * R))
    (v : R) :
  (forall io, In io edges -> hits sh (line_of vertices (fst io)) r c = false) ->
  paint sh vertices r c edges v = v.
Proof.
  revert v. induction edges as [| io edges IH]; intros v H; [reflexivity |].
  cbn [fold_left]. rewrite (H io (or_introl eq_refl)).
  apply IH. intros io' Hio'. apply H. right. exact Hio'.
Qed.

Lemma paint_last (sh : shape) (vertices : list (Z * Z)) (r c : Z)
    (pre post : list (nat * R)) (i : nat) (o v : R) :
  hits sh (line_of vertices i) r c = true ->
  (forall io, In io post -> hits sh (line_of vertices (fst io)) r c = false) ->
  paint sh vertices r c (pre ++ (i, o) :: post) v = o.
Proof.
  intros Hi Hpost. rewrite fold_left_app. cbn [fold_left fst snd]. rewrite Hi.
  apply paint_none. exact Hpost.
Qed.

(** X28: When the lines of all edges that are drawn stay within the index range
    of the image, the picture is the dilation of an image in which a pixel
    on no line is 0 and a pixel on a line shows the orientation of the last
    edge through it.  An edge is drawn when it has an orientation: the edges
    are paired with the orientations in order. *)
Theorem edge_visual_last_edge_wins (im_size : shape) (vertices : list (Z * Z))
    (orientations : list R) (line_width : Z) :
  (forall j p, (j < length vertices)%nat -> (j < length orientations)%nat ->
               In p (line_of vertices j) -> wrap_point im_size p <> None) ->
  exists edge_image,
    create_edge_visual disk_fp dilation draw_line im_size vertices orientations line_width
    = Ok (dilation edge_image (disk_fp line_width)) /\
    forall r c, in_bounds im_size r c = true ->
      ((forall j, (j < length vertices)%nat -> (j < length orientations)%nat ->
                  hits im_size (line_of vertices j) r c = false) ->
       item 0%R edge_image r c = 0%R) /\
      (forall i o,
          (i < length vertices)%nat -> nth_error orientations i = Some o ->
          hits im_size (line_of vertices i) r c = true ->
          (forall j, (i < j)%nat -> (j < length vertices)%nat ->
                     (j < length orientations)%nat ->
                     hits im_size (line_of vertices j) r c = false) ->
          item 0%R edge_image r c = o).
Proof.
  intros Hall. unfold create_edge_visual. cbv zeta.
  set (edges := combine (seq 0 (length vertices)) orientations).
  assert (Hin : forall j b, In (j, b) edges ->
                  (j < length vertices)%nat /\ (j < length orientations)%nat).
  { intros j b Hjb. apply in_combine_seq in Hjb. destruct Hjb as [Hj Hnth].
    rewrite Nat.sub_0_r in Hnth. split; [lia |]. apply nth_error_Some. congruence. }
  destruct (draw_edges_ok im_size vertices edges (tabulate im_size (fun _ _ => 0%R)))
    as [edge_image [Hfold Hpix]].
  { intros [j b] p Hio Hp. destruct (Hin j b Hio) as [Hj Hj']. apply (Hall j p Hj Hj' Hp). }
  rewrite Hfold. cbn [bind]. exists edge_image. split; [reflexivity |].
  intros r c Hb. rewrite (Hpix r c Hb), item_tabulate by exact Hb. split.
  - intros Hnone. apply paint_none. intros [j b] Hio. destruct (Hin j b Hio) as [Hj Hj'].
    apply (Hnone j Hj Hj').
  - intros i o Hi Ho Hhit Hlater.
    destruct (combine_seq_split 0 (length vertices) i orientations o Hi Ho)
      as [pre [post [Heq Hpost]]].
    unfold edges. rewrite Heq. cbn [Nat.add]. apply paint_last; [exact Hhit |].
    intros [j b] Hjb. destruct (Hpost j b Hjb) as [Hj Hl]. cbn [fst].
    apply Hlater; lia.
Qed.

(** X29: A line that leaves the index range of the image ends the call with an
    IndexError, whichever edge it belongs to. *)
Theorem edge_visual_index_error (im_size : shape) (vertices : list (Z * Z))
    (orientations : list R) (line_width : Z) (j : nat) (p : Z * Z) :
  (j < length vertices)%nat -> (j < length orientations)%nat ->
  In p (line_of vertices j) -> wrap_point im_size p = None ->
  create_edge_visual disk_fp dilation draw_line im_size vertices orientations line_width
  = Raise IndexError.
Proof.
  intros Hj Hj' Hp Hw. unfold create_edge_visual. cbv zeta.
  destruct (nth_error orientations j) as [o |] eqn:Ho;
    [| apply nth_error_None in Ho; lia].
  destruct (combine_seq_split 0 (length vertices) j orientations o Hj Ho)
    as [pre [post [Heq _]]].
  rewrite (draw_edges_raise im_size vertices _ _ (j, o) p); [reflexivity | | exact Hp | exact Hw].
  rewrite Heq. apply in_or_app. right. left. reflexivity.
Qed.

End EdgeVisualFacts.

Lemma edge_visual_last_edge_wins_witness :
  exists edge_image,
    create_edge_visual (fun z : Z => z) (fun a _ => a) end_points_line
      (2, 3)%nat [(0, 0); (0, 2)]%Z [1; 2]%R 5
    = Ok edge_image /\
    item 0%R edge_image 0 0 = 2%R /\ item 0%R edge_image 1 1 = 0%R.
Proof.
  destruct (edge_visual_last_edge_wins Z (fun z => z) (fun a _ => a) end_points_line
              (2, 3)%nat [(0, 0); (0, 2)]%Z [1; 2]%R 5) as [edge_image [Hrun Hpix]].
  - intros j p Hj _ Hp. destruct j as [| [| j]]; [| | cbn in Hj; lia];
      cbn in Hp; destruct Hp as [<- | [<- | []]]; vm_compute; discriminate.
  - exists edge_image. split; [exact Hrun |]. split.
    + destruct (Hpix 0%Z 0%Z) as [_ Hlast]; [reflexivity |].
      apply (Hlast 1%nat 2%R).
      * cbn. lia.
      * reflexivity.
      * vm_compute. reflexivity.
      * intros j Hj Hj' _. cbn in Hj'. lia.
    + destruct (Hpix 1%Z 1%Z) as [Hnone _]; [reflexivity |].
      apply Hnone. intros j Hj _. destruct j as [| [| j]]; [| | cbn in Hj; lia];
        vm_compute; reflexivity.
Defined.

Lemma edge_visual_index_error_witness :
  create_edge_visual (fun z : Z => z) (fun a _ => a) end_points_line
    (2, 3)%nat [(0, 0); (0, 5)]%Z [1]%R 5
  = Raise IndexError.
Proof.
  apply (edge_visual_index_error Z (fun z => z) (fun a _ => a) end_points_line
           (2, 3)%nat [(0, 0); (0, 5)]%Z [1]%R 5 0%nat (0, 5)%Z).
  - cbn. lia.
  - cbn. lia.
  - cbn. right. left. reflexivity.
  - vm_compute. reflexivity.
Defined.

(** ** Array objects: what a run returns *)

(** One step of the symbolic run of an operation on objects. *)
Ltac run :=
  unfold abind, read, alloc, write, lift, ret, heap_alloc, heap_write;
  repeat (rewrite ?update_same, ?Nat.eqb_refl; rewrite ?update_other by discriminate;
          cbn [store next fst snd]).

Lemma for_each_read (k : kind) (ls : list ref) (m : memory) :
  for_each (read k) ls m = Ok (map (store (m k)) ls, m).
Proof.
  induction ls as [| l ls IH]; [reflexivity |].
  cbn [for_each map]. unfold abind at 1. unfold read at 1. unfold abind. rewrite IH.
  reflexivity.
Qed.

Lemma length_indexed {A B : Type} (G : nat * A -> B) (l : list A) :
  length (map G (combine (seq 0 (length l)) l)) = length l.
Proof. rewrite length_map, length_combine, length_seq. apply Nat.min_id. Qed.

Lemma nth_indexed {A B : Type} (G : nat * A -> B) (l : list A) (k : nat) (d : A) (db : B) :
  (k < length l)%nat ->
  nth k (map G (combine (seq 0 (length l)) l)) db = G (k, nth k l d).
Proof.
  intros Hk.
  rewrite (nth_indep _ db (G (0%nat, d))) by (rewrite length_indexed; exact Hk).
  rewrite map_nth. rewrite combine_nth by apply length_seq.
  rewrite seq_nth by exact Hk. reflexivity.
Qed.

(** The four column assignments build the frame of the layer. *)
Lemma frame_built (layer : list (Z * Z)) (l_unique : list nat) (number : Z) :
  mark_unique l_unique
    (assign_ord (assign_layer number (assign_unique false (frame_of_layer layer))))
  = layer_frame layer l_unique number.
Proof.
  unfold assign_layer, assign_unique, frame_of_layer. rewrite !map_map.
  cbn [col_r col_c col_uniqe col_layer col_ord].
  set (h := fun rc : Z * Z => mk_frame_row (fst rc) (snd rc) false number 0%nat).
  assert (Hlen : length (assign_ord (map h layer)) = length layer).
  { unfold assign_ord. rewrite length_indexed. apply length_map. }
  apply (nth_ext _ _ (h (0, 0)%Z) (h (0, 0)%Z)).
  - unfold mark_unique, layer_frame.
    rewrite length_indexed, Hlen, length_map, length_seq. reflexivity.
  - intros k Hk. unfold mark_unique in Hk |- *. rewrite length_indexed, Hlen in Hk.
    rewrite (nth_indexed _ _ _ (h (0, 0)%Z)) by (rewrite Hlen; exact Hk).
    unfold assign_ord.
    rewrite (nth_indexed _ _ _ (h (0, 0)%Z)) by (rewrite length_map; exact Hk).
    rewrite map_nth. cbn [fst snd]. unfold h.
    cbn [col_r col_c col_uniqe col_layer col_ord].
    unfold layer_frame.
    set (f := fun n : nat => mk_frame_row _ _ _ _ _).
    rewrite (nth_indep _ _ (f 0%nat)) by (rewrite length_map, length_seq; exact Hk).
    rewrite (map_nth f). rewrite seq_nth by exact Hk. unfold f. cbn [Nat.add].
    destruct (existsb (Nat.eqb k) l_unique); reflexivity.
Qed.

(** The three steps that build [centroid_array] give the row of every
    identity. *)
Lemma centroid_table_built (rows : list row3) (c : point) (l : list nat) :
  map shift_angle (map (with_angle c) (map (fun x0 => centroid_means rows (Z.of_nat x0)) l))
  = map (fun x0 => centroid_of rows c (Z.of_nat x0)) l.
Proof. rewrite !map_map. reflexivity. Qed.

Lemma layer_body_obj_value (cx cy : list (list R)) (s : Z) (i : nat) (m : memory) :
  match layer_body_obj cx cy s i m with
  | Ok (df, m') =>
      layer_value cx cy s i = Ok (store (m' KFrame) df) /\
      df = next (m KFrame) /\ next (m' KFrame) = S (next (m KFrame)) /\
      (forall l, (l < next (m KFrame))%nat -> store (m' KFrame) l = store (m KFrame) l)
  | Raise e => layer_value cx cy s i = Raise e
  end.
Proof.
  unfold layer_body_obj, layer_value. run.
  destruct (layer_at cx cy i) as [layer | e]; [| reflexivity]. cbn [bind]. run.
  rewrite frame_built. repeat split.
  intros l Hl. destruct (Nat.eqb_spec l (next (m KFrame))) as [-> | _]; [lia | reflexivity].
Qed.

Lemma layers_value (cx cy : list (list R)) (s : Z) (l : list nat) :
  forall m : memory,
    match for_each (layer_body_obj cx cy s) l m with
    | Ok (dfs, m') =>
        map_result (layer_value cx cy s) l = Ok (map (store (m' KFrame)) dfs) /\
        (next (m KFrame) <= next (m' KFrame))%nat /\
        (forall r, (r < next (m KFrame))%nat -> store (m' KFrame) r = store (m KFrame) r)
    | Raise e => map_result (layer_value cx cy s) l = Raise e
    end.
Proof.
  induction l as [| i l IH]; intros m.
  - cbn. auto.
  - cbn [for_each map_result]. unfold abind at 1.
    pose proof (layer_body_obj_value cx cy s i m) as Hstep.
    destruct (layer_body_obj cx cy s i m) as [[df m1] | e].
    + destruct Hstep as [-> [Hdf [Hnext Hold]]]. cbn [bind].
      unfold abind at 1. specialize (IH m1).
      destruct (for_each (layer_body_obj cx cy s) l m1) as [[dfs m'] | e].
      * destruct IH as [-> [Hnext' Hold']]. cbn [bind]. unfold ret. cbn [map].
        rewrite (Hold' df) by lia. repeat split; [lia |].
        intros r Hr. rewrite Hold' by lia. apply Hold. exact Hr.
      * rewrite IH. reflexivity.
    + rewrite Hstep. reflexivity.
Qed.

Lemma edge_value_raise (draw_line : Z -> Z -> Z -> Z -> list (Z * Z)) (im_size : shape)
    (vs : list (Z * Z)) (ios : list (nat * R)) (e : exn) :
  fold_left (edge_value draw_line im_size vs) ios (Raise e) = Raise e.
Proof. induction ios as [| io ios IH]; [reflexivity | exact IH]. Qed.

Lemma edges_value (draw_line : Z -> Z -> Z -> Z -> list (Z * Z)) (im_size : shape)
    (vertices edge_image : ref) (ios : list (nat * R)) :
  forall m : memory,
    match for_each (edge_body_obj draw_line im_size vertices edge_image) ios m with
    | Ok (_, m') =>
        fold_left (edge_value draw_line im_size (store (m KPixels) vertices)) ios
          (Ok (store (m KFloatImage) edge_image))
        = Ok (store (m' KFloatImage) edge_image) /\
        next (m' KFloatImage) = next (m KFloatImage)
    | Raise e =>
        fold_left (edge_value draw_line im_size (store (m KPixels) vertices)) ios
          (Ok (store (m KFloatImage) edge_image))
        = Raise e
    end.
Proof.
  induction ios as [| io ios IH]; intros m.
  - cbn. auto.
  - cbn [for_each fold_left]. unfold abind at 1. unfold edge_body_obj at 1. run.
    cbn [edge_value bind].
    destruct (setitem_points _ _ _ _) as [e' | e]; [| apply edge_value_raise].
    set (m1 := update m KFloatImage _).
    specialize (IH m1).
    assert (Hvs : store (m1 KPixels) vertices = store (m KPixels) vertices).
    { unfold m1. rewrite update_other by discriminate. reflexivity. }
    assert (He : store (m1 KFloatImage) edge_image = e').
    { unfold m1. rewrite update_same. cbn [store]. now rewrite Nat.eqb_refl. }
    assert (Hn : next (m1 KFloatImage) = next (m KFloatImage)).
    { unfold m1. rewrite update_same. reflexivity. }
    rewrite Hvs, He, Hn in IH.
    destruct (for_each _ ios m1) as [[us m'] | e]; [| exact IH].
    unfold ret. exact IH.
Qed.

Section ArrayObjectsValues.

Variable polygon2mask : shape -> nd_array -> ndarray bool.
Variable polygon : nd_array -> shape -> result (list (Z * Z)).
Variable meijering : ndarray R -> ndarray R.
Variable probabilistic_hough_line : ndarray R -> list segment.
Variable footprint_t : Type.
Variable disk_fp : Z -> footprint_t.
Variable grey_erosion : ndarray Z -> footprint_t -> ndarray Z.
Variable KMeans_fit_labels : nat -> list (Z * Z) -> result (list nat).
Variable M : morphology.
Variable computed_profile : point -> point -> nat -> list (list R) * list (list R).
Variable dilation : ndarray R -> footprint_t -> ndarray R.
Variable draw_line : Z -> Z -> Z -> Z -> list (Z * Z).

Lemma loop_body_obj_value (im_shape : shape) (mask_ref : ref) (i : Z) (poly : ref)
    (st : option (list (Z * Z)) * option (ndarray bool)) (m : memory) :
  simulates m mask_ref
    (loop_body_obj polygon2mask polygon im_shape mask_ref i poly st m)
    (loop_body nd_ndim nd_second_axis polygon2mask polygon im_shape i
       (store (m KArray) poly) (locals_of m mask_ref st)).
Proof.
  unfold simulates, locals_of, loop_body_obj, loop_body. run.
  cbn [mask mask_coord mask_single].
  destruct (2 <? nd_ndim (store (m KArray) poly))%nat.
  - destruct (nd_second_axis (store (m KArray) poly) <? 3)%nat; [reflexivity |].
    destruct (polygon _ _) as [coords | e]; [| reflexivity].
    cbn [bind fst snd mask mask_coord mask_single].
    destruct (snd st) as [ms |]; [| reflexivity]. run. auto.
  - cbn [bind fst snd mask mask_coord mask_single]. run. auto.
Qed.

Lemma loop_obj_value (im_shape : shape) (mask_ref : ref) (polys : list ref) :
  forall (i : Z) (st : option (list (Z * Z)) * option (ndarray bool)) (m : memory),
    simulates m mask_ref
      (loop_obj polygon2mask polygon im_shape mask_ref i polys st m)
      (loop nd_ndim nd_second_axis polygon2mask polygon im_shape i
         (map (store (m KArray)) polys) (locals_of m mask_ref st)).
Proof.
  induction polys as [| poly rest IH]; intros i st m.
  - cbn. auto.
  - cbn [loop_obj map loop]. unfold abind.
    pose proof (loop_body_obj_value im_shape mask_ref i poly st m) as Hstep.
    destruct (loop_body_obj polygon2mask polygon im_shape mask_ref i poly st m)
      as [[st1 m1] | e]; cbn [simulates] in Hstep.
    + destruct Hstep as [-> [Harr Hnext]]. cbn [bind].
      specialize (IH (i + 1)%Z st1 m1). rewrite Harr in IH.
      destruct (loop_obj polygon2mask polygon im_shape mask_ref (i + 1) rest st1 m1)
        as [[st' m'] | e]; cbn [simulates] in IH |- *.
      * destruct IH as [-> [Harr' Hnext']]. repeat split; congruence.
      * exact IH.
    + rewrite Hstep. reflexivity.
Qed.

Lemma create_mask_from_shapes_obj_value (vertices_polygons : list ref) (im_shape : shape)
    (m : memory) :
  agrees (fun m' masks => (store (m' KLabels) (fst masks), store (m' KLabels) (snd masks)))
    (create_mask_from_shapes_obj polygon2mask polygon vertices_polygons im_shape m)
    (create_mask_from_shapes nd_ndim nd_second_axis polygon2mask polygon
       (map (store (m KArray)) vertices_polygons) im_shape).
Proof.
  unfold create_mask_from_shapes_obj, create_mask_from_shapes, agrees.
  unfold abind at 1. unfold alloc at 1. unfold heap_alloc.
  set (m1 := update m KLabels _).
  unfold abind at 1.
  pose proof (loop_obj_value im_shape (next (m KLabels)) vertices_polygons 0 (None, None) m1)
    as Hloop.
  assert (Harr : m1 KArray = m KArray) by (unfold m1; apply update_other; discriminate).
  assert (Hmask : store (m1 KLabels) (next (m KLabels)) = zeros im_shape).
  { unfold m1. rewrite update_same. cbn [store]. now rewrite Nat.eqb_refl. }
  unfold locals_of in Hloop. rewrite Harr, Hmask in Hloop. cbn [fst snd] in Hloop.
  destruct (loop_obj _ _ _ _ _ _ _ _) as [[st' m2] | e]; cbn [simulates] in Hloop.
  - destruct Hloop as [-> [_ Hnext]]. cbn [bind mask]. run.
    replace (next (m KLabels) =? next (m2 KLabels))%nat with false; [reflexivity |].
    symmetry. apply Nat.eqb_neq. rewrite Hnext. unfold m1. rewrite update_same.
    cbn [next]. lia.
  - rewrite Hloop. reflexivity.
Qed.

Lemma divide_cell_outside_ring_obj_value (cell_image cell_center : ref)
    (ring_thickness : Z) (segment_number : nat) (m : memory) :
  agrees (fun m' points_array => store (m' KRows) points_array)
    (divide_cell_outside_ring_obj disk_fp grey_erosion KMeans_fit_labels
       cell_image cell_center ring_thickness segment_number m)
    (divide_cell_outside_ring disk_fp grey_erosion KMeans_fit_labels
       (store (m KLabels) cell_image) (store (m KPoint) cell_center)
       ring_thickness segment_number).
Proof.
  unfold divide_cell_outside_ring_obj, divide_cell_outside_ring, agrees. run.
  destruct (KMeans_fit_labels _ _) as [labels | e]; [| reflexivity]. cbn [bind].
  destruct (map_result _ _) as [cluster_identity | e]; [| reflexivity]. cbn [bind].
  run. rewrite centroid_table_built.
  destruct (map_result _ _) as [ids | e]; [| reflexivity]. cbn [bind].
  run. reflexivity.
Qed.

Lemma fill_gaps_between_cells_obj_value (mask_shapes_overlap : ref) (m : memory) :
  (mask_shapes_overlap < next (m KLabels))%nat ->
  agrees (fun m' im_divided => store (m' KLabels) im_divided)
    (fill_gaps_between_cells_obj M mask_shapes_overlap m)
    (fill_gaps_between_cells M (store (m KLabels) mask_shapes_overlap)).
Proof.
  intros Hl. unfold fill_gaps_between_cells_obj, fill_gaps_between_cells, agrees. run.
  replace (mask_shapes_overlap =? next (m KLabels))%nat with false
    by (symmetry; apply Nat.eqb_neq; lia).
  destruct (divide_contested _ _ _ _) as [im_divided | e]; [| reflexivity].
  run. reflexivity.
Qed.

Lemma get_internal_points_obj_value (vert : ref) (line_width : Z) (m : memory) :
  agrees (fun m' res =>
            match res with
            | ReturnedStr s => ReturnedStr s
            | ReturnedFrame df_all => ReturnedFrame (store (m' KFrame) df_all)
            end)
    (get_internal_points_obj computed_profile vert line_width m)
    (get_internal_points (internal_points_frame computed_profile)
       (store (m KVertices) vert) line_width).
Proof.
  unfold get_internal_points_obj, get_internal_points, agrees.
  destruct (line_width <? 3)%Z; [reflexivity |].
  unfold internal_points_frame. unfold abind at 1. unfold read at 1.
  set (cx := fst _). set (cy := snd _). set (s := (line_width / 2)%Z).
  unfold abind at 1.
  pose proof (layers_value cx cy s
                (seq (Z.to_nat s) (Z.to_nat line_width - Z.to_nat s)) m) as Hloop.
  fold (layer_value cx cy s).
  destruct (for_each (layer_body_obj cx cy s) _ m) as [[dfs m'] | e].
  - destruct Hloop as [-> _]. cbn [bind]. unfold abind at 1. rewrite for_each_read.
    run. reflexivity.
  - rewrite Hloop. reflexivity.
Qed.

Lemma create_edge_visual_obj_value (im_size : shape) (vertices orientations : ref)
    (line_width : Z) (m : memory) :
  agrees (fun m' edge_image => store (m' KFloatImage) edge_image)
    (create_edge_visual_obj disk_fp dilation draw_line im_size vertices orientations
       line_width m)
    (create_edge_visual disk_fp dilation draw_line im_size (store (m KPixels) vertices)
       (store (m KAngles) orientations) line_width).
Proof.
  unfold create_edge_visual_obj, create_edge_visual, agrees.
  unfold abind at 1. unfold alloc at 1. unfold heap_alloc.
  set (m1 := update m KFloatImage _).
  unfold abind at 1. unfold read at 1. unfold abind at 1. unfold read at 1.
  assert (Hvs : store (m1 KPixels) vertices = store (m KPixels) vertices).
  { unfold m1. rewrite update_other by discriminate. reflexivity. }
  assert (Hos : store (m1 KAngles) orientations = store (m KAngles) orientations).
  { unfold m1. rewrite update_other by discriminate. reflexivity. }
  assert (He : store (m1 KFloatImage) (next (m KFloatImage))
               = tabulate im_size (fun _ _ => 0%R)).
  { unfold m1. rewrite update_same. cbn [store]. now rewrite Nat.eqb_refl. }
  rewrite Hvs, Hos. unfold abind at 1.
  pose proof (edges_value draw_line im_size vertices (next (m KFloatImage))
                (combine (seq 0 (length (store (m KPixels) vertices)))
                   (store (m KAngles) orientations)) m1) as Hloop.
  rewrite Hvs, He in Hloop.
  match goal with
  | |- context [fold_left ?f ?l ?a] => set (folded := fold_left f l a)
  end.
  change (fold_left _ _ _) with folded in Hloop.
  destruct (for_each _ _ m1) as [[us m'] | e].
  - destruct Hloop as [-> Hn]. cbn [bind]. run. reflexivity.
  - rewrite Hloop. reflexivity.
Qed.

(** X30: for the six operations that write into arrays of their own, a run
    on array objects returns exactly when the computation on array values
    returns; the arrays or values returned then hold what that computation
    gives for the contents the input arrays have at the call, and the run
    raises the same error otherwise.  So the writes of a call never change
    what is read from an input, and treating the arrays as values is sound.
    The Gap/Overlap Resolver is given an array that exists. *)
Theorem array_objects_agree_with_values :
  (forall (vertices_polygons : list ref) (im_shape : shape) (m : memory),
      agrees
        (fun m' masks => (store (m' KLabels) (fst masks), store (m' KLabels) (snd masks)))
        (create_mask_from_shapes_obj polygon2mask polygon vertices_polygons im_shape m)
        (create_mask_from_shapes nd_ndim nd_second_axis polygon2mask polygon
           (map (store (m KArray)) vertices_polygons) im_shape)) /\
  (forall (actin_im : ref) (m : memory),
      agrees (fun _ lines_rad_list => lines_rad_list)
        (find_fibers_orientation_v2_obj meijering probabilistic_hough_line actin_im m)
        (Ok (find_fibers_orientation_v2 meijering probabilistic_hough_line
               (store (m KFloatImage) actin_im)))) /\
  (forall (cell_image cell_center : ref) (ring_thickness : Z) (segment_number : nat)
          (m : memory),
      agrees (fun m' points_array => store (m' KRows) points_array)
        (divide_cell_outside_ring_obj disk_fp grey_erosion KMeans_fit_labels
           cell_image cell_center ring_thickness segment_number m)
        (divide_cell_outside_ring disk_fp grey_erosion KMeans_fit_labels
           (store (m KLabels) cell_image) (store (m KPoint) cell_center)
           ring_thickness segment_number)) /\
  (forall (mask_shapes_overlap : ref) (m : memory),
      (mask_shapes_overlap < next (m KLabels))%nat ->
      agrees (fun m' im_divided => store (m' KLabels) im_divided)
        (fill_gaps_between_cells_obj M mask_shapes_overlap m)
        (fill_gaps_between_cells M (store (m KLabels) mask_shapes_overlap))) /\
  (forall (vert : ref) (line_width : Z) (m : memory),
      agrees
        (fun m' res =>
           match res with
           | ReturnedStr s => ReturnedStr s
           | ReturnedFrame df_all => ReturnedFrame (store (m' KFrame) df_all)
           end)
        (get_internal_points_obj computed_profile vert line_width m)
        (get_internal_points (internal_points_frame computed_profile)
           (store (m KVertices) vert) line_width)) /\
  (forall (im_size : shape) (vertices orientations : ref) (line_width : Z) (m : memory),
      agrees (fun m' edge_image => store (m' KFloatImage) edge_image)
        (create_edge_visual_obj disk_fp dilation draw_line im_size vertices orientations
           line_width m)
        (create_edge_visual disk_fp dilation draw_line im_size
           (store (m KPixels) vertices) (store (m KAngles) orientations) line_width)).
Proof.
  repeat apply conj.
  - apply create_mask_from_shapes_obj_value.
  - intros l m. unfold agrees, find_fibers_orientation_v2_obj, find_fibers_orientation_v2.
    run. reflexivity.
  - apply divide_cell_outside_ring_obj_value.
  - apply fill_gaps_between_cells_obj_value.
  - apply get_internal_points_obj_value.
  - apply create_edge_visual_obj_value.
Qed.

End ArrayObjectsValues.
